(** * sbomlicense: license enrichment of SPDX and CycloneDX documents

    A shallow embedding of the enrichment engine of boringbin/sbomlicense
    (packages [cache], [provider], [sbom] and [enricher]) and the proofs of
    its specified properties.

    Conventions.
    - A Go result pair [(string, error)] is the pair [string * option error];
      [None] is the nil error.
    - [time.Time] is an integer count of nanoseconds since Go's zero time
      (January 1, year 1 UTC), so the zero value is [0]; [time.Duration] is
      an integer count of nanoseconds.  [time.Now()] is an explicit argument
      [now] of every operation that reads the clock.
    - A pointer into a slice ([&doc.Packages[i]]) is the index [i] into the
      list of slots; a write through the pointer is a list update. *)

From Stdlib Require Import ZArith Ascii String List Bool Lia.
From stdpp Require Import base option list gmap gmultiset strings.

Open Scope Z_scope.
Open Scope string_scope.

(** ** Errors *)

(** The sentinel error values of the packages ([cache.ErrCacheMiss],
    [cache.ErrCacheClosed], [provider.ErrLicenseNotFound],
    [provider.ErrInvalidResponse]) and the two sentinels of the embedded
    key-value store that [Put] returns for a rejected key. *)
Inductive sentinel : Type :=
  | CacheMiss
  | CacheClosed
  | LicenseNotFound
  | InvalidResponse
  | KeyRequired
  | KeyTooLarge.

(** Error values: a sentinel, an [errors.New]/[fmt.Errorf] message without
    [%w], a [fmt.Errorf("...: %w", err)] wrapper, and the two-verb wrapper
    [fmt.Errorf("%w: %w", e1, e2)]. *)
Inductive error : Type :=
  | Sentinel (s : sentinel)
  | ErrorString (msg : string)
  | WrapError (msg : string) (inner : error)
  | WrapErrors (e1 e2 : error).

Abbreviation ErrCacheMiss := (Sentinel CacheMiss).
Abbreviation ErrCacheClosed := (Sentinel CacheClosed).
Abbreviation ErrLicenseNotFound := (Sentinel LicenseNotFound).
Abbreviation ErrInvalidResponse := (Sentinel InvalidResponse).
Abbreviation ErrKeyRequired := (Sentinel KeyRequired).
Abbreviation ErrKeyTooLarge := (Sentinel KeyTooLarge).

Definition sentinel_eqb (a b : sentinel) : bool :=
  match a, b with
  | CacheMiss, CacheMiss | CacheClosed, CacheClosed
  | LicenseNotFound, LicenseNotFound | InvalidResponse, InvalidResponse
  | KeyRequired, KeyRequired | KeyTooLarge, KeyTooLarge => true
  | _, _ => false
  end.

(** [errors.Is(err, target)] for a sentinel [target]: the unwrap chain (a
    tree for the two-verb wrapper) is searched for the sentinel.  A message
    error is a fresh allocation and is never identical to a sentinel. *)
Fixpoint errors_Is (err : error) (target : sentinel) : bool :=
  match err with
  | Sentinel s => sentinel_eqb s target
  | ErrorString _ => false
  | WrapError _ inner => errors_Is inner target
  | WrapErrors e1 e2 => errors_Is e1 target || errors_Is e2 target
  end.

(** ** Time *)

Definition Time : Type := Z.
Definition Duration : Type := Z.

Definition Time_IsZero (t : Time) : bool := (t =? 0)%Z.
Definition Time_After (t u : Time) : bool := (u <? t)%Z.
Definition Time_Add (t : Time) (d : Duration) : Time := (t + d)%Z.

(** ** Package cache: the volatile backend *)

Module MemoryCache.

Record cacheEntry : Type := {
  value : string;
  expiration : Time  (* zero value means no expiration *)
}.

Definition isExpired (now : Time) (e : cacheEntry) : bool :=
  negb (Time_IsZero (expiration e)) && Time_After now (expiration e).

(** [Close] sets the map to nil; a nil map reads like the empty map, and
    every write is guarded by [closed]. *)
Record t : Type := {
  cache : gmap string cacheEntry;
  closed : bool
}.

Definition NewMemoryCache : t := {| cache := ∅; closed := false |}.

Definition Get (now : Time) (c : t) (key : string) : string * option error :=
  if closed c then ("", Some ErrCacheClosed)
  else
    match cache c !! key with
    | None => ("", Some ErrCacheMiss)
    | Some entry =>
        if isExpired now entry then ("", Some ErrCacheMiss)
        else (value entry, None)
    end.

Definition SetWithTTL (now : Time) (c : t) (key val : string) (ttl : Duration)
  : option error * t :=
  if closed c then (Some ErrCacheClosed, c)
  else
    let entry :=
      {| value := val;
         expiration := if (0 <? ttl)%Z then Time_Add now ttl else 0 |} in
    (None, {| cache := <[key := entry]> (cache c); closed := closed c |}).

Definition Delete (c : t) (key : string) : option error * t :=
  if closed c then (Some ErrCacheClosed, c)
  else (None, {| cache := delete key (cache c); closed := closed c |}).

Definition Close (c : t) : option error * t :=
  if closed c then (None, c)
  else (None, {| cache := ∅; closed := true |}).

End MemoryCache.

(** ** Package cache: the durable backend *)

Module BboltCache.

Record bboltEntry : Type := {
  Value : string;
  Expiration : Time  (* zero value means no expiration *)
}.

Definition isExpired (now : Time) (e : bboltEntry) : bool :=
  negb (Time_IsZero (Expiration e)) && Time_After now (Expiration e).

(** The bytes stored under a key, classified the way [Get] classifies
    them with [json.Unmarshal]: the encoding of a [bboltEntry] (what
    [SetWithTTL] writes with [json.Marshal]), or bytes that do not decode
    as one, which [Get] returns as they are.  The encoding is taken to be
    exact: a marshalled entry decodes to the same entry (values are
    well-formed UTF-8 text). *)
Inductive stored : Type :=
  | Encoded (e : bboltEntry)
  | Plain (raw : string).

(** The embedded store: the one bucket ["licenses"], absent until
    [NewBboltCache] creates it.  [Bucket.Put] rejects the empty key and a
    key longer than [MaxKeySize]; storage failures of the file itself are
    outside the model. *)
Record DB : Type := {
  bucket : option (gmap string stored)
}.

Definition MaxKeySize : Z := 32768.

Definition Bucket_Get (b : gmap string stored) (key : string) : option stored :=
  b !! key.

Definition Bucket_Put (b : gmap string stored) (key : string) (data : stored)
  : option error * gmap string stored :=
  if Nat.eqb (String.length key) 0 then (Some ErrKeyRequired, b)
  else if (MaxKeySize <? Z.of_nat (String.length key))%Z
       then (Some ErrKeyTooLarge, b)
  else (None, <[key := data]> b).

Definition Bucket_Delete (b : gmap string stored) (key : string)
  : option error * gmap string stored :=
  (None, delete key b).

Record t : Type := {
  db : DB;
  closed : bool
}.

Definition NewBboltCache (d : DB) : t :=
  {| db := {| bucket := Some (default ∅ (bucket d)) |}; closed := false |}.

Definition Get (now : Time) (c : t) (key : string) : string * option error :=
  if closed c then ("", Some ErrCacheClosed)
  else
    match bucket (db c) with
    | None => ("", Some (ErrorString "bucket not found"))
    | Some b =>
        match Bucket_Get b key with
        | None => ("", Some ErrCacheMiss)
        | Some (Plain raw) => (raw, None)
        | Some (Encoded entry) =>
            if isExpired now entry then ("", Some ErrCacheMiss)
            else (Value entry, None)
        end
    end.

Definition SetWithTTL (now : Time) (c : t) (key val : string) (ttl : Duration)
  : option error * t :=
  if closed c then (Some ErrCacheClosed, c)
  else
    match bucket (db c) with
    | None => (Some (ErrorString "bucket not found"), c)
    | Some b =>
        let entry :=
          {| Value := val;
             Expiration := if (0 <? ttl)%Z then Time_Add now ttl else 0 |} in
        let '(err, b') := Bucket_Put b key (Encoded entry) in
        (err, {| db := {| bucket := Some b' |}; closed := closed c |})
    end.

Definition Delete (c : t) (key : string) : option error * t :=
  if closed c then (Some ErrCacheClosed, c)
  else
    match bucket (db c) with
    | None => (None, c)
    | Some b =>
        let '(err, b') := Bucket_Delete b key in
        (err, {| db := {| bucket := Some b' |}; closed := closed c |})
    end.

Definition Close (c : t) : option error * t :=
  if closed c then (None, c)
  else (None, {| db := db c; closed := true |}).

End BboltCache.

(** ** Package provider: the cache-through lookup *)

Module provider.

Section Lookup.

(** The state of the cache and of the license service behind the two
    interfaces.  An implementation is any pair of functions on its own
    state; a clock, a store or a remote service is part of that state. *)
Context {CS PS : Type}.

(** [cache.Cache], restricted to the two methods the lookup calls. *)
Record Cache : Type := {
  Cache_Get : CS -> string -> (string * option error) * CS;
  Cache_SetWithTTL : CS -> string -> string -> Duration -> option error * CS
}.

(** [provider.Provider]. *)
Record Provider : Type := {
  Provider_Get : PS -> string -> (string * option error) * PS
}.

(** [Cache] is [None] for a nil interface value. *)
Record GetOptions : Type := {
  Purl : string;
  GetProvider : Provider;
  GetCache : option Cache;
  CacheTTL : Duration
}.

(** A computation that calls the cache and the provider: each node is one
    method call on an interface value, with the rest of the computation
    as a function of what the call returns. *)
Inductive prog (R : Type) : Type :=
  | Ret (r : R)
  | CallCacheGet (c : Cache) (key : string)
      (k : string * option error -> prog R)
  | CallProviderGet (p : Provider) (purl : string)
      (k : string * option error -> prog R)
  | CallCacheSetWithTTL (c : Cache) (key val : string) (ttl : Duration)
      (k : option error -> prog R).
Global Arguments Ret {R} r.
Global Arguments CallCacheGet {R} c key k.
Global Arguments CallProviderGet {R} p purl k.
Global Arguments CallCacheSetWithTTL {R} c key val ttl k.

(** The part of [Get] after the cache has been read or bypassed. *)
Definition Get_from_provider (opts : GetOptions) : prog (string * option error) :=
  CallProviderGet (GetProvider opts) (Purl opts) (fun '(license, err) =>
    match err with
    | Some e => Ret ("", Some (WrapError "failed to get license from provider" e))
    | None =>
        match GetCache opts with
        | Some c =>
            if negb (String.eqb license "") then
              CallCacheSetWithTTL c (Purl opts) license (CacheTTL opts)
                (fun setErr =>
                   match setErr with
                   | Some e =>
                       Ret ("", Some (WrapError "failed to set license in cache" e))
                   | None => Ret (license, None)
                   end)
            else Ret (license, None)
        | None => Ret (license, None)
        end
    end).

Definition Get (opts : GetOptions) : prog (string * option error) :=
  match GetCache opts with
  | Some c =>
      CallCacheGet c (Purl opts) (fun '(license, err) =>
        match err with
        | Some e =>
            if negb (errors_Is e CacheMiss) then
              Ret ("", Some (WrapError "failed to get license from cache" e))
            else Get_from_provider opts
        | None => Ret (license, None)
        end)
  | None => Get_from_provider opts
  end.

(** What a run records of each call: the arguments and what came back. *)
Inductive event : Type :=
  | EvCacheGet (key : string) (res : string * option error)
  | EvProviderGet (purl : string) (res : string * option error)
  | EvCacheSetWithTTL (key val : string) (ttl : Duration) (res : option error).

Record world : Type := {
  cache_st : CS;
  provider_st : PS;
  calls : list event
}.

(** One call: the head of the computation is performed on the world. *)
Definition prog_step {R} (p : prog R) (w : world) : prog R * world :=
  match p with
  | Ret r => (Ret r, w)
  | CallCacheGet c key k =>
      let '(res, cs) := Cache_Get c (cache_st w) key in
      (k res, {| cache_st := cs; provider_st := provider_st w;
                 calls := calls w ++ [EvCacheGet key res] |})
  | CallProviderGet p purl k =>
      let '(res, ps) := Provider_Get p (provider_st w) purl in
      (k res, {| cache_st := cache_st w; provider_st := ps;
                 calls := calls w ++ [EvProviderGet purl res] |})
  | CallCacheSetWithTTL c key val ttl k =>
      let '(res, cs) := Cache_SetWithTTL c (cache_st w) key val ttl in
      (k res, {| cache_st := cs; provider_st := provider_st w;
                 calls := calls w ++ [EvCacheSetWithTTL key val ttl res] |})
  end.

(** A whole computation, run without interruption. *)
Fixpoint run {R} (p : prog R) (w : world) : R * world :=
  match p with
  | Ret r => (r, w)
  | CallCacheGet c key k =>
      let '(res, cs) := Cache_Get c (cache_st w) key in
      run (k res) {| cache_st := cs; provider_st := provider_st w;
                     calls := calls w ++ [EvCacheGet key res] |}
  | CallProviderGet p purl k =>
      let '(res, ps) := Provider_Get p (provider_st w) purl in
      run (k res) {| cache_st := cache_st w; provider_st := ps;
                     calls := calls w ++ [EvProviderGet purl res] |}
  | CallCacheSetWithTTL c key val ttl k =>
      let '(res, cs) := Cache_SetWithTTL c (cache_st w) key val ttl in
      run (k res) {| cache_st := cs; provider_st := provider_st w;
                     calls := calls w ++ [EvCacheSetWithTTL key val ttl res] |}
  end.

(** [yields p evs r]: the computation [p] can make exactly the calls
    [evs], with the answers recorded in them, and then return [r]. *)
Inductive yields {R} : prog R -> list event -> R -> Prop :=
  | yields_Ret r : yields (Ret r) [] r
  | yields_CacheGet c key k res evs r :
      yields (k res) evs r ->
      yields (CallCacheGet c key k) (EvCacheGet key res :: evs) r
  | yields_ProviderGet p purl k res evs r :
      yields (k res) evs r ->
      yields (CallProviderGet p purl k) (EvProviderGet purl res :: evs) r
  | yields_CacheSetWithTTL c key val ttl k res evs r :
      yields (k res) evs r ->
      yields (CallCacheSetWithTTL c key val ttl k)
             (EvCacheSetWithTTL key val ttl res :: evs) r.

(** [calls_le p n]: whatever the answers, [p] makes at most [n] calls. *)
Inductive calls_le {R} : prog R -> nat -> Prop :=
  | calls_le_Ret r n : calls_le (Ret r) n
  | calls_le_CacheGet c key k n :
      (forall res, calls_le (k res) n) -> calls_le (CallCacheGet c key k) (S n)
  | calls_le_ProviderGet p purl k n :
      (forall res, calls_le (k res) n) -> calls_le (CallProviderGet p purl k) (S n)
  | calls_le_CacheSetWithTTL c key val ttl k n :
      (forall res, calls_le (k res) n) ->
      calls_le (CallCacheSetWithTTL c key val ttl k) (S n).

(** The world after a cache state, a provider state and further calls. *)
Definition world_after (w : world) (cs : CS) (ps : PS) (evs : list event) : world :=
  {| cache_st := cs; provider_st := ps; calls := (calls w ++ evs)%list |}.

Definition is_provider_call (e : event) : bool :=
  match e with EvProviderGet _ _ => true | _ => false end.

Definition is_cache_write (e : event) : bool :=
  match e with EvCacheSetWithTTL _ _ _ _ => true | _ => false end.

End Lookup.

Global Arguments Cache : clear implicits.
Global Arguments Provider : clear implicits.
Global Arguments GetOptions : clear implicits.
Global Arguments prog : clear implicits.
Global Arguments world : clear implicits.
Global Arguments event : clear implicits.

End provider.

(** ** JSON values and the decoding rules of [encoding/json]

    The syntax tree of a JSON text.  An object keeps its members in text
    order, repeated keys included; a number keeps its literal. *)

#[warnings="-register-all"]
Inductive json : Type :=
  | JNull
  | JBool (b : bool)
  | JNumber (literal : string)
  | JString (s : string)
  | JArray (elems : list json)
  | JObject (members : list (string * json)).

Module jsondec.

Definition fold_ascii (c : ascii) : ascii :=
  let n := nat_of_ascii c in
  if (Nat.leb 65 n && Nat.leb n 90)%bool then ascii_of_nat (n + 32) else c.

Fixpoint fold_string (s : string) : string :=
  match s with
  | EmptyString => EmptyString
  | String c s' => String (fold_ascii c) (fold_string s')
  end.

(** A member key selects the struct field whose JSON name it equals up to
    letter case (no struct of the program has two fields that differ only
    by case; the non-ASCII case folds of Go are outside the model). *)
Definition key_matches (name key : string) : bool :=
  String.eqb (fold_string name) (fold_string key).

(** JSON into a Go [string]: [null] leaves the field as it is, any value
    that is not a string is a type error. *)
Definition into_string (old : string) (v : json) : option string :=
  match v with
  | JNull => Some old
  | JString s => Some s
  | _ => None
  end.

(** A Go slice: [None] is the nil slice. *)
Definition slice (A : Type) : Type := option (list A).

Definition elems {A} (s : slice A) : list A := default [] s.

(** JSON into a slice: [null] gives nil, an array gives its elements
    decoded one by one, anything else is a type error. *)
Definition into_slice {A} (elem : json -> option A) (v : json) : option (slice A) :=
  match v with
  | JNull => Some None
  | JArray l => Some <$> mapM elem l
  | _ => None
  end.

(** JSON into a struct: [null] leaves the zero value, an object sets the
    fields its members name, in member order (a later member overrides an
    earlier one, an unknown key is skipped), anything else is a type
    error. *)
Definition into_struct {A} (set_field : A -> string -> json -> option A)
    (zero : A) (v : json) : option A :=
  match v with
  | JNull => Some zero
  | JObject members =>
      foldl (fun acc '(k, x) => a ← acc; set_field a k x) (Some zero) members
  | _ => None
  end.

(** JSON into a pointer to a struct: [null] gives nil. *)
Definition into_pointer {A} (set_field : A -> string -> json -> option A)
    (zero : A) (v : json) : option (option A) :=
  match v with
  | JNull => Some None
  | _ => Some <$> into_struct set_field zero v
  end.

Definition of_slice {A} (elem : A -> json) (s : slice A) : json :=
  match s with
  | None => JNull
  | Some l => JArray (elem <$> l)
  end.

(** The member of an object that a Go map lookup finds: the last one with
    exactly that key. *)
Fixpoint member (key : string) (members : list (string * json)) : option json :=
  match members with
  | [] => None
  | (k, v) :: rest =>
      match member key rest with
      | Some v' => Some v'
      | None => if String.eqb k key then Some v else None
      end
  end.

End jsondec.

Import jsondec.

(** ** Package provider: the client of the catalog service *)

Module Client.

(** One element of the response array. *)
Record ecosystemsPackagesLookupResponse : Type := {
  NormalizedLicenses : slice string
}.

Definition zero_response : ecosystemsPackagesLookupResponse :=
  {| NormalizedLicenses := None |}.

Definition response_set_field (r : ecosystemsPackagesLookupResponse)
    (key : string) (v : json) : option ecosystemsPackagesLookupResponse :=
  if key_matches "normalized_licenses" key then
    l ← into_slice (into_string "") v;
    Some {| NormalizedLicenses := l |}
  else Some r.

(** [json.NewDecoder(body).Decode(&results)] on the first JSON value of
    the body. *)
Definition decode_results (v : json)
  : option (slice ecosystemsPackagesLookupResponse) :=
  into_slice (into_struct response_set_field zero_response) v.

(** What the HTTP round trip of one lookup comes to.  An error of
    [net/http] is a message, foreign to the sentinels of this program.  The
    body is the first JSON value of the response stream, [None] when the
    stream does not start with one. *)
Inductive exchange : Type :=
  | RequestFailed (msg : string)     (* http.NewRequestWithContext *)
  | TransportFailed (msg : string)   (* client.Do *)
  | Response (StatusCode : Z) (Body : option json).

Definition StatusOK : Z := 200.
Definition StatusNotFound : Z := 404.
Definition StatusTooManyRequests : Z := 429.
Definition StatusBadGateway : Z := 502.
Definition StatusServiceUnavailable : Z := 503.
Definition StatusGatewayTimeout : Z := 504.

Definition Get (x : exchange) (purl : string) : string * option error :=
  match x with
  | RequestFailed msg =>
      ("", Some (WrapError "failed to create HTTP request" (ErrorString msg)))
  | TransportFailed msg =>
      ("", Some (WrapError "failed to make HTTP request" (ErrorString msg)))
  | Response StatusCode Body =>
      if negb (StatusCode =? StatusOK)%Z then
        if (StatusCode =? StatusNotFound)%Z then
          ("", Some (WrapError "HTTP 404" ErrLicenseNotFound))
        else if (StatusCode =? StatusTooManyRequests)%Z then
          ("", Some (ErrorString "rate limited by API: HTTP 429"))
        else if ((StatusCode =? StatusBadGateway)%Z
                 || (StatusCode =? StatusServiceUnavailable)%Z
                 || (StatusCode =? StatusGatewayTimeout)%Z)%bool then
          ("", Some (ErrorString "API service unavailable"))
        else ("", Some (ErrorString "API error"))
      else
        match Body ≫= decode_results with
        | None =>
            ("", Some (WrapErrors ErrInvalidResponse
                         (ErrorString "cannot decode response")))
        | Some results =>
            match elems results with
            | [] => ("", Some (WrapError "no licenses found" ErrLicenseNotFound))
            | first :: _ =>
                match elems (NormalizedLicenses first) with
                | [] =>
                    ("", Some (WrapError "no licenses found" ErrLicenseNotFound))
                | license :: _ => (license, None)
                end
            end
        end
  end.

End Client.

(** ** Package enricher: the items of a document *)

(** [enrichableItem]: what the worker pool needs of an item. *)
Class enrichableItem (T : Type) : Type := {
  GetPurl : T -> string * option error;
  HasLicense : T -> bool;
  SetLicense : T -> string -> T;
  GetLogID : T -> string
}.

(** *** SPDX *)

Module spdx.

Definition spdxLicenseNone : string := "NONE".
Definition spdxLicenseNoAssertion : string := "NOASSERTION".

Record ExternalRef : Type := {
  ReferenceCategory : string;
  ReferenceType : string;
  ReferenceLocator : string
}.

Record Package : Type := {
  SPDXID : string;
  Name : string;
  VersionInfo : string;
  Homepage : string;
  LicenseConcluded : string;
  LicenseDeclared : string;
  ExternalRefs : slice ExternalRef
}.

Record Document : Type := {
  SPDXVersion : string;
  DocSPDXID : string;
  Packages : slice Package
}.

(** GetSPDXPackagePurl: the locator of the first reference of type purl. *)
Fixpoint first_purl (refs : list ExternalRef) : option string :=
  match refs with
  | [] => None
  | ref :: rest =>
      if String.eqb (ReferenceType ref) "purl" then Some (ReferenceLocator ref)
      else first_purl rest
  end.

Definition GetSPDXPackagePurl (pkg : Package) : string * option error :=
  match first_purl (elems (ExternalRefs pkg)) with
  | Some locator => (locator, None)
  | None =>
      ("", Some (ErrorString ("no PURL found for package with SPDX ID " ++ SPDXID pkg)))
  end.

Definition Package_GetPurl (p : Package) : string * option error :=
  GetSPDXPackagePurl p.

Definition Package_HasLicense (p : Package) : bool :=
  (negb (String.eqb (LicenseConcluded p) "")
   && negb (String.eqb (LicenseConcluded p) spdxLicenseNone)
   && negb (String.eqb (LicenseConcluded p) spdxLicenseNoAssertion))
  || (negb (String.eqb (LicenseDeclared p) "")
      && negb (String.eqb (LicenseDeclared p) spdxLicenseNone)
      && negb (String.eqb (LicenseDeclared p) spdxLicenseNoAssertion)).

Definition Package_SetLicense (p : Package) (license : string) : Package :=
  {| SPDXID := SPDXID p;
     Name := Name p;
     VersionInfo := VersionInfo p;
     Homepage := Homepage p;
     LicenseConcluded := license;
     LicenseDeclared :=
       if (String.eqb (LicenseDeclared p) ""
           || String.eqb (LicenseDeclared p) spdxLicenseNone
           || String.eqb (LicenseDeclared p) spdxLicenseNoAssertion)%bool
       then license else LicenseDeclared p;
     ExternalRefs := ExternalRefs p |}.

Definition Package_GetLogID (p : Package) : string := SPDXID p.

#[global] Instance Package_item : enrichableItem Package := {|
  GetPurl := Package_GetPurl;
  HasLicense := Package_HasLicense;
  SetLicense := Package_SetLicense;
  GetLogID := Package_GetLogID
|}.

(** **** Decoding and encoding *)

Definition zero_ExternalRef : ExternalRef :=
  {| ReferenceCategory := ""; ReferenceType := ""; ReferenceLocator := "" |}.

Definition ExternalRef_set_field (r : ExternalRef) (key : string) (v : json)
  : option ExternalRef :=
  if key_matches "referenceCategory" key then
    s ← into_string (ReferenceCategory r) v;
    Some {| ReferenceCategory := s; ReferenceType := ReferenceType r;
            ReferenceLocator := ReferenceLocator r |}
  else if key_matches "referenceType" key then
    s ← into_string (ReferenceType r) v;
    Some {| ReferenceCategory := ReferenceCategory r; ReferenceType := s;
            ReferenceLocator := ReferenceLocator r |}
  else if key_matches "referenceLocator" key then
    s ← into_string (ReferenceLocator r) v;
    Some {| ReferenceCategory := ReferenceCategory r;
            ReferenceType := ReferenceType r; ReferenceLocator := s |}
  else Some r.

Definition zero_Package : Package :=
  {| SPDXID := ""; Name := ""; VersionInfo := ""; Homepage := "";
     LicenseConcluded := ""; LicenseDeclared := ""; ExternalRefs := None |}.

Definition Package_set_field (p : Package) (key : string) (v : json)
  : option Package :=
  if key_matches "SPDXID" key then
    s ← into_string (SPDXID p) v;
    Some {| SPDXID := s; Name := Name p; VersionInfo := VersionInfo p;
            Homepage := Homepage p; LicenseConcluded := LicenseConcluded p;
            LicenseDeclared := LicenseDeclared p; ExternalRefs := ExternalRefs p |}
  else if key_matches "name" key then
    s ← into_string (Name p) v;
    Some {| SPDXID := SPDXID p; Name := s; VersionInfo := VersionInfo p;
            Homepage := Homepage p; LicenseConcluded := LicenseConcluded p;
            LicenseDeclared := LicenseDeclared p; ExternalRefs := ExternalRefs p |}
  else if key_matches "versionInfo" key then
    s ← into_string (VersionInfo p) v;
    Some {| SPDXID := SPDXID p; Name := Name p; VersionInfo := s;
            Homepage := Homepage p; LicenseConcluded := LicenseConcluded p;
            LicenseDeclared := LicenseDeclared p; ExternalRefs := ExternalRefs p |}
  else if key_matches "homepage" key then
    s ← into_string (Homepage p) v;
    Some {| SPDXID := SPDXID p; Name := Name p; VersionInfo := VersionInfo p;
            Homepage := s; LicenseConcluded := LicenseConcluded p;
            LicenseDeclared := LicenseDeclared p; ExternalRefs := ExternalRefs p |}
  else if key_matches "licenseConcluded" key then
    s ← into_string (LicenseConcluded p) v;
    Some {| SPDXID := SPDXID p; Name := Name p; VersionInfo := VersionInfo p;
            Homepage := Homepage p; LicenseConcluded := s;
            LicenseDeclared := LicenseDeclared p; ExternalRefs := ExternalRefs p |}
  else if key_matches "licenseDeclared" key then
    s ← into_string (LicenseDeclared p) v;
    Some {| SPDXID := SPDXID p; Name := Name p; VersionInfo := VersionInfo p;
            Homepage := Homepage p; LicenseConcluded := LicenseConcluded p;
            LicenseDeclared := s; ExternalRefs := ExternalRefs p |}
  else if key_matches "externalRefs" key then
    l ← into_slice (into_struct ExternalRef_set_field zero_ExternalRef) v;
    Some {| SPDXID := SPDXID p; Name := Name p; VersionInfo := VersionInfo p;
            Homepage := Homepage p; LicenseConcluded := LicenseConcluded p;
            LicenseDeclared := LicenseDeclared p; ExternalRefs := l |}
  else Some p.

Definition zero_Document : Document :=
  {| SPDXVersion := ""; DocSPDXID := ""; Packages := None |}.

Definition Document_set_field (d : Document) (key : string) (v : json)
  : option Document :=
  if key_matches "spdxVersion" key then
    s ← into_string (SPDXVersion d) v;
    Some {| SPDXVersion := s; DocSPDXID := DocSPDXID d; Packages := Packages d |}
  else if key_matches "SPDXID" key then
    s ← into_string (DocSPDXID d) v;
    Some {| SPDXVersion := SPDXVersion d; DocSPDXID := s; Packages := Packages d |}
  else if key_matches "packages" key then
    l ← into_slice (into_struct Package_set_field zero_Package) v;
    Some {| SPDXVersion := SPDXVersion d; DocSPDXID := DocSPDXID d; Packages := l |}
  else Some d.

(** [json.Unmarshal(data, &doc)] after the text has been read. *)
Definition decode_Document (v : json) : option Document :=
  into_struct Document_set_field zero_Document v.

Definition encode_ExternalRef (r : ExternalRef) : json :=
  JObject [("referenceCategory", JString (ReferenceCategory r));
           ("referenceType", JString (ReferenceType r));
           ("referenceLocator", JString (ReferenceLocator r))].

Definition encode_Package (p : Package) : json :=
  JObject [("SPDXID", JString (SPDXID p));
           ("name", JString (Name p));
           ("versionInfo", JString (VersionInfo p));
           ("homepage", JString (Homepage p));
           ("licenseConcluded", JString (LicenseConcluded p));
           ("licenseDeclared", JString (LicenseDeclared p));
           ("externalRefs", of_slice encode_ExternalRef (ExternalRefs p))].

(** [json.Marshal(doc)], before the tree is written out as text. *)
Definition encode_Document (d : Document) : json :=
  JObject [("spdxVersion", JString (SPDXVersion d));
           ("SPDXID", JString (DocSPDXID d));
           ("packages", of_slice encode_Package (Packages d))].

End spdx.

(** *** CycloneDX *)

Module cyclonedx.

Record ExternalReference : Type := {
  URL : string;
  RefType : string
}.

Record LicenseText : Type := {
  Content : string
}.

Record License : Type := {
  ID : string;
  LicenseName : string;
  LicenseExpression : string;
  Text : option LicenseText
}.

Record LicenseChoice : Type := {
  ChoiceLicense : option License;  (* [None] is the nil pointer *)
  Expression : string
}.

(** [Licenses] is written with [omitempty], so nil and empty read alike
    everywhere; it is a plain list. *)
Definition Licenses : Type := list LicenseChoice.

Record Component : Type := {
  BOMRef : string;
  Name : string;
  Version : string;
  Purl : string;
  ComponentLicenses : Licenses;
  ExternalReferences : slice ExternalReference
}.

(** [Components] is written with [omitempty] as well. *)
Record BOM : Type := {
  BOMFormat : string;
  SpecVersion : string;
  Components : list Component
}.

Definition GetCycloneDXComponentPurl (component : Component) : string :=
  Purl component.

(** The test [HasComponentLicense] makes on one element of the loop. *)
Definition choice_has_value (choice : LicenseChoice) : bool :=
  if negb (String.eqb (Expression choice) "") then true
  else
    match ChoiceLicense choice with
    | Some l =>
        negb (String.eqb (ID l) "")
        || negb (String.eqb (LicenseName l) "")
        || negb (String.eqb (LicenseExpression l) "")
    | None => false
    end.

Fixpoint any_choice_has_value (choices : list LicenseChoice) : bool :=
  match choices with
  | [] => false
  | choice :: rest =>
      if choice_has_value choice then true else any_choice_has_value rest
  end.

Definition HasComponentLicense (component : Component) : bool :=
  if Nat.eqb (length (ComponentLicenses component)) 0 then false
  else any_choice_has_value (ComponentLicenses component).

Definition Component_GetPurl (c : Component) : string * option error :=
  (GetCycloneDXComponentPurl c, None).

Definition Component_HasLicense (c : Component) : bool :=
  HasComponentLicense c.

Definition Component_SetLicense (c : Component) (license : string) : Component :=
  {| BOMRef := BOMRef c;
     Name := Name c;
     Version := Version c;
     Purl := Purl c;
     ComponentLicenses :=
       (ComponentLicenses c
          ++ [{| ChoiceLicense := None; Expression := license |}])%list;
     ExternalReferences := ExternalReferences c |}.

Definition Component_GetLogID (c : Component) : string := BOMRef c.

#[global] Instance Component_item : enrichableItem Component := {|
  GetPurl := Component_GetPurl;
  HasLicense := Component_HasLicense;
  SetLicense := Component_SetLicense;
  GetLogID := Component_GetLogID
|}.

(** **** Decoding and encoding *)

Definition zero_ExternalReference : ExternalReference :=
  {| URL := ""; RefType := "" |}.

Definition ExternalReference_set_field (r : ExternalReference) (key : string)
    (v : json) : option ExternalReference :=
  if key_matches "url" key then
    s ← into_string (URL r) v; Some {| URL := s; RefType := RefType r |}
  else if key_matches "type" key then
    s ← into_string (RefType r) v; Some {| URL := URL r; RefType := s |}
  else Some r.

Definition zero_LicenseText : LicenseText := {| Content := "" |}.

Definition LicenseText_set_field (t : LicenseText) (key : string) (v : json)
  : option LicenseText :=
  if key_matches "content" key then
    s ← into_string (Content t) v; Some {| Content := s |}
  else Some t.

Definition zero_License : License :=
  {| ID := ""; LicenseName := ""; LicenseExpression := ""; Text := None |}.

Definition License_set_field (l : License) (key : string) (v : json)
  : option License :=
  if key_matches "id" key then
    s ← into_string (ID l) v;
    Some {| ID := s; LicenseName := LicenseName l;
            LicenseExpression := LicenseExpression l; Text := Text l |}
  else if key_matches "name" key then
    s ← into_string (LicenseName l) v;
    Some {| ID := ID l; LicenseName := s;
            LicenseExpression := LicenseExpression l; Text := Text l |}
  else if key_matches "expression" key then
    s ← into_string (LicenseExpression l) v;
    Some {| ID := ID l; LicenseName := LicenseName l;
            LicenseExpression := s; Text := Text l |}
  else if key_matches "text" key then
    t ← into_pointer LicenseText_set_field zero_LicenseText v;
    Some {| ID := ID l; LicenseName := LicenseName l;
            LicenseExpression := LicenseExpression l; Text := t |}
  else Some l.

Definition zero_LicenseChoice : LicenseChoice :=
  {| ChoiceLicense := None; Expression := "" |}.

Definition LicenseChoice_set_field (c : LicenseChoice) (key : string) (v : json)
  : option LicenseChoice :=
  if key_matches "license" key then
    l ← into_pointer License_set_field zero_License v;
    Some {| ChoiceLicense := l; Expression := Expression c |}
  else if key_matches "expression" key then
    s ← into_string (Expression c) v;
    Some {| ChoiceLicense := ChoiceLicense c; Expression := s |}
  else Some c.

Definition zero_Component : Component :=
  {| BOMRef := ""; Name := ""; Version := ""; Purl := "";
     ComponentLicenses := []; ExternalReferences := None |}.

Definition Component_set_field (c : Component) (key : string) (v : json)
  : option Component :=
  if key_matches "bom-ref" key then
    s ← into_string (BOMRef c) v;
    Some {| BOMRef := s; Name := Name c; Version := Version c; Purl := Purl c;
            ComponentLicenses := ComponentLicenses c;
            ExternalReferences := ExternalReferences c |}
  else if key_matches "name" key then
    s ← into_string (Name c) v;
    Some {| BOMRef := BOMRef c; Name := s; Version := Version c; Purl := Purl c;
            ComponentLicenses := ComponentLicenses c;
            ExternalReferences := ExternalReferences c |}
  else if key_matches "version" key then
    s ← into_string (Version c) v;
    Some {| BOMRef := BOMRef c; Name := Name c; Version := s; Purl := Purl c;
            ComponentLicenses := ComponentLicenses c;
            ExternalReferences := ExternalReferences c |}
  else if key_matches "purl" key then
    s ← into_string (Purl c) v;
    Some {| BOMRef := BOMRef c; Name := Name c; Version := Version c; Purl := s;
            ComponentLicenses := ComponentLicenses c;
            ExternalReferences := ExternalReferences c |}
  else if key_matches "licenses" key then
    l ← into_slice (into_struct LicenseChoice_set_field zero_LicenseChoice) v;
    Some {| BOMRef := BOMRef c; Name := Name c; Version := Version c;
            Purl := Purl c; ComponentLicenses := elems l;
            ExternalReferences := ExternalReferences c |}
  else if key_matches "externalReferences" key then
    l ← into_slice
          (into_struct ExternalReference_set_field zero_ExternalReference) v;
    Some {| BOMRef := BOMRef c; Name := Name c; Version := Version c;
            Purl := Purl c; ComponentLicenses := ComponentLicenses c;
            ExternalReferences := l |}
  else Some c.

Definition zero_BOM : BOM :=
  {| BOMFormat := ""; SpecVersion := ""; Components := [] |}.

Definition BOM_set_field (b : BOM) (key : string) (v : json) : option BOM :=
  if key_matches "bomFormat" key then
    s ← into_string (BOMFormat b) v;
    Some {| BOMFormat := s; SpecVersion := SpecVersion b; Components := Components b |}
  else if key_matches "specVersion" key then
    s ← into_string (SpecVersion b) v;
    Some {| BOMFormat := BOMFormat b; SpecVersion := s; Components := Components b |}
  else if key_matches "components" key then
    l ← into_slice (into_struct Component_set_field zero_Component) v;
    Some {| BOMFormat := BOMFormat b; SpecVersion := SpecVersion b;
            Components := elems l |}
  else Some b.

Definition decode_BOM (v : json) : option BOM :=
  into_struct BOM_set_field zero_BOM v.

(** A member written with [omitempty]. *)
Definition omitempty (is_empty : bool) (key : string) (v : json)
  : list (string * json) :=
  if is_empty then [] else [(key, v)].

Definition encode_ExternalReference (r : ExternalReference) : json :=
  JObject [("url", JString (URL r)); ("type", JString (RefType r))].

Definition encode_LicenseText (t : LicenseText) : json :=
  JObject [("content", JString (Content t))].

Definition encode_License (l : License) : json :=
  JObject (omitempty (String.eqb (ID l) "") "id" (JString (ID l))
           ++ omitempty (String.eqb (LicenseName l) "") "name" (JString (LicenseName l))
           ++ omitempty (String.eqb (LicenseExpression l) "") "expression"
                (JString (LicenseExpression l))
           ++ match Text l with
              | Some t => [("text", encode_LicenseText t)]
              | None => []
              end)%list.

Definition encode_LicenseChoice (c : LicenseChoice) : json :=
  JObject (match ChoiceLicense c with
           | Some l => [("license", encode_License l)]
           | None => []
           end
           ++ omitempty (String.eqb (Expression c) "") "expression"
                (JString (Expression c)))%list.

Definition encode_Component (c : Component) : json :=
  JObject ([("bom-ref", JString (BOMRef c));
            ("name", JString (Name c));
            ("version", JString (Version c));
            ("purl", JString (Purl c))]
           ++ omitempty (Nat.eqb (length (ComponentLicenses c)) 0) "licenses"
                (JArray (encode_LicenseChoice <$> ComponentLicenses c))
           ++ [("externalReferences",
                of_slice encode_ExternalReference (ExternalReferences c))])%list.

Definition encode_BOM (b : BOM) : json :=
  JObject ([("bomFormat", JString (BOMFormat b));
            ("specVersion", JString (SpecVersion b))]
           ++ omitempty (Nat.eqb (length (Components b)) 0) "components"
                (JArray (encode_Component <$> Components b)))%list.

End cyclonedx.

(** ** Package enricher: the worker pool *)

Module enricher.

Inductive result (A : Type) : Type :=
  | Ok (a : A)
  | Err (e : error).
Global Arguments Ok {A} a.
Global Arguments Err {A} e.

(** [job]: the item is the index of its slot. *)
Record job : Type := {
  job_item : nat;
  job_purl : string
}.

(** The two error records the pool writes to the logger. *)
Inductive log_record : Type :=
  | LogPurlError (id : string) (err : error)
  | LogLicenseError (purl id : string) (err : error).

(** Where a worker goroutine stands: at the receive of [for j := range
    jobs], holding a job before [HasLicense], inside [provider.Get] with
    the rest of the lookup to run, or returned. *)
Inductive worker {CS PS : Type} : Type :=
  | Receiving
  | Checking (j : job)
  | Looking (j : job) (p : provider.prog CS PS (string * option error))
  | Exited.
Global Arguments worker : clear implicits.

(** Where the calling goroutine stands: in the queueing loop at an index,
    in [wg.Wait] after [close(jobs)], or returned. *)
Inductive caller : Type :=
  | Queueing (next : nat)
  | Waiting
  | Returned.

Inductive thread : Type :=
  | Main
  | Worker (w : nat).

Section Pool.

Context {T : Type} `{enrichableItem T} {CS PS : Type}.

Record state : Type := {
  items : list T;                 (* the slots the item pointers name *)
  jobs : list job;                (* content of the buffered channel *)
  workers : list (worker CS PS);
  main : caller;
  env : provider.world CS PS;
  logged : list log_record
}.

Variable prov : provider.Provider PS.
Variable cacheInstance : option (provider.Cache CS).
Variable cacheTTL : Duration.

Definition lookup_of (j : job) : provider.prog CS PS (string * option error) :=
  provider.Get {| provider.Purl := job_purl j;
                  provider.GetProvider := prov;
                  provider.GetCache := cacheInstance;
                  provider.CacheTTL := cacheTTL |}.

Definition is_closed (s : state) : bool :=
  match main s with
  | Queueing _ => false
  | Waiting | Returned => true
  end.

Definition set_worker (s : state) (w : nat) (x : worker CS PS) : state :=
  {| items := items s; jobs := jobs s; workers := <[w := x]> (workers s);
     main := main s; env := env s; logged := logged s |}.

(** One step of worker [w]; [None] when it is blocked or has returned. *)
Definition worker_step (w : nat) (s : state) : option state :=
  match workers s !! w with
  | None => None
  | Some Receiving =>
      match jobs s with
      | j :: rest =>
          Some {| items := items s; jobs := rest;
                  workers := <[w := Checking j]> (workers s);
                  main := main s; env := env s; logged := logged s |}
      | [] =>
          if is_closed s then Some (set_worker s w Exited) else None
      end
  | Some (Checking j) =>
      match items s !! job_item j with
      | None => None
      | Some item =>
          if HasLicense item then Some (set_worker s w Receiving)
          else Some (set_worker s w (Looking j (lookup_of j)))
      end
  | Some (Looking j (provider.Ret (lic, licErr))) =>
      match items s !! job_item j with
      | None => None
      | Some item =>
          match licErr with
          | Some e =>
              Some {| items := items s; jobs := jobs s;
                      workers := <[w := Receiving]> (workers s);
                      main := main s; env := env s;
                      logged := logged s
                                ++ [LogLicenseError (job_purl j) (GetLogID item) e] |}
          | None =>
              if negb (String.eqb lic "") then
                Some {| items := <[job_item j := SetLicense item lic]> (items s);
                        jobs := jobs s;
                        workers := <[w := Receiving]> (workers s);
                        main := main s; env := env s; logged := logged s |}
              else Some (set_worker s w Receiving)
          end
      end
  | Some (Looking j p) =>
      let '(p', e') := provider.prog_step p (env s) in
      Some {| items := items s; jobs := jobs s;
              workers := <[w := Looking j p']> (workers s);
              main := main s; env := e'; logged := logged s |}
  | Some Exited => None
  end.

Definition all_exited (ws : list (worker CS PS)) : bool :=
  forallb (fun x => match x with Exited => true | _ => false end) ws.

(** One step of the calling goroutine. *)
Definition main_step (s : state) : option state :=
  match main s with
  | Queueing i =>
      match items s !! i with
      | Some item =>
          let '(purl, purlErr) := GetPurl item in
          match purlErr with
          | Some e =>
              Some {| items := items s; jobs := jobs s; workers := workers s;
                      main := Queueing (S i); env := env s;
                      logged := logged s ++ [LogPurlError (GetLogID item) e] |}
          | None =>
              Some {| items := items s;
                      jobs := jobs s ++ [{| job_item := i; job_purl := purl |}];
                      workers := workers s;
                      main := Queueing (S i); env := env s; logged := logged s |}
          end
      | None =>
          Some {| items := items s; jobs := jobs s; workers := workers s;
                  main := Waiting; env := env s; logged := logged s |}
      end
  | Waiting =>
      if all_exited (workers s) then
        Some {| items := items s; jobs := jobs s; workers := workers s;
                main := Returned; env := env s; logged := logged s |}
      else None
  | Returned => None
  end.

Definition step (t : thread) (s : state) : option state :=
  match t with
  | Main => main_step s
  | Worker w => worker_step w s
  end.

(** A schedule names the goroutine that moves next; a goroutine that
    cannot move is passed over. *)
Fixpoint exec (sched : list thread) (s : state) : state :=
  match sched with
  | [] => s
  | t :: rest =>
      match step t s with
      | Some s' => exec rest s'
      | None => exec rest s
      end
  end.

Definition start (its : list T) (parallelism : Z) (e : provider.world CS PS)
  : state :=
  {| items := its; jobs := [];
     workers := replicate (Z.to_nat parallelism) Receiving;
     main := Queueing 0; env := e; logged := [] |}.

(** [processItemsParallel] under a schedule: the state in which the call
    returns and the error it returns, or [None] when the schedule ends
    before the call has returned. *)
Definition processItemsParallel (sched : list thread) (its : list T)
    (parallelism : Z) (e : provider.world CS PS) : option (state * option error) :=
  let s := exec sched (start its parallelism e) in
  match main s with
  | Returned => Some (s, None)
  | _ => None
  end.

(** A schedule that runs any pool to its end: the caller queues
    everything and closes, worker 0 drains the queue, every worker
    leaves, the caller returns. *)
Definition sequential_schedule (n : nat) (parallelism : Z) : list thread :=
  (replicate (S n) Main
   ++ replicate (6 * n + 1) (Worker 0)
   ++ (Worker <$> seq 0 (Z.to_nat parallelism))
   ++ [Main])%list.

(** **** Invariants of the pool *)

(** Worker state [x] holds a job for slot [i]. *)
Definition holds (i : nat) (x : worker CS PS) : Prop :=
  match x with
  | Checking j | Looking j _ => job_item j = i
  | Receiving | Exited => False
  end.

(** The queueing loop is past slot [i]. *)
Definition passed (i : nat) (s : state) : Prop :=
  match main s with
  | Queueing k => (i < k)%nat
  | Waiting | Returned => True
  end.

(** No queued job is for slot [i], and a worker that holds one is the
    worker [ow]. *)
Definition clear_except (ow : option nat) (i : nat) (s : state) : Prop :=
  (forall j, j ∈ jobs s -> job_item j ≠ i)
  /\ (forall w x, workers s !! w = Some x -> holds i x -> ow = Some w).

Definition job_for (i : nat) (p : string) : job :=
  {| job_item := i; job_purl := p |}.

(** What the run has done by state [s] with slot [i], which held [it]
    at the start: not reached by the queueing loop; skipped for want of a
    purl, with the error logged; queued; taken by a worker that has not
    yet looked at it; left alone because it has a license; inside the
    lookup, whose calls so far are [made]; or through the lookup, whose
    calls [evs] and result decide what was written and logged. *)
Inductive phase (i : nat) (it : T) (s : state) : Prop :=
  | Pending k :
      main s = Queueing k -> (k <= i)%nat ->
      items s !! i = Some it -> clear_except None i s ->
      phase i it s
  | NoPurl p e :
      GetPurl it = (p, Some e) ->
      items s !! i = Some it ->
      LogPurlError (GetLogID it) e ∈ logged s ->
      passed i s -> clear_except None i s ->
      phase i it s
  | Queued p pre post :
      GetPurl it = (p, None) ->
      jobs s = (pre ++ job_for i p :: post)%list ->
      (forall j, j ∈ (pre ++ post)%list -> job_item j ≠ i) ->
      (forall w x, workers s !! w = Some x -> ~ holds i x) ->
      passed i s -> items s !! i = Some it ->
      phase i it s
  | AtCheck p w :
      GetPurl it = (p, None) ->
      workers s !! w = Some (Checking (job_for i p)) ->
      clear_except (Some w) i s ->
      passed i s -> items s !! i = Some it ->
      phase i it s
  | Licensed p :
      GetPurl it = (p, None) -> HasLicense it = true ->
      items s !! i = Some it ->
      passed i s -> clear_except None i s ->
      phase i it s
  | InLookup p w q made :
      GetPurl it = (p, None) -> HasLicense it = false ->
      workers s !! w = Some (Looking (job_for i p) q) ->
      (forall evs r, provider.yields q evs r ->
                     provider.yields (lookup_of (job_for i p)) (made ++ evs)%list r) ->
      sublist made (provider.calls (env s)) ->
      clear_except (Some w) i s ->
      passed i s -> items s !! i = Some it ->
      phase i it s
  | Finished p evs lic licErr :
      GetPurl it = (p, None) -> HasLicense it = false ->
      provider.yields (lookup_of (job_for i p)) evs (lic, licErr) ->
      sublist evs (provider.calls (env s)) ->
      passed i s -> clear_except None i s ->
      match licErr with
      | Some e =>
          items s !! i = Some it
          /\ LogLicenseError p (GetLogID it) e ∈ logged s
      | None =>
          items s !! i = Some (if String.eqb lic "" then it else SetLicense it lic)
      end ->
      phase i it s.

(** The jobs in the queue and in the hands of the workers name slots
    that exist. *)
Definition jobs_in_range (s : state) : Prop :=
  (forall j, j ∈ jobs s -> (job_item j < length (items s))%nat)
  /\ (forall w x i, workers s !! w = Some x -> holds i x ->
                    (i < length (items s))%nat).

(** A worker leaves only when the channel is closed and empty, and the
    caller returns only when every worker has left. *)
Definition shutdown_ok (s : state) : Prop :=
  (forall w, workers s !! w = Some Exited -> jobs s = [] /\ is_closed s = true)
  /\ (main s = Returned -> all_exited (workers s) = true).

(** An upper bound on the steps a worker state still has before it is
    back at the receive (and one more to leave). *)
Definition worker_weight (x : worker CS PS) (n : nat) : Prop :=
  match x with
  | Exited => n = 0%nat
  | Receiving => n = 1%nat
  | Checking _ => n = 6%nat
  | Looking _ q => exists d, provider.calls_le q d /\ (d <= 3)%nat /\ n = (d + 2)%nat
  end.

Definition caller_weight (len : nat) (m : caller) : nat :=
  match m with
  | Queueing k => 7 * (len - k) + 2
  | Waiting => 1
  | Returned => 0
  end.

(** [potential s n]: no run from [s] has more than [n] steps. *)
Definition potential (s : state) (n : nat) : Prop :=
  exists ws,
    Forall2 worker_weight (workers s) ws
    /\ n = (caller_weight (length (items s)) (main s)
            + 6 * length (jobs s) + sum_list ws)%nat.

(** The number of steps a schedule takes from a state. *)
Fixpoint steps_taken (sched : list thread) (s : state) : nat :=
  match sched with
  | [] => 0
  | t :: rest =>
      match step t s with
      | Some s' => S (steps_taken rest s')
      | None => steps_taken rest s
      end
  end.

End Pool.

Global Arguments state : clear implicits.

(** *** The common enrichment flow *)

Section Enrich.

(** The text layer of [encoding/json]: reading a byte sequence as a JSON
    value ([None] for a text that is not JSON) and writing a value out.
    Writing the structs of this program never fails. *)
Context {bytes : Type}.
Variable json_read : bytes -> option json.
Variable json_write : json -> bytes.

Context {CS PS : Type}.

Record Options : Type := {
  SBOM : bytes;
  Parallelism : Z
}.

(** The worker count [enrichDocument] settles on. *)
Definition clamp (parallelism : Z) : Z :=
  if (parallelism <=? 0)%Z then 1%Z else parallelism.

(** [enrichDocument].  The items are the slots of [doc] that the item
    pointers name, so [marshalFn] is given the slots as the workers left
    them in addition to the document they belong to.  The result is
    [None] when the schedule ends before the pool has returned. *)
Definition enrichDocument {T D : Type} `{enrichableItem T}
    (sched : list thread) (e : provider.world CS PS)
    (opts : Options) (doc : D) (its : list T)
    (prov : provider.Provider PS) (cacheInstance : option (provider.Cache CS))
    (cacheTTL : Duration)
    (marshalFn : D -> list T -> result bytes)
  : option (result bytes * provider.world CS PS * list log_record) :=
  if Nat.eqb (length its) 0 then Some (Ok (SBOM opts), e, [])
  else
    let parallelism := clamp (Parallelism opts) in
    match processItemsParallel prov cacheInstance cacheTTL sched its parallelism e with
    | None => None
    | Some (s, Some err) => Some (Err err, env s, logged s)
    | Some (s, None) => Some (marshalFn doc (items s), env s, logged s)
    end.

(** **** SPDX *)

(** [UnwrapGitHubSBOM], returning the JSON value of the bytes it
    returns: the text must be an object or [null]; the value of a member
    [sbom], whatever it is, replaces the document. *)
Definition UnwrapGitHubSBOM (data : bytes) : result json :=
  match json_read data with
  | None => Err (WrapError "failed to parse JSON" (ErrorString "syntax error"))
  | Some (JObject wrapper) =>
      match member "sbom" wrapper with
      | Some sbomData => Ok sbomData
      | None => Ok (JObject wrapper)
      end
  | Some JNull => Ok JNull
  | Some _ => Err (WrapError "failed to parse JSON" (ErrorString "type error"))
  end.

Definition ParseSBOMFile (sbom : bytes) : result spdx.Document :=
  match UnwrapGitHubSBOM sbom with
  | Err err => Err (WrapError "failed to unwrap GitHub SBOM" err)
  | Ok unwrapped =>
      match spdx.decode_Document unwrapped with
      | None => Err (WrapError "failed to parse SBOM JSON" (ErrorString "type error"))
      | Some doc => Ok doc
      end
  end.

Definition marshal_Document (d : spdx.Document) (pkgs : list spdx.Package)
  : result bytes :=
  Ok (json_write
        (spdx.encode_Document
           {| spdx.SPDXVersion := spdx.SPDXVersion d;
              spdx.DocSPDXID := spdx.DocSPDXID d;
              spdx.Packages := Some pkgs |})).

Definition SPDXEnricher_Enrich (prov : provider.Provider PS)
    (cacheInstance : option (provider.Cache CS)) (cacheTTL : Duration)
    (sched : list thread) (e : provider.world CS PS) (opts : Options)
  : option (result bytes * provider.world CS PS * list log_record) :=
  match ParseSBOMFile (SBOM opts) with
  | Err err => Some (Err (WrapError "failed to parse SBOM file" err), e, [])
  | Ok doc =>
      enrichDocument sched e opts doc (elems (spdx.Packages doc))
        prov cacheInstance cacheTTL marshal_Document
  end.

(** **** CycloneDX *)

Definition ParseCycloneDXFile (data : bytes) : result cyclonedx.BOM :=
  match json_read data ≫= cyclonedx.decode_BOM with
  | None => Err (WrapError "failed to parse CycloneDX JSON" (ErrorString "syntax or type error"))
  | Some bom => Ok bom
  end.

Definition marshal_BOM (b : cyclonedx.BOM) (components : list cyclonedx.Component)
  : result bytes :=
  Ok (json_write
        (cyclonedx.encode_BOM
           {| cyclonedx.BOMFormat := cyclonedx.BOMFormat b;
              cyclonedx.SpecVersion := cyclonedx.SpecVersion b;
              cyclonedx.Components := components |})).

Definition CycloneDXEnricher_Enrich (prov : provider.Provider PS)
    (cacheInstance : option (provider.Cache CS)) (cacheTTL : Duration)
    (sched : list thread) (e : provider.world CS PS) (opts : Options)
  : option (result bytes * provider.world CS PS * list log_record) :=
  match ParseCycloneDXFile (SBOM opts) with
  | Err err => Some (Err (WrapError "failed to parse SBOM file" err), e, [])
  | Ok bom =>
      enrichDocument sched e opts bom (cyclonedx.Components bom)
        prov cacheInstance cacheTTL marshal_BOM
  end.

End Enrich.

Global Arguments Options : clear implicits.

End enricher.

(** ** Package sbom: format detection *)

Module sbom.

Section Detect.

Context {bytes : Type}.
Variable json_read : bytes -> option json.

Definition as_string (v : option json) : option string :=
  match v with
  | Some (JString s) => Some s
  | _ => None
  end.

(** The rules of [DetectFormat] on the members of the working object. *)
Definition detect_members (raw : list (string * json)) : string * option error :=
  match as_string (member "spdxVersion" raw) with
  | Some spdxVersion => (spdxVersion, None)
  | None =>
      match as_string (member "SPDXID" raw) with
      | Some (String c rest) => ("SPDX-2.3", None)
      | _ =>
          match as_string (member "bomFormat" raw) with
          | Some bomFormat =>
              if String.eqb bomFormat "CycloneDX" then
                match as_string (member "specVersion" raw) with
                | Some specVersion => ("CycloneDX-" ++ specVersion, None)
                | None => ("CycloneDX-1.4", None)
                end
              else ("", Some (ErrorString "unknown SBOM format"))
          | None => ("", Some (ErrorString "unknown SBOM format"))
          end
      end
  end.

Definition DetectFormat (data : bytes) : string * option error :=
  match json_read data with
  | None => ("", Some (WrapError "invalid JSON" (ErrorString "syntax error")))
  | Some (JObject raw) =>
      match member "sbom" raw with
      | Some (JObject sbomMap) => detect_members sbomMap
      | _ => detect_members raw
      end
  | Some JNull => detect_members []
  | Some _ => ("", Some (WrapError "invalid JSON" (ErrorString "type error")))
  end.

End Detect.

End sbom.

(** ** Concrete collaborators

    Implementations of the two interfaces used to evaluate the engine: the
    two cache backends read at a fixed clock, and providers that answer
    every purl alike. *)

Module fixtures.

Definition memory_cache (now : Time) : provider.Cache MemoryCache.t :=
  {| provider.Cache_Get := fun c key => (MemoryCache.Get now c key, c);
     provider.Cache_SetWithTTL := MemoryCache.SetWithTTL now |}.

Definition bbolt_cache (now : Time) : provider.Cache BboltCache.t :=
  {| provider.Cache_Get := fun c key => (BboltCache.Get now c key, c);
     provider.Cache_SetWithTTL := BboltCache.SetWithTTL now |}.

(** A provider that answers every purl with [res] and counts its calls. *)
Definition answering (res : string * option error) : provider.Provider nat :=
  {| provider.Provider_Get := fun n _ => (res, S n) |}.

Definition fresh_world {CS : Type} (c : CS) : provider.world CS nat :=
  {| provider.cache_st := c; provider.provider_st := 0%nat; provider.calls := [] |}.

(** The text layer used for evaluation: a document is given as its JSON
    value, and is written out as that value. *)
Definition read_tree (v : json) : option json := Some v.
Definition write_tree (v : json) : json := v.

Definition options (tree : json) (parallelism : Z) : enricher.Options json :=
  {| enricher.SBOM := tree; enricher.Parallelism := parallelism |}.

Definition express_ref : spdx.ExternalRef :=
  {| spdx.ReferenceCategory := "PACKAGE-MANAGER";
     spdx.ReferenceType := "purl";
     spdx.ReferenceLocator := "pkg:npm/express@4.17.1" |}.

Definition apache_package : spdx.Package :=
  {| spdx.SPDXID := "SPDXRef-Package-express"; spdx.Name := "express";
     spdx.VersionInfo := "4.17.1"; spdx.Homepage := "";
     spdx.LicenseConcluded := "Apache-2.0"; spdx.LicenseDeclared := "";
     spdx.ExternalRefs := Some [express_ref] |}.

Definition bare_package : spdx.Package :=
  {| spdx.SPDXID := "SPDXRef-Package-express"; spdx.Name := "express";
     spdx.VersionInfo := "4.17.1"; spdx.Homepage := "";
     spdx.LicenseConcluded := ""; spdx.LicenseDeclared := "NOASSERTION";
     spdx.ExternalRefs := Some [express_ref] |}.

Definition no_purl_package : spdx.Package :=
  {| spdx.SPDXID := "SPDXRef-Package-local"; spdx.Name := "local";
     spdx.VersionInfo := ""; spdx.Homepage := "";
     spdx.LicenseConcluded := ""; spdx.LicenseDeclared := "";
     spdx.ExternalRefs := None |}.

Definition spdx_tree (extra : list (string * json)) (pkgs : list spdx.Package) : json :=
  JObject ([("spdxVersion", JString "SPDX-2.3");
            ("SPDXID", JString "SPDXRef-DOCUMENT")]
           ++ extra
           ++ [("packages", JArray (spdx.encode_Package <$> pkgs))])%list.

Definition lodash : cyclonedx.Component :=
  {| cyclonedx.BOMRef := "lodash"; cyclonedx.Name := "lodash";
     cyclonedx.Version := "4.17.21"; cyclonedx.Purl := "pkg:npm/lodash@4.17.21";
     cyclonedx.ComponentLicenses := [];
     cyclonedx.ExternalReferences := None |}.


Definition bom_tree (extra : list (string * json)) (cs : list cyclonedx.Component) : json :=
  JObject ([("bomFormat", JString "CycloneDX");
            ("specVersion", JString "1.5")]
           ++ extra
           ++ [("components", JArray (cyclonedx.encode_Component <$> cs))])%list.

End fixtures.

(** ** Notions of the specification *)

Module spec.

(** A meaningful license field: non-empty and neither sentinel token. *)
Definition meaningful (field : string) : Prop :=
  field ≠ "" /\ field ≠ "NONE" /\ field ≠ "NOASSERTION".

(** A license choice that carries a license: a non-empty expression, or a
    nested license object with a non-empty id, name or expression. *)
Definition carries_license (choice : cyclonedx.LicenseChoice) : Prop :=
  cyclonedx.Expression choice ≠ ""
  \/ exists l, cyclonedx.ChoiceLicense choice = Some l
               /\ (cyclonedx.ID l ≠ "" \/ cyclonedx.LicenseName l ≠ ""
                   \/ cyclonedx.LicenseExpression l ≠ "").

(** The lookup answered not-found. *)
Definition NotFound (r : string * option error) : Prop :=
  exists e, r.2 = Some e /\ errors_Is e LicenseNotFound = true.


End spec.

(** ** Reading a JSON tree

    The members of a written or read document that the properties name. *)

Module tree.

Definition members (v : json) : list (string * json) :=
  match v with
  | JObject m => m
  | _ => []
  end.

Definition elements (v : option json) : list json :=
  match v with
  | Some (JArray l) => l
  | _ => []
  end.

(** The member of an object with exactly that key. *)
Definition field (key : string) (v : json) : option json :=
  member key (members v).

(** The package objects of an SPDX document, in order. *)
Definition packages (doc : json) : list json :=
  elements (field "packages" doc).

(** The component objects of a CycloneDX document, in order. *)
Definition components (bom : json) : list json :=
  elements (field "components" bom).

End tree.

(** ** Package cache: the interface *)

Module cache.

(** [cache.Cache]: the four methods every backend implements.  The clock
    reading of a call is an argument of the two methods that read it. *)
Class Cache (C : Type) : Type := {
  Get : Time -> C -> string -> string * option error;
  SetWithTTL : Time -> C -> string -> string -> Duration -> option error * C;
  Delete : C -> string -> option error * C;
  Close : C -> option error * C
}.

#[global] Instance MemoryCache_Cache : Cache MemoryCache.t := {|
  Get := MemoryCache.Get;
  SetWithTTL := MemoryCache.SetWithTTL;
  Delete := MemoryCache.Delete;
  Close := MemoryCache.Close
|}.

#[global] Instance BboltCache_Cache : Cache BboltCache.t := {|
  Get := BboltCache.Get;
  SetWithTTL := BboltCache.SetWithTTL;
  Delete := BboltCache.Delete;
  Close := BboltCache.Close
|}.

(** One method call on a cache value, made at a clock reading. *)
Inductive call : Type :=
  | CallGet (now : Time) (key : string)
  | CallSetWithTTL (now : Time) (key val : string) (ttl : Duration)
  | CallDelete (key : string)
  | CallClose.

(** What a call returns: the pair of [Get], or the error of the others. *)
Inductive answer : Type :=
  | Got (res : string * option error)
  | Done (err : option error).

Definition perform {C : Type} `{Cache C} (c : C) (x : call) : answer * C :=
  match x with
  | CallGet now key => (Got (Get now c key), c)
  | CallSetWithTTL now key val ttl =>
      let '(err, c') := SetWithTTL now c key val ttl in (Done err, c')
  | CallDelete key => let '(err, c') := Delete c key in (Done err, c')
  | CallClose => let '(err, c') := Close c in (Done err, c')
  end.

(** A sequence of calls on one cache value, each on the cache as the calls
    before it left it. *)
Fixpoint perform_all {C : Type} `{Cache C} (c : C) (xs : list call)
  : list answer * C :=
  match xs with
  | [] => ([], c)
  | x :: rest =>
      let '(a, c') := perform c x in
      let '(answers, c'') := perform_all c' rest in
      (a :: answers, c'')
  end.

(** The keys the embedded store accepts in [Put]. *)
Definition storable (key : string) : Prop :=
  key ≠ "" /\ (Z.of_nat (String.length key) <= BboltCache.MaxKeySize)%Z.

(** What a closed cache answers to a call. *)
Definition refused (x : call) : answer :=
  match x with
  | CallGet _ _ => Got ("", Some ErrCacheClosed)
  | CallSetWithTTL _ _ _ _ | CallDelete _ => Done (Some ErrCacheClosed)
  | CallClose => Done None
  end.

(** The keys a call writes. *)
Definition written_key (x : call) : option string :=
  match x with
  | CallSetWithTTL _ key _ _ => Some key
  | _ => None
  end.

(** The record the durable backend stores for an entry of the volatile
    one. *)
Definition stored_of (e : MemoryCache.cacheEntry) : BboltCache.stored :=
  BboltCache.Encoded {| BboltCache.Value := MemoryCache.value e;
                        BboltCache.Expiration := MemoryCache.expiration e |}.

(** A volatile and a durable cache that are both closed, or both open
    with the same entries. *)
Definition same_entries (c : MemoryCache.t) (b : BboltCache.t) : Prop :=
  MemoryCache.closed c = BboltCache.closed b
  /\ (MemoryCache.closed c = false ->
      BboltCache.bucket (BboltCache.db b) = Some (stored_of <$> MemoryCache.cache c)).

(** The error of the durable backend for a database without the bucket. *)
Definition bucket_not_found (a : answer) : Prop :=
  a = Got ("", Some (ErrorString "bucket not found"))
  \/ a = Done (Some (ErrorString "bucket not found")).

End cache.

(** ** Accounting for the calls of a run *)

Module budget.

Section Items.

Context {T : Type} `{enrichableItem T}.

(** An item the pool looks up: its purl can be extracted and it has no
    license. *)
Definition candidate (it : T) : bool :=
  match GetPurl it with
  | (_, None) => negb (HasLicense it)
  | (_, Some _) => false
  end.

Definition candidates (its : list T) : nat :=
  length (List.filter candidate its).

End Items.

Section Calls.

Context {T : Type} `{enrichableItem T} {CS PS : Type}.

(** The kind of call that is counted, and the number of such calls one
    lookup is allowed. *)
Variable P : provider.event -> bool.
Variable b : nat.

Definition count (evs : list provider.event) : nat :=
  length (List.filter P evs).

(** [makes_le q d]: whatever the answers, [q] makes at most [d] calls of
    the kind [P].  A call is free when no answer makes it one of the
    kind. *)
Inductive makes_le {R : Type} : provider.prog CS PS R -> nat -> Prop :=
  | makes_Ret r d : makes_le (provider.Ret r) d
  | makes_CacheGet c key k d :
      (forall res, makes_le (k res) d) ->
      makes_le (provider.CallCacheGet c key k) (S d)
  | makes_CacheGet_free c key k d :
      (forall res, P (provider.EvCacheGet key res) = false) ->
      (forall res, makes_le (k res) d) ->
      makes_le (provider.CallCacheGet c key k) d
  | makes_ProviderGet p purl k d :
      (forall res, makes_le (k res) d) ->
      makes_le (provider.CallProviderGet p purl k) (S d)
  | makes_ProviderGet_free p purl k d :
      (forall res, P (provider.EvProviderGet purl res) = false) ->
      (forall res, makes_le (k res) d) ->
      makes_le (provider.CallProviderGet p purl k) d
  | makes_CacheSetWithTTL c key val ttl k d :
      (forall res, makes_le (k res) d) ->
      makes_le (provider.CallCacheSetWithTTL c key val ttl k) (S d)
  | makes_CacheSetWithTTL_free c key val ttl k d :
      (forall res, P (provider.EvCacheSetWithTTL key val ttl res) = false) ->
      (forall res, makes_le (k res) d) ->
      makes_le (provider.CallCacheSetWithTTL c key val ttl k) d.

(** What a job may still cost: a lookup when the item it names has no
    license. *)
Definition job_budget (its : list T) (j : enricher.job) : nat :=
  match its !! enricher.job_item j with
  | Some it => if HasLicense it then 0%nat else b
  | None => 0%nat
  end.

Definition worker_budget (its : list T) (x : enricher.worker CS PS) (n : nat)
  : Prop :=
  match x with
  | enricher.Checking j => n = job_budget its j
  | enricher.Looking _ q => makes_le q n /\ (n <= b)%nat
  | enricher.Receiving | enricher.Exited => n = 0%nat
  end.

Definition caller_budget (its : list T) (m : enricher.caller) : nat :=
  match m with
  | enricher.Queueing k => (b * candidates (drop k its))%nat
  | enricher.Waiting | enricher.Returned => 0%nat
  end.

(** [owed its s n]: the calls of the kind made so far and the calls the
    run from [s] can still make are [n] together, for a run that started
    with the items [its]. *)
Definition owed (its : list T) (s : enricher.state T CS PS) (n : nat) : Prop :=
  exists ws,
    Forall2 (worker_budget its) (enricher.workers s) ws
    /\ n = (count (provider.calls (enricher.env s))
            + sum_list (job_budget its <$> enricher.jobs s)
            + sum_list ws
            + caller_budget its (enricher.main s))%nat.

End Calls.

Definition any_call (e : provider.event) : bool := true.

End budget.

(** ** A provider whose answers depend on the purl alone *)

Module pure.

Section Pure.

Context {CS PS : Type}.

(** The answer of the provider for each purl. *)
Variable f : string -> string * option error.

Definition answers (prov : provider.Provider PS) : Prop :=
  forall ps purl, (provider.Provider_Get prov ps purl).1 = f purl.

(** What a cache read may return: a miss, or the license the provider
    gives for the key. *)
Definition read_ok (key : string) (res : string * option error) : Prop :=
  match res with
  | (v, None) => f key = (v, None)
  | (_, Some e) => errors_Is e CacheMiss = true
  end.

(** A cache that, in the states [I], answers a read with a miss or with
    the license of the provider, and accepts the write of a non-empty
    license of the provider. *)
Record coherent (I : CS -> Prop) (c : provider.Cache CS) : Prop := {
  coherent_Get : forall cs key,
    I cs ->
    read_ok key (provider.Cache_Get c cs key).1
    /\ I (provider.Cache_Get c cs key).2;
  coherent_SetWithTTL : forall cs key val ttl,
    I cs -> f key = (val, None) -> val ≠ "" ->
    (provider.Cache_SetWithTTL c cs key val ttl).1 = None
    /\ I (provider.Cache_SetWithTTL c cs key val ttl).2
}.

Definition coherent_cache (I : CS -> Prop)
    (cacheInstance : option (provider.Cache CS)) : Prop :=
  match cacheInstance with
  | Some c => coherent I c
  | None => True
  end.

(** A recorded call whose answer is one such collaborators give. *)
Definition event_ok (ev : provider.event) : Prop :=
  match ev with
  | provider.EvCacheGet key res => read_ok key res
  | provider.EvProviderGet purl res => res = f purl
  | provider.EvCacheSetWithTTL _ _ _ res => res = None
  end.

(** A computation that, given such answers, calls only the provider
    [prov] and the cache [cacheInstance], and writes to the cache only
    non-empty licenses of the provider. *)
Inductive safe (prov : provider.Provider PS)
    (cacheInstance : option (provider.Cache CS))
  : provider.prog CS PS (string * option error) -> Prop :=
  | safe_Ret r : safe prov cacheInstance (provider.Ret r)
  | safe_CacheGet c key k :
      cacheInstance = Some c ->
      (forall res, read_ok key res -> safe prov cacheInstance (k res)) ->
      safe prov cacheInstance (provider.CallCacheGet c key k)
  | safe_ProviderGet purl k :
      safe prov cacheInstance (k (f purl)) ->
      safe prov cacheInstance (provider.CallProviderGet prov purl k)
  | safe_CacheSetWithTTL c key val ttl k :
      cacheInstance = Some c ->
      f key = (val, None) -> val ≠ "" ->
      safe prov cacheInstance (k None) ->
      safe prov cacheInstance (provider.CallCacheSetWithTTL c key val ttl k).

(** What the cache-through lookup of a purl returns with such
    collaborators. *)
Definition lookup_result (purl : string) : string * option error :=
  match f purl with
  | (license, None) => (license, None)
  | (_, Some e) =>
      ("", Some (WrapError "failed to get license from provider" e))
  end.

(** What the run makes of an item. *)
Definition enriched {T : Type} `{enrichableItem T} (it : T) : T :=
  match GetPurl it with
  | (_, Some _) => it
  | (purl, None) =>
      if HasLicense it then it
      else
        match f purl with
        | (license, None) =>
            if String.eqb license "" then it else SetLicense it license
        | (_, Some _) => it
        end
  end.

(** The pool keeps to such collaborators: the cache is in a state of [I],
    every recorded call has an answer they give, and every worker inside
    a lookup runs a safe computation. *)
Definition kept {T : Type} (prov : provider.Provider PS)
    (cacheInstance : option (provider.Cache CS)) (I : CS -> Prop)
    (s : enricher.state T CS PS) : Prop :=
  I (provider.cache_st (enricher.env s))
  /\ Forall event_ok (provider.calls (enricher.env s))
  /\ (forall w j q, enricher.workers s !! w = Some (enricher.Looking j q) ->
                    safe prov cacheInstance q).

End Pure.

(** A provider that answers by a function of the purl. *)
Definition provider_of (f : string -> string * option error)
  : provider.Provider unit :=
  {| provider.Provider_Get := fun ps purl => (f purl, ps) |}.

(** The states of the volatile cache that hold only licenses of the
    provider and are open. *)
Definition memory_ok (f : string -> string * option error) (c : MemoryCache.t)
  : Prop :=
  MemoryCache.closed c = false
  /\ forall key entry,
       MemoryCache.cache c !! key = Some entry ->
       f key = (MemoryCache.value entry, None).

(** The states of the durable cache that are open, have the bucket, and
    hold only licenses of the provider. *)
Definition bbolt_ok (f : string -> string * option error) (c : BboltCache.t)
  : Prop :=
  BboltCache.closed c = false
  /\ exists b,
       BboltCache.bucket (BboltCache.db c) = Some b
       /\ forall key x,
            b !! key = Some x ->
            f key = (match x with
                     | BboltCache.Encoded entry => BboltCache.Value entry
                     | BboltCache.Plain raw => raw
                     end, None).

End pure.

(** ** Command sbomlicense: one file through the pipeline *)

Module main.

(** The command line tool keeps cached licenses for the whole run. *)
Definition cacheTTL : Duration := 0.

(** The debug record of [processFile] and the error records of the pool. *)
Inductive log_record : Type :=
  | LogDetected (format : string)
  | LogPool (r : enricher.log_record).

Section ProcessFile.

Context {bytes : Type}.
Variable json_read : bytes -> option json.
Variable json_write : json -> bytes.
Context {CS PS : Type}.

(** The return of [processFile] after [Enrich]. *)
Definition enriched (format : string)
    (r : option (enricher.result bytes * provider.world CS PS
                 * list enricher.log_record))
  : option (enricher.result bytes * provider.world CS PS * list log_record) :=
  match r with
  | None => None
  | Some (enricher.Err err, e', lg) =>
      Some (enricher.Err (WrapError "enrich SBOM" err), e',
            LogDetected format :: (LogPool <$> lg))
  | Some (enricher.Ok out, e', lg) =>
      Some (enricher.Ok out, e', LogDetected format :: (LogPool <$> lg))
  end.

(** [processFile].  [file] is what [os.ReadFile(filename)] returns; the
    result is [None] when the schedule ends before the pool has
    returned. *)
Definition processFile (sched : list enricher.thread)
    (e : provider.world CS PS) (file : enricher.result bytes)
    (prov : provider.Provider PS) (cacheInstance : option (provider.Cache CS))
    (parallelism : Z)
  : option (enricher.result bytes * provider.world CS PS * list log_record) :=
  match file with
  | enricher.Err err => Some (enricher.Err (WrapError "read file" err), e, [])
  | enricher.Ok data =>
      match sbom.DetectFormat json_read data with
      | (_, Some err) =>
          Some (enricher.Err (WrapError "detect format" err), e, [])
      | (format, None) =>
          let opts := {| enricher.SBOM := data;
                         enricher.Parallelism := parallelism |} in
          if String.prefix "SPDX" format then
            enriched format
              (enricher.SPDXEnricher_Enrich json_read json_write prov
                 cacheInstance cacheTTL sched e opts)
          else if String.prefix "CycloneDX" format then
            enriched format
              (enricher.CycloneDXEnricher_Enrich json_read json_write prov
                 cacheInstance cacheTTL sched e opts)
          else
            Some (enricher.Err
                    (ErrorString ("unsupported SBOM format: " ++ format)),
                  e, [LogDetected format])
      end
  end.

End ProcessFile.

End main.

(** ** Package server: the two handlers *)

Module server.

Definition StatusOK : Z := 200.
Definition StatusBadRequest : Z := 400.
Definition StatusMethodNotAllowed : Z := 405.
Definition StatusInternalServerError : Z := 500.

Definition MethodGet : string := "GET".
Definition MethodPost : string := "POST".

(** The records the handlers write to the logger, and those of the pool. *)
Inductive log_record : Type :=
  | LogDecodeFailed (err : error)
  | LogDetectFailed (err : error)
  | LogProcessing (format : string)
  | LogEnrichFailed (err : error)
  | LogPool (r : enricher.log_record).

Section Handlers.

Context {bytes : Type}.
Variable json_read : bytes -> option json.
Variable json_write : json -> bytes.
Context {CS PS : Type}.

Record Server : Type := {
  provider : provider.Provider PS;
  cache : option (provider.Cache CS);
  defaultParallelism : Z;
  cacheTTL : Duration;
  version : string
}.


(** [enrichRequest] as [Decode] fills it: [SBOM] is the text of the member
    [sbom], [None] (the nil [json.RawMessage]) when the body has no such
    member; [Parallelism] is 0 when the body has no member
    [parallelism]. *)
Record enrichRequest : Type := {
  SBOM : option bytes;
  Parallelism : Z
}.

(** The response bodies: [errorResponse] with its message, written here
    as the fixed text and the error that [%v] formats after it;
    [enrichResponse]; and the string OK of the health check. *)
Inductive body : Type :=
  | errorResponse (Error : string) (cause : option error)
  | enrichResponse (sbom : bytes)
  | healthResponse.

Record response : Type := {
  StatusCode : Z;
  Body : body
}.

Definition writeError (statusCode : Z) (message : string) (cause : option error)
  : response :=
  {| StatusCode := statusCode; Body := errorResponse message cause |}.

(** The end of [handleEnrich], after [Enrich]. *)
Definition respond (format : string)
    (r : option (enricher.result bytes * provider.world CS PS
                 * list enricher.log_record))
  : option (response * provider.world CS PS * list log_record) :=
  match r with
  | None => None
  | Some (enricher.Err err, e', lg) =>
      Some (writeError StatusInternalServerError "enrichment failed" (Some err),
            e',
            (LogProcessing format :: (LogPool <$> lg)
             ++ [LogEnrichFailed err])%list)
  | Some (enricher.Ok enriched, e', lg) =>
      Some ({| StatusCode := StatusOK; Body := enrichResponse enriched |},
            e', LogProcessing format :: (LogPool <$> lg))
  end.

(** [handleEnrich].  [method] is [r.Method] and [decoded] is what
    [json.NewDecoder(r.Body).Decode(&req)] comes to on the size-limited
    body.  The enriched bytes are a JSON text (the request's own [sbom] or
    the output of [json.Marshal]), so writing the response does not
    fail. *)
Definition handleEnrich (s : Server) (sched : list enricher.thread)
    (e : provider.world CS PS) (method : string)
    (decoded : enricher.result enrichRequest)
  : option (response * provider.world CS PS * list log_record) :=
  if negb (String.eqb method MethodPost) then
    Some (writeError StatusMethodNotAllowed "only POST method is allowed" None,
          e, [])
  else
    match decoded with
    | enricher.Err err =>
        Some (writeError StatusBadRequest "invalid JSON" (Some err), e,
              [LogDecodeFailed err])
    | enricher.Ok req =>
        match SBOM req with
        | None =>
            Some (writeError StatusBadRequest "sbom field is required" None, e, [])
        | Some data =>
            match sbom.DetectFormat json_read data with
            | (_, Some err) =>
                Some (writeError StatusBadRequest "invalid SBOM format" (Some err),
                      e, [LogDetectFailed err])
            | (format, None) =>
                let parallelism :=
                  if (Parallelism req <=? 0)%Z then defaultParallelism s
                  else Parallelism req in
                let opts := {| enricher.SBOM := data;
                               enricher.Parallelism := parallelism |} in
                if String.prefix "SPDX" format then
                  respond format
                    (enricher.SPDXEnricher_Enrich json_read json_write
                       (provider s) (cache s) (cacheTTL s) sched e opts)
                else if String.prefix "CycloneDX" format then
                  respond format
                    (enricher.CycloneDXEnricher_Enrich json_read json_write
                       (provider s) (cache s) (cacheTTL s) sched e opts)
                else
                  Some (writeError StatusBadRequest
                          ("unsupported SBOM format: " ++ format) None,
                        e, [LogProcessing format])
            end
        end
    end.

(** [handleHealth]. *)
Definition handleHealth (method : string) : response :=
  if negb (String.eqb method MethodGet) then
    writeError StatusMethodNotAllowed "only GET method is allowed" None
  else {| StatusCode := StatusOK; Body := healthResponse |}.

End Handlers.

Global Arguments Server : clear implicits.
Global Arguments enrichRequest : clear implicits.
Global Arguments body : clear implicits.
Global Arguments response : clear implicits.

End server.

(** ** What the log of a run may hold *)

Module logspec.

Section Log.

Context {T : Type} `{enrichableItem T}.



End Log.

End logspec.

(** ** The purls a run asks the provider for *)

Module asked.

Section Asked.

Context {T : Type} `{enrichableItem T} {CS PS : Type}.

(** The purls of the provider calls of a record of calls, in call
    order. *)
Definition provider_purls (evs : list provider.event) : list string :=
  omap (fun ev => match ev with
                  | provider.EvProviderGet purl _ => Some purl
                  | _ => None
                  end) evs.

(** The purls of the items the pool looks up (a purl, no license), in
    item order. *)
Definition candidate_purls (its : list T) : list string :=
  omap (fun it => match GetPurl it with
                  | (purl, None) => if HasLicense it then None else Some purl
                  | (_, Some _) => None
                  end) its.

Variable prov : provider.Provider PS.
Variable cacheInstance : option (provider.Cache CS).
Variable cacheTTL : Duration.

(** The purl a job will still be asked for: its own, when the item it
    names has no license. *)
Definition job_due (its : list T) (j : enricher.job) : gmultiset string :=
  match its !! enricher.job_item j with
  | Some it => if HasLicense it then ∅ else {[+ enricher.job_purl j +]}
  | None => ∅
  end.

(** A worker of a pool without a cache: inside a lookup it is about to
    ask the provider for the purl of its job, or it has the result. *)
Definition worker_due (its : list T) (x : enricher.worker CS PS)
    (m : gmultiset string) : Prop :=
  match x with
  | enricher.Checking j => m = job_due its j
  | enricher.Looking j q =>
      (exists r, q = provider.Ret r /\ m = ∅)
      \/ (q = enricher.lookup_of prov cacheInstance cacheTTL j
          /\ m = {[+ enricher.job_purl j +]})
  | enricher.Receiving | enricher.Exited => m = ∅
  end.

Definition caller_due (its : list T) (c : enricher.caller) : gmultiset string :=
  match c with
  | enricher.Queueing k => list_to_set_disj (candidate_purls (drop k its))
  | enricher.Waiting | enricher.Returned => ∅
  end.

(** [due its s m]: the purls asked so far and the purls the run from [s]
    will still ask for make up [m], for a run that started with the
    items [its]. *)
Definition due (its : list T) (s : enricher.state T CS PS)
    (m : gmultiset string) : Prop :=
  exists ws,
    Forall2 (worker_due its) (enricher.workers s) ws
    /\ m = list_to_set_disj (provider_purls (provider.calls (enricher.env s)))
           ⊎ ⋃+ (job_due its <$> enricher.jobs s)
           ⊎ ⋃+ ws
           ⊎ caller_due its (enricher.main s).

End Asked.

End asked.

(** * Properties *)

(** ** Items *)

Lemma eqb_false_iff (a b : string) : String.eqb a b = false <-> a ≠ b.
Proof. apply String.eqb_neq. Qed.

Lemma negb_eqb_true (a b : string) : negb (String.eqb a b) = true <-> a ≠ b.
Proof. rewrite negb_true_iff. apply String.eqb_neq. Qed.

Lemma meaningful_test (f : string) :
  negb (String.eqb f "") && negb (String.eqb f spdx.spdxLicenseNone)
  && negb (String.eqb f spdx.spdxLicenseNoAssertion) = true
  <-> spec.meaningful f.
Proof.
  unfold spec.meaningful, spdx.spdxLicenseNone, spdx.spdxLicenseNoAssertion.
  rewrite !andb_true_iff, !negb_eqb_true. tauto.
Qed.

Lemma meaningful_dec (f : string) : spec.meaningful f \/ ~ spec.meaningful f.
Proof.
  unfold spec.meaningful.
  destruct (String.eqb_spec f ""), (String.eqb_spec f "NONE"),
    (String.eqb_spec f "NOASSERTION"); tauto.
Qed.

(** C6.  An SPDX package has a license exactly when its concluded or its
    declared field is meaningful (non-empty, not NONE, not NOASSERTION);
    SetLicense(L) always writes licenseConcluded = L, writes
    licenseDeclared = L when the declared field was not meaningful (absent
    or empty, NONE, NOASSERTION), keeps it otherwise, and touches nothing
    else. *)
Theorem C6_spdx_meaningful_license : forall (p : spdx.Package) (L : string),
  (HasLicense p = true <->
     spec.meaningful (spdx.LicenseConcluded p)
     \/ spec.meaningful (spdx.LicenseDeclared p))
  /\ spdx.LicenseConcluded (SetLicense p L) = L
  /\ (spdx.LicenseDeclared (SetLicense p L) = L <->
        ~ spec.meaningful (spdx.LicenseDeclared p) \/ spdx.LicenseDeclared p = L)
  /\ (spec.meaningful (spdx.LicenseDeclared p) ->
        spdx.LicenseDeclared (SetLicense p L) = spdx.LicenseDeclared p)
  /\ spdx.SPDXID (SetLicense p L) = spdx.SPDXID p
  /\ spdx.Name (SetLicense p L) = spdx.Name p
  /\ spdx.VersionInfo (SetLicense p L) = spdx.VersionInfo p
  /\ spdx.Homepage (SetLicense p L) = spdx.Homepage p
  /\ spdx.ExternalRefs (SetLicense p L) = spdx.ExternalRefs p
  /\ spdx.LicenseDeclared spdx.zero_Package = "".
Proof.
  intros p L. cbn [HasLicense SetLicense spdx.Package_item].
  unfold spdx.Package_HasLicense, spdx.Package_SetLicense; cbn.
  split.
  { rewrite orb_true_iff, !meaningful_test. tauto. }
  split; [reflexivity|].
  assert (Hd : (String.eqb (spdx.LicenseDeclared p) ""
                || String.eqb (spdx.LicenseDeclared p) spdx.spdxLicenseNone
                || String.eqb (spdx.LicenseDeclared p) spdx.spdxLicenseNoAssertion)%bool
               = true <-> ~ spec.meaningful (spdx.LicenseDeclared p)).
  { unfold spec.meaningful, spdx.spdxLicenseNone, spdx.spdxLicenseNoAssertion.
    rewrite !orb_true_iff, !String.eqb_eq.
    destruct (String.eqb_spec (spdx.LicenseDeclared p) ""),
      (String.eqb_spec (spdx.LicenseDeclared p) "NONE"),
      (String.eqb_spec (spdx.LicenseDeclared p) "NOASSERTION"); tauto. }
  destruct (String.eqb (spdx.LicenseDeclared p) ""
            || String.eqb (spdx.LicenseDeclared p) spdx.spdxLicenseNone
            || String.eqb (spdx.LicenseDeclared p) spdx.spdxLicenseNoAssertion)%bool
    eqn:E.
  - assert (~ spec.meaningful (spdx.LicenseDeclared p)) by (apply Hd; reflexivity).
    repeat split; auto; tauto.
  - assert (spec.meaningful (spdx.LicenseDeclared p)).
    { destruct (meaningful_dec (spdx.LicenseDeclared p)) as [|N]; [assumption|].
      apply Hd in N. discriminate. }
    repeat split; auto; try tauto.
Qed.

(** The declared sentinel of a package is replaced, a meaningful declared
    field is kept. *)
Lemma C6_spdx_meaningful_license_witness :
  HasLicense fixtures.bare_package = false
  /\ spdx.LicenseDeclared (SetLicense fixtures.bare_package "MIT") = "MIT"
  /\ spdx.LicenseDeclared
       (SetLicense (SetLicense fixtures.bare_package "MIT") "BSD-3-Clause") = "MIT".
Proof.
  split; [reflexivity|]. split.
  - destruct (C6_spdx_meaningful_license fixtures.bare_package "MIT")
      as (_ & _ & Hd & _).
    apply Hd. left. intros (_ & _ & N). apply N. reflexivity.
  - destruct (C6_spdx_meaningful_license (SetLicense fixtures.bare_package "MIT")
                "BSD-3-Clause") as (_ & _ & _ & Hk & _).
    apply Hk. repeat split; discriminate.
Defined.


Lemma choice_has_value_iff (choice : cyclonedx.LicenseChoice) :
  cyclonedx.choice_has_value choice = true <-> spec.carries_license choice.
Proof.
  unfold cyclonedx.choice_has_value, spec.carries_license.
  destruct (String.eqb_spec (cyclonedx.Expression choice) "") as [E|E]; cbn.
  - destruct (cyclonedx.ChoiceLicense choice) as [l|].
    + rewrite !orb_true_iff, !negb_eqb_true. split.
      * intros Hl. right. exists l. tauto.
      * intros [N|(l' & [= <-] & Hl)]; [congruence | tauto].
    + split; [discriminate|]. intros [N|(l' & [=] & _)]. congruence.
  - split; auto.
Qed.

Lemma any_choice_has_value_iff (choices : list cyclonedx.LicenseChoice) :
  cyclonedx.any_choice_has_value choices = true
  <-> exists choice, choice ∈ choices /\ spec.carries_license choice.
Proof.
  induction choices as [|c rest IH]; cbn.
  - split; [discriminate|]. intros (c & Hin & _). inversion Hin.
  - destruct (cyclonedx.choice_has_value c) eqn:E.
    + split; auto. intros _. exists c. split; [left|].
      apply choice_has_value_iff. exact E.
    + rewrite IH. split.
      * intros (x & Hin & Hx). exists x. split; [right|]; assumption.
      * intros (x & Hin & Hx). inversion Hin; subst.
        -- apply choice_has_value_iff in Hx. congruence.
        -- exists x. split; assumption.
Qed.

(** C7.  A CycloneDX component has a license exactly when some element of
    its licenses array has a non-empty expression or a nested license object
    with a non-empty id, name or expression; SetLicense(L) appends the
    choice whose only field is expression = L after the choices already
    there (to the empty array when there were none), changes no existing
    choice and no other field, and the appended choice is written as the
    object with the single member expression. *)
Theorem C7_cyclonedx_license_choice : forall (c : cyclonedx.Component) (L : string),
  (HasLicense c = true <->
     exists choice, choice ∈ cyclonedx.ComponentLicenses c
                    /\ spec.carries_license choice)
  /\ cyclonedx.ComponentLicenses (SetLicense c L)
     = (cyclonedx.ComponentLicenses c
        ++ [{| cyclonedx.ChoiceLicense := None; cyclonedx.Expression := L |}])%list
  /\ (L ≠ "" ->
      cyclonedx.encode_LicenseChoice
        {| cyclonedx.ChoiceLicense := None; cyclonedx.Expression := L |}
      = JObject [("expression", JString L)])
  /\ cyclonedx.BOMRef (SetLicense c L) = cyclonedx.BOMRef c
  /\ cyclonedx.Name (SetLicense c L) = cyclonedx.Name c
  /\ cyclonedx.Version (SetLicense c L) = cyclonedx.Version c
  /\ cyclonedx.Purl (SetLicense c L) = cyclonedx.Purl c
  /\ cyclonedx.ExternalReferences (SetLicense c L) = cyclonedx.ExternalReferences c.
Proof.
  intros c L. cbn [HasLicense SetLicense cyclonedx.Component_item].
  unfold cyclonedx.Component_HasLicense, cyclonedx.HasComponentLicense,
    cyclonedx.Component_SetLicense; cbn.
  split.
  { destruct (cyclonedx.ComponentLicenses c) as [|x rest] eqn:E.
    - cbn. split; [discriminate|]. intros (y & Hin & _). inversion Hin.
    - cbn [length Nat.eqb]. apply any_choice_has_value_iff. }
  split; [reflexivity|].
  split; [|repeat split].
  intros HL. unfold cyclonedx.encode_LicenseChoice, cyclonedx.omitempty; cbn.
  apply eqb_false_iff in HL. rewrite HL. reflexivity.
Qed.

(** A component whose only choice is an empty license object counts as
    unlicensed, and the new choice is put after the empty one. *)
Lemma C7_cyclonedx_license_choice_witness :
  let empty_choice :=
    {| cyclonedx.ChoiceLicense := Some cyclonedx.zero_License;
       cyclonedx.Expression := "" |} in
  let c :=
    {| cyclonedx.BOMRef := "lodash"; cyclonedx.Name := "lodash";
       cyclonedx.Version := "4.17.21"; cyclonedx.Purl := "pkg:npm/lodash@4.17.21";
       cyclonedx.ComponentLicenses := [empty_choice];
       cyclonedx.ExternalReferences := None |} in
  HasLicense c = false
  /\ cyclonedx.ComponentLicenses (SetLicense c "MIT")
     = [empty_choice;
        {| cyclonedx.ChoiceLicense := None; cyclonedx.Expression := "MIT" |}]
  /\ cyclonedx.encode_LicenseChoice
       {| cyclonedx.ChoiceLicense := None; cyclonedx.Expression := "MIT" |}
     = JObject [("expression", JString "MIT")].
Proof.
  intros empty_choice c.
  destruct (C7_cyclonedx_license_choice c "MIT") as (_ & Happ & Henc & _).
  split; [reflexivity|]. split.
  - exact Happ.
  - apply Henc. discriminate.
Defined.

(** ** Cache *)

(** An entry written at [now] with [ttl]: read back until its expiry time,
    a miss after it, and read back at any time when it has none. *)
Lemma fresh_entry_expiry (now later : Time) (ttl : Duration) :
  (0 < now)%Z ->
  let expiration := if (0 <? ttl)%Z then Time_Add now ttl else 0%Z in
  let expired := negb (Time_IsZero expiration) && Time_After later expiration in
  ((0 < ttl)%Z -> (later <= now + ttl)%Z -> expired = false)
  /\ ((0 < ttl)%Z -> (now + ttl < later)%Z -> expired = true)
  /\ ((ttl <= 0)%Z -> expired = false).
Proof.
  intros Hnow. cbn zeta. unfold Time_IsZero, Time_After, Time_Add.
  destruct (Z.ltb_spec 0 ttl) as [Hpos|Hnon].
  - destruct (Z.eqb_spec (now + ttl) 0) as [E|E]; [lia|]. cbn.
    repeat split; intros.
    + apply Z.ltb_ge. lia.
    + apply Z.ltb_lt. lia.
    + lia.
  - cbn. repeat split; intros; solve [lia | reflexivity].
Qed.

(** C8, as amended.  For the volatile backend every call of SetWithTTL on
    an open cache succeeds; the durable backend succeeds exactly on an open
    cache whose bucket exists, for a key that is not empty and not longer
    than the store allows.  On either backend, after a SetWithTTL that
    returned no error: with ttl > 0, Get(key) returns the value at every
    clock reading up to the stored expiry [now + ttl] and a miss at every
    reading past it; with ttl <= 0, Get(key) returns the value at every
    clock reading. *)
Theorem C8_cache_ttl_after_successful_set :
  (forall (now : Time) (c c' : MemoryCache.t) (key val : string) (ttl : Duration),
     (0 < now)%Z ->
     MemoryCache.SetWithTTL now c key val ttl = (None, c') ->
     forall later : Time,
       ((0 < ttl)%Z -> (later <= now + ttl)%Z ->
        MemoryCache.Get later c' key = (val, None))
       /\ ((0 < ttl)%Z -> (now + ttl < later)%Z ->
           MemoryCache.Get later c' key = ("", Some ErrCacheMiss))
       /\ ((ttl <= 0)%Z -> MemoryCache.Get later c' key = (val, None)))
  /\ (forall (now : Time) (c c' : BboltCache.t) (key val : string) (ttl : Duration),
        (0 < now)%Z ->
        BboltCache.SetWithTTL now c key val ttl = (None, c') ->
        forall later : Time,
          ((0 < ttl)%Z -> (later <= now + ttl)%Z ->
           BboltCache.Get later c' key = (val, None))
          /\ ((0 < ttl)%Z -> (now + ttl < later)%Z ->
              BboltCache.Get later c' key = ("", Some ErrCacheMiss))
          /\ ((ttl <= 0)%Z -> BboltCache.Get later c' key = (val, None)))
  /\ (forall (now : Time) (c : MemoryCache.t) (key val : string) (ttl : Duration),
        (MemoryCache.SetWithTTL now c key val ttl).1 = None
        <-> MemoryCache.closed c = false)
  /\ (forall (now : Time) (c : BboltCache.t) (key val : string) (ttl : Duration),
        (BboltCache.SetWithTTL now c key val ttl).1 = None
        <-> BboltCache.closed c = false
            /\ is_Some (BboltCache.bucket (BboltCache.db c))
            /\ key ≠ ""
            /\ (Z.of_nat (String.length key) <= BboltCache.MaxKeySize)%Z).
Proof.
  split; [|split; [|split]].
  - intros now c c' key val ttl Hnow Hset later.
    unfold MemoryCache.SetWithTTL in Hset.
    destruct (MemoryCache.closed c) eqn:Hc; [discriminate|].
    injection Hset as <-.
    unfold MemoryCache.Get; cbn. rewrite ?Hc, lookup_insert_eq.
    unfold MemoryCache.isExpired; cbn.
    destruct (fresh_entry_expiry now later ttl Hnow) as (H1 & H2 & H3).
    cbn zeta in H1, H2, H3.
    repeat split; intros.
    + rewrite H1 by assumption. reflexivity.
    + rewrite H2 by assumption. reflexivity.
    + rewrite H3 by assumption. reflexivity.
  - intros now c c' key val ttl Hnow Hset later.
    unfold BboltCache.SetWithTTL in Hset.
    destruct (BboltCache.closed c) eqn:Hc; [discriminate|].
    destruct (BboltCache.bucket (BboltCache.db c)) as [b|] eqn:Hb; [|discriminate].
    unfold BboltCache.Bucket_Put in Hset.
    destruct (Nat.eqb (String.length key) 0); [discriminate|].
    destruct (BboltCache.MaxKeySize <? Z.of_nat (String.length key))%Z;
      [discriminate|].
    injection Hset as <-.
    unfold BboltCache.Get, BboltCache.Bucket_Get; cbn.
    rewrite ?Hc, lookup_insert_eq.
    unfold BboltCache.isExpired; cbn.
    destruct (fresh_entry_expiry now later ttl Hnow) as (H1 & H2 & H3).
    cbn zeta in H1, H2, H3.
    repeat split; intros.
    + rewrite H1 by assumption. reflexivity.
    + rewrite H2 by assumption. reflexivity.
    + rewrite H3 by assumption. reflexivity.
  - intros now c key val ttl. unfold MemoryCache.SetWithTTL.
    destruct (MemoryCache.closed c); cbn; split; congruence.
  - intros now c key val ttl. unfold BboltCache.SetWithTTL.
    destruct (BboltCache.closed c); cbn.
    { split; [discriminate|]. intros (? & _). discriminate. }
    destruct (BboltCache.bucket (BboltCache.db c)) as [b|]; cbn.
    2:{ split; [discriminate|]. intros (_ & [x Hx] & _). discriminate. }
    unfold BboltCache.Bucket_Put.
    destruct (Nat.eqb_spec (String.length key) 0) as [E|E]; cbn.
    { split; [discriminate|]. intros (_ & _ & Hk & _).
      destruct key; [congruence | discriminate]. }
    destruct (Z.ltb_spec BboltCache.MaxKeySize (Z.of_nat (String.length key)));
      cbn.
    { split; [discriminate|]. intros (_ & _ & _ & Hle). lia. }
    split; [|reflexivity]. intros _.
    repeat split; eauto; try lia.
    intros ->. apply E. reflexivity.
Qed.

(** Scenario 10 on both backends: written with a 50 ms ttl, read at once and
    again 100 ms later. *)
Lemma C8_cache_ttl_after_successful_set_witness :
  let now := 1000000000%Z in
  let ttl := 50000000%Z in
  let later := (now + 100000000)%Z in
  let m := (MemoryCache.SetWithTTL now MemoryCache.NewMemoryCache "k" "v" ttl).2 in
  let b := (BboltCache.SetWithTTL now
              (BboltCache.NewBboltCache {| BboltCache.bucket := None |}) "k" "v" ttl).2 in
  MemoryCache.Get now m "k" = ("v", None)
  /\ MemoryCache.Get later m "k" = ("", Some ErrCacheMiss)
  /\ BboltCache.Get now b "k" = ("v", None)
  /\ BboltCache.Get later b "k" = ("", Some ErrCacheMiss).
Proof.
  intros now ttl later m b.
  destruct C8_cache_ttl_after_successful_set as (Hm & Hb & _ & _).
  assert (Hnow : (0 < now)%Z) by (unfold now; lia).
  assert (Httl : (0 < ttl)%Z) by (unfold ttl; lia).
  destruct (Hm now MemoryCache.NewMemoryCache m "k" "v" ttl Hnow eq_refl now)
    as (Hm1 & _ & _).
  destruct (Hm now MemoryCache.NewMemoryCache m "k" "v" ttl Hnow eq_refl later)
    as (_ & Hm2 & _).
  destruct (Hb now (BboltCache.NewBboltCache {| BboltCache.bucket := None |})
              b "k" "v" ttl Hnow eq_refl now) as (Hb1 & _ & _).
  destruct (Hb now (BboltCache.NewBboltCache {| BboltCache.bucket := None |})
              b "k" "v" ttl Hnow eq_refl later) as (_ & Hb2 & _).
  split; [|split; [|split]].
  - apply Hm1; [exact Httl | unfold ttl; lia].
  - apply Hm2; [exact Httl | unfold later, now, ttl; lia].
  - apply Hb1; [exact Httl | unfold ttl; lia].
  - apply Hb2; [exact Httl | unfold later, now, ttl; lia].
Defined.

(** The claim as stated fails on the durable backend at the empty key:
    SetWithTTL returns the store's error for it, with a positive ttl or with
    none, and a Get that follows at once answers with a miss instead of the
    value. *)
Lemma C8_counterexample_durable_empty_key :
  let c := BboltCache.NewBboltCache {| BboltCache.bucket := None |} in
  let now := 1000000000%Z in
  (BboltCache.SetWithTTL now c "" "MIT" 3600).1 = Some ErrKeyRequired
  /\ BboltCache.Get now (BboltCache.SetWithTTL now c "" "MIT" 3600).2 ""
     = ("", Some ErrCacheMiss)
  /\ (BboltCache.SetWithTTL now c "" "MIT" 0).1 = Some ErrKeyRequired
  /\ BboltCache.Get now (BboltCache.SetWithTTL now c "" "MIT" 0).2 ""
     = ("", Some ErrCacheMiss)
  /\ ~ (forall (key val : string) (ttl : Duration) (later : Time),
          (ttl <= 0)%Z ->
          BboltCache.Get later (BboltCache.SetWithTTL now c key val ttl).2 key
          = (val, None)).
Proof.
  cbn zeta. repeat split; try reflexivity.
  intros H. specialize (H "" "MIT" 0%Z 1000000000%Z ltac:(lia)).
  vm_compute in H. discriminate.
Qed.

(** ** Provider *)

(** C4, as amended.  The client's lookup answers not-found exactly when the
    service answered with status 404, or with status 200 and a body that
    decodes to an empty result list, or to a list whose first result has an
    empty license list (the later results are not looked at); it succeeds
    exactly when the status is 200 and the first result of the decoded list
    has a license, and then returns the first license of the first
    result. *)
Theorem C4_lookup_not_found_and_success :
  forall (x : Client.exchange) (purl : string),
    (spec.NotFound (Client.Get x purl) <->
       (exists body, x = Client.Response 404 body)
       \/ (exists body results,
             x = Client.Response 200 (Some body)
             /\ Client.decode_results body = Some results
             /\ (elems results = []
                 \/ exists first rest,
                      elems results = first :: rest
                      /\ elems (Client.NormalizedLicenses first) = [])))
    /\ (forall license,
          Client.Get x purl = (license, None) <->
          exists body results first rest more,
            x = Client.Response 200 (Some body)
            /\ Client.decode_results body = Some results
            /\ elems results = first :: rest
            /\ elems (Client.NormalizedLicenses first) = license :: more).
Proof.
  intros x purl. unfold spec.NotFound.
  destruct x as [msg|msg|status body]; cbn.
  - split; [split|].
    + intros (e & [= <-] & He). discriminate.
    + intros [(b & [=])|(b & r & [=] & _)].
    + intros l. split; [discriminate|]. intros (b & r & f & rest & m & [=] & _).
  - split; [split|].
    + intros (e & [= <-] & He). discriminate.
    + intros [(b & [=])|(b & r & [=] & _)].
    + intros l. split; [discriminate|]. intros (b & r & f & rest & m & [=] & _).
  - unfold Client.StatusOK, Client.StatusNotFound, Client.StatusTooManyRequests,
      Client.StatusBadGateway, Client.StatusServiceUnavailable,
      Client.StatusGatewayTimeout.
    destruct (Z.eqb_spec status 200) as [->|Hne]; cbn.
    + destruct body as [body|]; cbn.
      * destruct (Client.decode_results body) as [results|] eqn:Hdec; cbn.
        -- destruct (elems results) as [|first rest] eqn:Hres; cbn.
           ++ split; [split|].
              ** intros _. right. exists body, results. auto.
              ** intros _. eexists. split; [reflexivity|]. reflexivity.
              ** intros l. split; [discriminate|].
                 intros (b & r & f & rs & m & [= <-] & Hd & Hr & _).
                 congruence.
           ++ destruct (elems (Client.NormalizedLicenses first))
                as [|license more] eqn:Hlic; cbn.
              ** split; [split|].
                 --- intros _. right. exists body, results.
                     split; [reflexivity|]. split; [assumption|]. right.
                     exists first, rest. rewrite Hres. auto.
                 --- intros _. eexists. split; reflexivity.
                 --- intros l. split; [discriminate|].
                     intros (b & r & f & rs & m & [= <-] & Hd & Hr & Hl).
                     rewrite Hdec in Hd. injection Hd as <-.
                     rewrite Hres in Hr. injection Hr as <- <-.
                     congruence.
              ** split; [split|].
                 --- intros (e & [=] & _).
                 --- intros [(b & [=])|(b & r & [= <-] & Hd & Hcase)].
                     rewrite Hdec in Hd. injection Hd as <-.
                     destruct Hcase as [Hnil|(f & rs & Hr & Hl)]; [congruence|].
                     rewrite Hres in Hr. injection Hr as <- <-. congruence.
                 --- intros l. split.
                     +++ intros [= <-]. exists body, results, first, rest, more.
                         rewrite Hres. auto.
                     +++ intros (b & r & f & rs & m & [= <-] & Hd & Hr & Hl).
                         rewrite Hdec in Hd. injection Hd as <-.
                         rewrite Hres in Hr. injection Hr as <- <-.
                         congruence.
        -- split; [split|].
           ++ intros (e & [= <-] & He). discriminate.
           ++ intros [(b & [=])|(b & r & [= <-] & Hd & _)]. congruence.
           ++ intros l. split; [discriminate|].
              intros (b & r & f & rs & m & [= <-] & Hd & _). congruence.
      * split; [split|].
        -- intros (e & [= <-] & He). discriminate.
        -- intros [(b & [=])|(b & r & [=] & _)].
        -- intros l. split; [discriminate|].
           intros (b & r & f & rs & m & [=] & _).
    + destruct (Z.eqb_spec status 404) as [->|Hnf]; cbn.
      * split; [split|].
        -- intros _. left. eauto.
        -- intros _. eexists. split; reflexivity.
        -- intros l. split; [discriminate|].
           intros (b & r & f & rs & m & [=] & _).
      * assert (Hother : forall r : string * option error,
                  (exists msg, r = ("", Some (ErrorString msg))) ->
                  ((exists e : error, r.2 = Some e /\ errors_Is e LicenseNotFound = true)
                   <-> (exists body0, Client.Response status body = Client.Response 404 body0)
                       \/ (exists body0 results,
                             Client.Response status body = Client.Response 200 (Some body0)
                             /\ Client.decode_results body0 = Some results
                             /\ (elems results = []
                                 \/ exists first rest,
                                      elems results = first :: rest
                                      /\ elems (Client.NormalizedLicenses first) = [])))
                  /\ (forall license,
                        r = (license, None) <->
                        exists body0 results first rest more,
                          Client.Response status body = Client.Response 200 (Some body0)
                          /\ Client.decode_results body0 = Some results
                          /\ elems results = first :: rest
                          /\ elems (Client.NormalizedLicenses first) = license :: more)).
        { intros r (msg & ->). cbn. split; [split|].
          - intros (e & [= <-] & He). discriminate.
          - intros [(b & [= E])|(b & r & [= E] & _)]; congruence.
          - intros l. split; [discriminate|].
            intros (b & r & f & rs & m & [= E] & _). congruence. }
        destruct (status =? 429)%Z; [apply Hother; eauto|].
        destruct ((status =? 502)%Z || (status =? 503)%Z || (status =? 504)%Z)%bool;
          apply Hother; eauto.
Qed.

(** Scenario: the first result carries two licenses and a second result
    follows; the first license of the first result is returned. *)
Lemma C4_lookup_not_found_and_success_witness :
  let body :=
    JArray [JObject [("normalized_licenses",
                      JArray [JString "BSD-3-Clause"; JString "Apache-2.0"])];
            JObject [("normalized_licenses", JArray [JString "MIT"])]] in
  Client.Get (Client.Response 200 (Some body)) "pkg:npm/express@4.17.1"
  = ("BSD-3-Clause", None).
Proof.
  intros body.
  apply (C4_lookup_not_found_and_success
           (Client.Response 200 (Some body)) "pkg:npm/express@4.17.1").
  eexists body, _, _, _, _.
  split; [reflexivity|]. split; [reflexivity|]. split; reflexivity.
Defined.

(** The claim as stated fails when the first result has no license and a
    later one has: the lookup answers not-found although the status is not
    404, the result array is not empty and not every license list is
    empty. *)
Lemma C4_counterexample_later_result_has_license :
  let body :=
    JArray [JObject [("normalized_licenses", JArray [])];
            JObject [("normalized_licenses", JArray [JString "MIT"])]] in
  let x := Client.Response 200 (Some body) in
  spec.NotFound (Client.Get x "pkg:npm/express@4.17.1")
  /\ Client.decode_results body
     = Some (Some [{| Client.NormalizedLicenses := Some [] |};
                   {| Client.NormalizedLicenses := Some ["MIT"] |}])
  /\ ~ (forall r, r ∈ [{| Client.NormalizedLicenses := Some [] |};
                       {| Client.NormalizedLicenses := Some ["MIT"] |}] ->
                  elems (Client.NormalizedLicenses r) = []).
Proof.
  cbn zeta. split; [|split].
  - eexists. split; reflexivity.
  - reflexivity.
  - intros H.
    specialize (H {| Client.NormalizedLicenses := Some ["MIT"] |}
                  ltac:(right; left)).
    discriminate.
Qed.

Section CacheThrough.

Context {CS PS : Type}.
Implicit Types (opts : provider.GetOptions CS PS) (w : provider.world CS PS).

Lemma run_from_provider opts w (cs : CS) (evs : list provider.event) :
  let w1 := provider.world_after w cs (provider.provider_st w) evs in
  let purl := provider.Purl opts in
  forall res ps,
    provider.Provider_Get (provider.GetProvider opts) (provider.provider_st w) purl
    = (res, ps) ->
    provider.run (provider.Get_from_provider opts) w1
    = match res with
      | (_, Some e) =>
          (("", Some (WrapError "failed to get license from provider" e)),
           provider.world_after w cs ps (evs ++ [provider.EvProviderGet purl res]))
      | (license, None) =>
          match provider.GetCache opts with
          | Some c =>
              if String.eqb license "" then
                ((license, None),
                 provider.world_after w cs ps (evs ++ [provider.EvProviderGet purl res]))
              else
                let '(setErr, cs') :=
                  provider.Cache_SetWithTTL c cs purl license (provider.CacheTTL opts) in
                (match setErr with
                 | Some e => ("", Some (WrapError "failed to set license in cache" e))
                 | None => (license, None)
                 end,
                 provider.world_after w cs' ps
                   (evs ++ [provider.EvProviderGet purl res;
                            provider.EvCacheSetWithTTL purl license
                              (provider.CacheTTL opts) setErr]))
          | None =>
              ((license, None),
               provider.world_after w cs ps (evs ++ [provider.EvProviderGet purl res]))
          end
      end.
Proof.
  intros w1 purl res ps Hp. unfold provider.Get_from_provider, w1, provider.world_after.
  cbn. fold purl. rewrite Hp. destruct res as [license [e|]]; cbn.
  - rewrite <- app_assoc. reflexivity.
  - destruct (provider.GetCache opts) as [c|].
    + destruct (String.eqb license ""); cbn.
      * rewrite <- app_assoc. reflexivity.
      * destruct (provider.Cache_SetWithTTL c cs purl license (provider.CacheTTL opts))
          as [setErr cs'].
        destruct setErr; cbn; rewrite <- !app_assoc; reflexivity.
    + cbn. rewrite <- app_assoc. reflexivity.
Qed.

Lemma run_Get opts w :
  let purl := provider.Purl opts in
  provider.run (provider.Get opts) w
  = match provider.GetCache opts with
    | Some c =>
        let '(res, cs) := provider.Cache_Get c (provider.cache_st w) purl in
        let w1 := provider.world_after w cs (provider.provider_st w)
                    [provider.EvCacheGet purl res] in
        match res with
        | (license, None) => ((license, None), w1)
        | (_, Some e) =>
            if errors_Is e CacheMiss
            then provider.run (provider.Get_from_provider opts) w1
            else (("", Some (WrapError "failed to get license from cache" e)), w1)
        end
    | None => provider.run (provider.Get_from_provider opts) w
    end.
Proof.
  intros purl. unfold provider.Get.
  remember (provider.Get_from_provider opts) as g.
  destruct (provider.GetCache opts) as [c|]; [|reflexivity].
  cbn. fold purl.
  destruct (provider.Cache_Get c (provider.cache_st w) purl) as [[license [e|]] cs];
    cbn; [|reflexivity].
  destruct (errors_Is e CacheMiss); reflexivity.
Qed.

End CacheThrough.

(** C2.  The cache-through lookup, for every purl, cache and provider.
    (i) A cache read that succeeds is returned; the provider is not called
    (its state is as before and the only call made is the cache read).
    (ii) A cache read that fails with an error that is not a miss is
    returned as an error; the provider is not called.
    (iii) On a miss, a non-empty license from the provider is written with
    SetWithTTL(purl, license, ttl) before the return; when the write fails
    the lookup returns that error and no license, otherwise the license.
    (iv) An empty license from the provider is returned as it is and
    nothing is written to the cache; without a cache nothing is ever
    written. *)
Theorem C2_cache_through_lookup :
  forall (CS PS : Type) (opts : provider.GetOptions CS PS) (w : provider.world CS PS),
    let purl := provider.Purl opts in
    let ttl := provider.CacheTTL opts in
    let p := provider.GetProvider opts in
    (forall c v cs,
       provider.GetCache opts = Some c ->
       provider.Cache_Get c (provider.cache_st w) purl = ((v, None), cs) ->
       provider.run (provider.Get opts) w
       = ((v, None),
          provider.world_after w cs (provider.provider_st w)
            [provider.EvCacheGet purl (v, None)]))
    /\ (forall c v e cs,
          provider.GetCache opts = Some c ->
          provider.Cache_Get c (provider.cache_st w) purl = ((v, Some e), cs) ->
          errors_Is e CacheMiss = false ->
          provider.run (provider.Get opts) w
          = (("", Some (WrapError "failed to get license from cache" e)),
             provider.world_after w cs (provider.provider_st w)
               [provider.EvCacheGet purl (v, Some e)]))
    /\ (forall c v e cs license ps setErr cs',
          provider.GetCache opts = Some c ->
          provider.Cache_Get c (provider.cache_st w) purl = ((v, Some e), cs) ->
          errors_Is e CacheMiss = true ->
          provider.Provider_Get p (provider.provider_st w) purl = ((license, None), ps) ->
          license ≠ "" ->
          provider.Cache_SetWithTTL c cs purl license ttl = (setErr, cs') ->
          provider.run (provider.Get opts) w
          = (match setErr with
             | Some e' => ("", Some (WrapError "failed to set license in cache" e'))
             | None => (license, None)
             end,
             provider.world_after w cs' ps
               [provider.EvCacheGet purl (v, Some e);
                provider.EvProviderGet purl (license, None);
                provider.EvCacheSetWithTTL purl license ttl setErr]))
    /\ (forall c v e cs ps,
          provider.GetCache opts = Some c ->
          provider.Cache_Get c (provider.cache_st w) purl = ((v, Some e), cs) ->
          errors_Is e CacheMiss = true ->
          provider.Provider_Get p (provider.provider_st w) purl = (("", None), ps) ->
          provider.run (provider.Get opts) w
          = (("", None),
             provider.world_after w cs ps
               [provider.EvCacheGet purl (v, Some e);
                provider.EvProviderGet purl ("", None)]))
    /\ (forall license ps,
          provider.GetCache opts = None ->
          provider.Provider_Get p (provider.provider_st w) purl = ((license, None), ps) ->
          provider.run (provider.Get opts) w
          = ((license, None),
             provider.world_after w (provider.cache_st w) ps
               [provider.EvProviderGet purl (license, None)])).
Proof.
  intros CS PS opts w purl ttl p.
  split; [|split; [|split; [|split]]].
  - intros c v cs Hc Hget. rewrite run_Get, Hc. cbn zeta. fold purl.
    rewrite Hget. reflexivity.
  - intros c v e cs Hc Hget Hmiss. rewrite run_Get, Hc. cbn zeta. fold purl.
    rewrite Hget, Hmiss. reflexivity.
  - intros c v e cs license ps setErr cs' Hc Hget Hmiss Hprov Hne Hset.
    rewrite run_Get, Hc. cbn zeta. fold purl. rewrite Hget, Hmiss.
    rewrite (run_from_provider opts w cs _ _ _ Hprov).
    rewrite Hc. apply eqb_false_iff in Hne. rewrite Hne.
    fold purl ttl. rewrite Hset. reflexivity.
  - intros c v e cs ps Hc Hget Hmiss Hprov.
    rewrite run_Get, Hc. cbn zeta. fold purl. rewrite Hget, Hmiss.
    rewrite (run_from_provider opts w cs _ _ _ Hprov).
    rewrite Hc. reflexivity.
  - intros license ps Hc Hprov. rewrite run_Get, Hc.
    assert (E : w = provider.world_after w (provider.cache_st w)
                      (provider.provider_st w) []).
    { unfold provider.world_after. rewrite app_nil_r. destruct w; reflexivity. }
    rewrite E at 1.
    rewrite (run_from_provider opts w (provider.cache_st w) [] _ _ Hprov).
    rewrite Hc. reflexivity.
Qed.

(** The five cases on concrete collaborators: a hit on the volatile cache,
    a closed cache, a write that the durable cache rejects (empty purl), an
    empty answer of the provider, and a lookup without a cache.  The second
    component is the number of provider calls. *)
Lemma C2_cache_through_lookup_witness :
  let options {CS} (purl : string) (res : string * option error)
        (c : option (provider.Cache CS)) :=
    {| provider.Purl := purl; provider.GetProvider := fixtures.answering res;
       provider.GetCache := c; provider.CacheTTL := 3600%Z |} in
  let outcome {CS} (r : (string * option error) * provider.world CS nat) :=
    (r.1, provider.provider_st r.2, provider.calls r.2) in
  let now := 1000%Z in
  let warm :=
    (MemoryCache.SetWithTTL now MemoryCache.NewMemoryCache "pkg:npm/a" "Apache-2.0" 0).2 in
  let shut := (MemoryCache.Close MemoryCache.NewMemoryCache).2 in
  let durable := BboltCache.NewBboltCache {| BboltCache.bucket := None |} in
  outcome (provider.run
             (provider.Get (options "pkg:npm/a" ("MIT", None)
                              (Some (fixtures.memory_cache now))))
             (fixtures.fresh_world warm))
  = (("Apache-2.0", None), 0%nat,
     [provider.EvCacheGet "pkg:npm/a" ("Apache-2.0", None)])
  /\ outcome (provider.run
                (provider.Get (options "pkg:npm/a" ("MIT", None)
                                 (Some (fixtures.memory_cache now))))
                (fixtures.fresh_world shut))
     = (("", Some (WrapError "failed to get license from cache" ErrCacheClosed)),
        0%nat, [provider.EvCacheGet "pkg:npm/a" ("", Some ErrCacheClosed)])
  /\ outcome (provider.run
                (provider.Get (options "" ("MIT", None)
                                 (Some (fixtures.bbolt_cache now))))
                (fixtures.fresh_world durable))
     = (("", Some (WrapError "failed to set license in cache" ErrKeyRequired)),
        1%nat,
        [provider.EvCacheGet "" ("", Some ErrCacheMiss);
         provider.EvProviderGet "" ("MIT", None);
         provider.EvCacheSetWithTTL "" "MIT" 3600 (Some ErrKeyRequired)])
  /\ outcome (provider.run
                (provider.Get (options "pkg:npm/a" ("", None)
                                 (Some (fixtures.memory_cache now))))
                (fixtures.fresh_world MemoryCache.NewMemoryCache))
     = (("", None), 1%nat,
        [provider.EvCacheGet "pkg:npm/a" ("", Some ErrCacheMiss);
         provider.EvProviderGet "pkg:npm/a" ("", None)])
  /\ outcome (provider.run
                (provider.Get (options "pkg:npm/a" ("MIT", None)
                                 (@None (provider.Cache unit))))
                (fixtures.fresh_world tt))
     = (("MIT", None), 1%nat, [provider.EvProviderGet "pkg:npm/a" ("MIT", None)]).
Proof.
  intros options outcome now warm shut durable.
  split; [|split; [|split; [|split]]].
  - destruct (C2_cache_through_lookup _ _
                (options _ "pkg:npm/a" ("MIT", None) (Some (fixtures.memory_cache now)))
                (fixtures.fresh_world warm)) as (H & _).
    rewrite (H _ "Apache-2.0" warm eq_refl eq_refl). reflexivity.
  - destruct (C2_cache_through_lookup _ _
                (options _ "pkg:npm/a" ("MIT", None) (Some (fixtures.memory_cache now)))
                (fixtures.fresh_world shut)) as (_ & H & _).
    rewrite (H _ "" ErrCacheClosed shut eq_refl eq_refl eq_refl). reflexivity.
  - destruct (C2_cache_through_lookup _ _
                (options _ "" ("MIT", None) (Some (fixtures.bbolt_cache now)))
                (fixtures.fresh_world durable)) as (_ & _ & H & _).
    rewrite (H _ "" ErrCacheMiss durable "MIT" 1%nat (Some ErrKeyRequired) durable
               eq_refl eq_refl eq_refl eq_refl ltac:(discriminate) eq_refl).
    reflexivity.
  - destruct (C2_cache_through_lookup _ _
                (options _ "pkg:npm/a" ("", None) (Some (fixtures.memory_cache now)))
                (fixtures.fresh_world MemoryCache.NewMemoryCache)) as (_ & _ & _ & H & _).
    rewrite (H _ "" ErrCacheMiss MemoryCache.NewMemoryCache 1%nat
               eq_refl eq_refl eq_refl eq_refl).
    reflexivity.
  - destruct (C2_cache_through_lookup _ _
                (options _ "pkg:npm/a" ("MIT", None) (@None (provider.Cache unit)))
                (fixtures.fresh_world tt)) as (_ & _ & _ & _ & H).
    rewrite (H "MIT" 1%nat eq_refl eq_refl). reflexivity.
Defined.

(** ** Worker pool *)

Section PoolFacts.

Context {T : Type} `{enrichableItem T} {CS PS : Type}.
Variable prov : provider.Provider PS.
Variable cacheInstance : option (provider.Cache CS).
Variable cacheTTL : Duration.

Implicit Types (s : enricher.state T CS PS) (t : enricher.thread).

Local Abbreviation step := (enricher.step prov cacheInstance cacheTTL).
Local Abbreviation exec := (enricher.exec prov cacheInstance cacheTTL).
Local Abbreviation lookup_of := (enricher.lookup_of prov cacheInstance cacheTTL).

(** Case analysis of one step; every case leaves the new state as an
    explicit record. *)
Ltac step_cases Hstep :=
  match type of Hstep with
  | enricher.step _ _ _ ?t ?s = Some ?s' =>
      let w := fresh "w" in
      destruct t as [|w]; cbn [enricher.step] in Hstep;
      [ unfold enricher.main_step in Hstep;
        let Hmain := fresh "Hmain" in
        let n := fresh "n" in
        destruct (enricher.main s) as [n| |] eqn:Hmain;
        [ let Hitem := fresh "Hitem" in
          let item := fresh "item" in
          destruct (enricher.items s !! n) as [item|] eqn:Hitem;
          [ let Hpurl := fresh "Hpurl" in
            let purl := fresh "purl" in
            let e := fresh "e" in
            destruct (GetPurl item) as [purl [e|]] eqn:Hpurl | ]
        | let Hall := fresh "Hall" in
          destruct (enricher.all_exited (enricher.workers s)) eqn:Hall;
          [ | discriminate Hstep ]
        | discriminate Hstep ]
      | unfold enricher.worker_step in Hstep;
        let Hw := fresh "Hw" in
        let j := fresh "j" in
        let q := fresh "q" in
        destruct (enricher.workers s !! w) as [[ |j|j q| ]|] eqn:Hw;
        [ let Hjobs := fresh "Hjobs" in
          destruct (enricher.jobs s) as [|?j ?rest] eqn:Hjobs;
          [ let Hclosed := fresh "Hclosed" in
            destruct (enricher.is_closed s) eqn:Hclosed; [ | discriminate Hstep ]
          | ]
        | let Hitem := fresh "Hitem" in
          let item := fresh "item" in
          destruct (enricher.items s !! enricher.job_item j) as [item|] eqn:Hitem;
          [ let Hlic := fresh "Hlic" in
            destruct (HasLicense item) eqn:Hlic
          | discriminate Hstep ]
        | let lic := fresh "lic" in
          let c := fresh "c" in
          let key := fresh "key" in
          let p := fresh "p" in
          let purl := fresh "purl" in
          let val := fresh "val" in
          let ttl := fresh "ttl" in
          destruct q as [[lic [?e|]]|c key ?k|p purl ?k|c key val ttl ?k];
          [ let Hitem := fresh "Hitem" in
            destruct (enricher.items s !! enricher.job_item j) as [?item|] eqn:Hitem;
            [ | discriminate Hstep ]
          | let Hitem := fresh "Hitem" in
            destruct (enricher.items s !! enricher.job_item j) as [?item|] eqn:Hitem;
            [ let Hempty := fresh "Hempty" in
              destruct (String.eqb lic "") eqn:Hempty
            | discriminate Hstep ]
          | cbn [provider.prog_step] in Hstep;
            let Hcall := fresh "Hcall" in
            destruct (provider.Cache_Get c (provider.cache_st (enricher.env s)) key)
              as [?res ?cs] eqn:Hcall
          | cbn [provider.prog_step] in Hstep;
            let Hcall := fresh "Hcall" in
            destruct (provider.Provider_Get p (provider.provider_st (enricher.env s)) purl)
              as [?res ?ps] eqn:Hcall
          | cbn [provider.prog_step] in Hstep;
            let Hcall := fresh "Hcall" in
            destruct (provider.Cache_SetWithTTL c (provider.cache_st (enricher.env s))
                        key val ttl) as [?res ?cs] eqn:Hcall ]
        | discriminate Hstep
        | discriminate Hstep ] ];
      cbn [negb] in Hstep;
      try (injection Hstep as <-)
  end.

Lemma exec_app (a b : list enricher.thread) s :
  exec (a ++ b) s = exec b (exec a s).
Proof.
  revert s. induction a as [|t a IH]; intros s; cbn; [reflexivity|].
  destruct (step t s); apply IH.
Qed.

(** A property kept by every step is kept by every schedule. *)
Lemma exec_invariant (P : enricher.state T CS PS -> Prop) :
  (forall t s s', P s -> step t s = Some s' -> P s') ->
  forall sched s, P s -> P (exec sched s).
Proof.
  intros Hstep sched. induction sched as [|t rest IH]; intros s Hs; cbn.
  - exact Hs.
  - destruct (step t s) as [s'|] eqn:E; [|auto].
    apply IH. eapply Hstep; eassumption.
Qed.

Lemma step_length_items t s s' :
  step t s = Some s' -> length (enricher.items s') = length (enricher.items s).
Proof.
  intros Hstep. step_cases Hstep; cbn; try reflexivity.
  apply length_insert.
Qed.

(** *** Items that have a license *)

(** Slot [i] holds [it], and no worker is inside the lookup for it. *)
Lemma licensed_untouched_step (i : nat) (it : T) t s s' :
  HasLicense it = true ->
  enricher.items s !! i = Some it
  /\ (forall w j q, enricher.workers s !! w = Some (enricher.Looking j q) ->
                    enricher.job_item j ≠ i) ->
  step t s = Some s' ->
  enricher.items s' !! i = Some it
  /\ (forall w j q, enricher.workers s' !! w = Some (enricher.Looking j q) ->
                    enricher.job_item j ≠ i).
Proof.
  intros Hit [Hi Hno] Hstep.
  step_cases Hstep; cbn; (split; [try exact Hi|]);
    try exact Hno;
    try (intros w' j' q' Hw';
         apply list_lookup_insert_Some in Hw' as [(_ & Hx & _)|(_ & Hw')];
         [ try discriminate Hx | eapply Hno; exact Hw' ]).
  - injection Hx as <- <-. intros Hji. rewrite Hji in Hitem. congruence.
  - rewrite list_lookup_insert_ne; [exact Hi|]. eapply Hno. exact Hw.
  - injection Hx as <- <-. eapply Hno. exact Hw.
  - injection Hx as <- <-. eapply Hno. exact Hw.
  - injection Hx as <- <-. eapply Hno. exact Hw.
Qed.

(** *** Well-formed states *)

Lemma all_exited_lookup (ws : list (enricher.worker CS PS)) w x :
  enricher.all_exited ws = true -> ws !! w = Some x -> x = enricher.Exited.
Proof.
  unfold enricher.all_exited. rewrite forallb_forall. intros Hall Hw.
  specialize (Hall x). destruct x; try reflexivity;
    (assert (false = true) as Habs; [apply Hall|discriminate Habs]);
    apply list_elem_of_In; eapply list_elem_of_lookup_2; exact Hw.
Qed.

Lemma all_exited_insert (ws : list (enricher.worker CS PS)) w :
  enricher.all_exited ws = true ->
  enricher.all_exited (<[w := enricher.Exited]> ws) = true.
Proof.
  unfold enricher.all_exited. rewrite !forallb_forall. intros Hall x Hx.
  apply list_elem_of_In, list_elem_of_lookup in Hx as [n Hn].
  apply list_lookup_insert_Some in Hn as [(_ & <- & _)|(_ & Hn)]; [reflexivity|].
  apply Hall, list_elem_of_In. eapply list_elem_of_lookup_2. exact Hn.
Qed.

Lemma jobs_in_range_step t s s' :
  enricher.jobs_in_range s -> step t s = Some s' -> enricher.jobs_in_range s'.
Proof.
  intros [Hq Hw0] Hstep. unfold enricher.jobs_in_range.
  rewrite (step_length_items _ _ _ Hstep).
  step_cases Hstep; cbn; (split; [try exact Hq | try exact Hw0]).
  all: try (intros w' x' i' Hw'; 
            apply list_lookup_insert_Some in Hw' as [(_ & <- & _)|(_ & Hw')];
            [ cbn; try tauto; intros <- | eapply Hw0; exact Hw' ]).
  - intros j0 Hj0. apply elem_of_app in Hj0 as [Hj0|Hj0]; [apply Hq; exact Hj0|].
    apply list_elem_of_singleton in Hj0. subst j0. cbn.
    eapply lookup_lt_Some. exact Hitem.
  - rewrite Hjobs. intros j0 Hj0. inversion Hj0.
  - intros j0 Hj0. apply Hq. right. exact Hj0.
  - apply Hq. left.
  - eapply Hw0; [exact Hw | reflexivity].
  - eapply Hw0; [exact Hw | reflexivity].
  - eapply Hw0; [exact Hw | reflexivity].
  - eapply Hw0; [exact Hw | reflexivity].
Qed.

Lemma shutdown_ok_step t s s' :
  enricher.shutdown_ok s -> step t s = Some s' -> enricher.shutdown_ok s'.
Proof.
  intros [Hex Hret] Hstep. unfold enricher.shutdown_ok.
  step_cases Hstep; cbn; unfold enricher.is_closed in *; cbn;
    try rewrite Hmain in *; split.
  all: try (intros Hm;
            first [ discriminate Hm
                  | exact Hall
                  | specialize (Hret Hm);
                    pose proof (all_exited_lookup _ _ _ Hret Hw) as Habs;
                    discriminate Habs ]).
  all: intros w0 Hw0.
  all: try (apply list_lookup_insert_Some in Hw0 as [(_ & Hx & _)|(_ & Hw0)];
            [try discriminate Hx|]).
  all: try (destruct (Hex w0 Hw0) as [Hj Hc]; try discriminate; auto).
  split; assumption.
Qed.


(** *** Progress and termination *)

Lemma not_all_exited (ws : list (enricher.worker CS PS)) :
  enricher.all_exited ws = false ->
  exists w x, ws !! w = Some x /\ x ≠ enricher.Exited.
Proof.
  induction ws as [|x ws IH]; cbn; [discriminate|].
  destruct x; cbn;
    try (intros _; exists 0%nat; eexists; split; [reflexivity|discriminate]).
  intros Hall. destruct (IH Hall) as (w & x & Hw & Hx).
  exists (S w), x. split; assumption.
Qed.

(** A state from which the call has not returned has a goroutine that can
    move. *)
Lemma progress s :
  enricher.jobs_in_range s ->
  enricher.main s ≠ enricher.Returned ->
  exists t s', step t s = Some s'.
Proof.
  intros [_ Hrange] Hmain.
  destruct (enricher.main s) as [k| |] eqn:Hm; [| |congruence].
  - exists enricher.Main. cbn. unfold enricher.main_step. rewrite Hm.
    destruct (enricher.items s !! k) as [item|]; [|eauto].
    destruct (GetPurl item) as [purl [e|]]; eauto.
  - destruct (enricher.all_exited (enricher.workers s)) eqn:Hall.
    + exists enricher.Main. cbn. unfold enricher.main_step. rewrite Hm, Hall. eauto.
    + destruct (not_all_exited _ Hall) as (w & x & Hw & Hx).
      exists (enricher.Worker w). cbn. unfold enricher.worker_step. rewrite Hw.
      destruct x as [|j|j q|]; [| | |congruence].
      * destruct (enricher.jobs s); [|eauto].
        unfold enricher.is_closed. rewrite Hm. eauto.
      * destruct (lookup_lt_is_Some_2 (enricher.items s) (enricher.job_item j))
          as [item Hitem]; [eapply Hrange; [exact Hw|reflexivity]|].
        rewrite Hitem. destruct (HasLicense item); eauto.
      * destruct (lookup_lt_is_Some_2 (enricher.items s) (enricher.job_item j))
          as [item Hitem]; [eapply Hrange; [exact Hw|reflexivity]|].
        destruct q as [[lic [e|]]| | |]; rewrite ?Hitem; eauto.
        -- destruct (negb (String.eqb lic "")); eauto.
        -- destruct (provider.prog_step _ _); eauto.
        -- destruct (provider.prog_step _ _); eauto.
        -- destruct (provider.prog_step _ _); eauto.
Qed.

Lemma calls_le_Get_from_provider (opts : provider.GetOptions CS PS) n :
  provider.calls_le (provider.Get_from_provider opts) (S (S n)).
Proof.
  unfold provider.Get_from_provider. constructor. intros [license [e|]].
  - constructor.
  - destruct (provider.GetCache opts); [|constructor].
    destruct (negb (String.eqb license "")); [|constructor].
    constructor. intros [e|]; constructor.
Qed.

Lemma calls_le_Get (opts : provider.GetOptions CS PS) :
  provider.calls_le (provider.Get opts) 3.
Proof.
  unfold provider.Get. destruct (provider.GetCache opts).
  - constructor. intros [license [e|]]; [|constructor].
    destruct (negb (errors_Is e CacheMiss)); [constructor|].
    apply calls_le_Get_from_provider.
  - apply calls_le_Get_from_provider.
Qed.

Lemma sum_list_insert (ws : list nat) w y y' :
  ws !! w = Some y ->
  (sum_list (<[w := y']> ws) + y = sum_list ws + y')%nat.
Proof.
  revert w. induction ws as [|a ws IH]; intros [|w] Hw; simpl in *; try discriminate.
  - injection Hw as ->. lia.
  - specialize (IH w Hw). lia.
Qed.

(** Every step lowers the potential. *)
Lemma potential_step t s s' n :
  enricher.potential s n -> step t s = Some s' ->
  exists n', enricher.potential s' n' /\ (n' < n)%nat.
Proof.
  intros (ws & Hws & ->) Hstep. unfold enricher.potential.
  rewrite (step_length_items _ _ _ Hstep).
  assert (Hweight : forall w x, enricher.workers s !! w = Some x ->
            exists y, ws !! w = Some y /\ enricher.worker_weight x y).
  { intros w x Hw. destruct (Forall2_lookup_l _ _ _ _ _ Hws Hw) as (y & ? & ?). eauto. }
  assert (Hmove : forall w x x' y y',
            enricher.workers s !! w = Some x -> ws !! w = Some y ->
            enricher.worker_weight x' y' ->
            Forall2 enricher.worker_weight (<[w := x']> (enricher.workers s))
              (<[w := y']> ws)
            /\ (sum_list (<[w := y']> ws) + y = sum_list ws + y')%nat).
  { intros w x x' y y' Hw Hy Hx'. split.
    - apply Forall2_insert; assumption.
    - apply sum_list_insert. exact Hy. }
  step_cases Hstep; cbn -[Nat.mul Nat.sub Nat.add].
  all: try (destruct (Hweight _ _ Hw) as (y & Hy & Hxy); cbn in Hxy).
  all: rewrite ?Hjobs; cbn [length].
  - apply lookup_lt_Some in Hitem.
    eexists. split; [exists ws; split; [exact Hws|reflexivity]|]. lia.
  - apply lookup_lt_Some in Hitem.
    eexists. split; [exists ws; split; [exact Hws|reflexivity]|].
    rewrite length_app. cbn [length]. lia.
  - apply lookup_ge_None in Hitem.
    eexists. split; [exists ws; split; [exact Hws|reflexivity]|]. lia.
  - eexists. split; [exists ws; split; [exact Hws|reflexivity]|]. lia.
  - destruct (Hmove w _ enricher.Exited y 0%nat Hw Hy eq_refl) as [HF Hsum].
    eexists. split; [eexists; split; [exact HF|reflexivity]|]. lia.
  - destruct (Hmove w _ (enricher.Checking j) y 6%nat Hw Hy eq_refl) as [HF Hsum].
    eexists. split; [eexists; split; [exact HF|reflexivity]|].
    cbn [length]. lia.
  - destruct (Hmove w _ enricher.Receiving y 1%nat Hw Hy eq_refl) as [HF Hsum].
    eexists. split; [eexists; split; [exact HF|reflexivity]|]. lia.
  - destruct (Hmove w _ (enricher.Looking j (lookup_of j)) y 5%nat Hw Hy) as [HF Hsum].
    { exists 3%nat. split; [apply calls_le_Get|]. lia. }
    eexists. split; [eexists; split; [exact HF|reflexivity]|]. lia.
  - destruct Hxy as (d & _ & _ & ->).
    destruct (Hmove w _ enricher.Receiving _ 1%nat Hw Hy eq_refl) as [HF Hsum].
    eexists. split; [eexists; split; [exact HF|reflexivity]|]. lia.
  - destruct Hxy as (d & _ & _ & ->).
    destruct (Hmove w _ enricher.Receiving _ 1%nat Hw Hy eq_refl) as [HF Hsum].
    eexists. split; [eexists; split; [exact HF|reflexivity]|]. lia.
  - destruct Hxy as (d & _ & _ & ->).
    destruct (Hmove w _ enricher.Receiving _ 1%nat Hw Hy eq_refl) as [HF Hsum].
    eexists. split; [eexists; split; [exact HF|reflexivity]|]. lia.
  - destruct Hxy as (d & Hd & Hle & ->). inversion Hd as [|? ? ? d' Hk| |]; subst.
    destruct (Hmove w _ (enricher.Looking j (k res)) _ (d' + 2)%nat Hw Hy) as [HF Hsum].
    { exists d'. split; [apply Hk|]. lia. }
    eexists. split; [eexists; split; [exact HF|reflexivity]|]. lia.
  - destruct Hxy as (d & Hd & Hle & ->). inversion Hd as [| |? ? ? d' Hk|]; subst.
    destruct (Hmove w _ (enricher.Looking j (k res)) _ (d' + 2)%nat Hw Hy) as [HF Hsum].
    { exists d'. split; [apply Hk|]. lia. }
    eexists. split; [eexists; split; [exact HF|reflexivity]|]. lia.
  - destruct Hxy as (d & Hd & Hle & ->). inversion Hd as [| | |? ? ? ? ? d' Hk]; subst.
    destruct (Hmove w _ (enricher.Looking j (k res)) _ (d' + 2)%nat Hw Hy) as [HF Hsum].
    { exists d'. split; [apply Hk|]. lia. }
    eexists. split; [eexists; split; [exact HF|reflexivity]|]. lia.
Qed.

(** No schedule takes more steps than the potential of the state it starts
    in. *)
Lemma steps_bounded sched : forall s n,
  enricher.potential s n ->
  (enricher.steps_taken prov cacheInstance cacheTTL sched s <= n)%nat.
Proof.
  induction sched as [|t rest IH]; intros s n Hpot; cbn; [lia|].
  destruct (step t s) as [s'|] eqn:E.
  - destruct (potential_step _ _ _ _ Hpot E) as (n' & Hpot' & Hlt).
    specialize (IH s' n' Hpot'). lia.
  - apply IH. exact Hpot.
Qed.

Lemma potential_start (its : list T) (parallelism : Z) (e : provider.world CS PS) :
  enricher.potential (enricher.start its parallelism e)
    (7 * length its + 2 + Z.to_nat parallelism).
Proof.
  unfold enricher.potential, enricher.start; cbn -[Nat.mul Nat.sub Nat.add].
  exists (replicate (Z.to_nat parallelism) 1%nat). split.
  - induction (Z.to_nat parallelism); cbn; constructor; [reflexivity|assumption].
  - assert (E : forall n, sum_list (replicate n 1%nat) = n).
    { induction n; cbn; [reflexivity|]. f_equal. assumption. }
    rewrite E. lia.
Qed.

(** From every state with valid jobs some schedule leads to the return of
    the call. *)
Lemma completion n : forall s,
  enricher.potential s n -> enricher.jobs_in_range s ->
  exists sched, enricher.main (exec sched s) = enricher.Returned.
Proof.
  induction n as [n IH] using lt_wf_ind. intros s Hpot Hrange.
  destruct (enricher.main s) as [k| |] eqn:Hm.
  3:{ exists []. exact Hm. }
  all: destruct (progress s Hrange) as (t & s' & Hstep); [congruence|];
    destruct (potential_step _ _ _ _ Hpot Hstep) as (n' & Hpot' & Hlt);
    destruct (IH n' Hlt s' Hpot' (jobs_in_range_step _ _ _ Hrange Hstep))
      as (sched & Hsched);
    exists (t :: sched); cbn; rewrite Hstep; exact Hsched.
Qed.


(** *** The course of one slot *)

(** [clear_except] across a step: the queue part, for the three shapes the
    queue of the new state can have, and the worker part, up to the state
    the moving worker is left in. *)
Ltac clear_tac Hc :=
  let Hcj := fresh "Hcj" in
  let Hcw := fresh "Hcw" in
  let Hcq := fresh "Hcq" in
  destruct Hc as [Hcj Hcw];
  pose proof Hcj as Hcq;
  repeat match goal with
         | Hj : enricher.jobs _ = _ |- _ => rewrite Hj in Hcq
         end;
  split;
  [ let j0 := fresh "j0" in
    let Hj0 := fresh "Hj0" in
    intros j0 Hj0;
    first [ apply Hcj; exact Hj0
          | apply Hcq; right; exact Hj0
          | apply elem_of_app in Hj0 as [Hj0|Hj0];
            [ apply Hcj; exact Hj0
            | apply list_elem_of_singleton in Hj0; subst j0;
              unfold enricher.passed in *;
              repeat match goal with
                     | Hm : enricher.main _ = _ |- _ => rewrite Hm in *
                     end;
              cbn; lia ] ]
  | let w1 := fresh "w1" in
    let x1 := fresh "x1" in
    let Hw1 := fresh "Hw1" in
    let Hh1 := fresh "Hh1" in
    intros w1 x1 Hw1 Hh1;
    first [ eapply Hcw; eassumption
          | apply list_lookup_insert_Some in Hw1 as [(<- & <- & _)|(_ & Hw1)];
            [ first [ solve [elim Hh1]
                    | solve [exfalso; eapply Hcq; [left | exact Hh1]]
                    | solve [eapply Hcw; [eassumption | exact Hh1]] ]
            | eapply Hcw; eassumption ] ] ].

Ltac passed_tac :=
  unfold enricher.passed in *; cbn in *;
  repeat match goal with
         | Hm : enricher.main _ = _ |- _ => rewrite Hm in *
         end;
  first [ exact I | lia | assumption ].

Ltac log_tac :=
  first [ apply elem_of_app; right; left
        | apply elem_of_app; left; assumption
        | assumption ].

Ltac calls_tac :=
  first [ assumption
        | cbn; apply sublist_inserts_r; assumption ].

(** The slot is as before: it is not the slot the moving worker writes. *)
Ltac items_tac Hc Hi :=
  first [ exact Hi
        | rewrite list_lookup_insert_ne;
          [ exact Hi
          | let Heq := fresh "Heq" in
            intros Heq;
            first [ let Hcw := fresh "Hcw" in
                    destruct Hc as [_ Hcw];
                    match goal with
                    | Hw : enricher.workers _ !! _ = Some _ |- _ =>
                        specialize (Hcw _ _ Hw Heq); congruence
                    end
                  | match goal with
                    | Hw : enricher.workers _ !! _ = Some _ |- _ =>
                        eapply Hc; [exact Hw | exact Heq]
                    end ] ] ].

(** Another worker than the moving one is where it was. *)
Ltac worker_tac :=
  rewrite list_lookup_insert_ne; [ eassumption | intros ->; congruence ].

Ltac side Hc Hi :=
  match goal with
  | |- enricher.clear_except _ _ _ => clear_tac Hc
  | |- enricher.passed _ _ => passed_tac
  | |- (_ < _)%nat => passed_tac
  | |- True => exact I
  | |- sublist _ _ => calls_tac
  | |- _ ∈ _ => log_tac
  | |- _ !! _ = Some _ => first [ eassumption | items_tac Hc Hi | worker_tac ]
  end.

Lemma pending_step (i : nat) (it : T) t s s' k :
  enricher.main s = enricher.Queueing k -> (k <= i)%nat ->
  enricher.items s !! i = Some it ->
  enricher.clear_except None i s ->
  step t s = Some s' ->
  enricher.phase prov cacheInstance cacheTTL i it s'.
Proof.
  intros Hm Hk Hi Hc Hstep.
  step_cases Hstep; try congruence.
  4-13: eapply (enricher.Pending _ _ _ _ _ _ k); cbn; eauto;
    first [ side Hc Hi ].
  1-3: injection Hm as ->.
  - destruct (decide (k = i)) as [->|Hne].
    + assert (item = it) as -> by congruence.
      eapply enricher.NoPurl; cbn; eauto; try log_tac; try passed_tac.
    + eapply (enricher.Pending _ _ _ _ _ _ (S k)); cbn; eauto. lia.
  - destruct (decide (k = i)) as [->|Hne].
    + assert (item = it) as -> by congruence.
      destruct Hc as [Hcj Hcw].
      eapply (enricher.Queued _ _ _ _ _ _ purl (enricher.jobs s) []);
        cbn; eauto; try passed_tac.
      * intros j Hj. rewrite app_nil_r in Hj. apply Hcj. exact Hj.
      * intros w x Hw Hh. specialize (Hcw w x Hw Hh). discriminate.
    + eapply (enricher.Pending _ _ _ _ _ _ (S k)); cbn; eauto; [lia|].
      clear_tac Hc.
  - apply lookup_ge_None in Hitem. apply lookup_lt_Some in Hi. lia.
Qed.

Lemma nopurl_step (i : nat) (it : T) t s s' p e :
  GetPurl it = (p, Some e) ->
  enricher.items s !! i = Some it ->
  enricher.LogPurlError (GetLogID it) e ∈ enricher.logged s ->
  enricher.passed i s -> enricher.clear_except None i s ->
  step t s = Some s' ->
  enricher.phase prov cacheInstance cacheTTL i it s'.
Proof.
  intros Hp Hi Hlog Hpass Hc Hstep.
  step_cases Hstep;
    (eapply enricher.NoPurl; cbn; [exact Hp|..];
     first [ side Hc Hi ]).
Qed.

Lemma licensed_step (i : nat) (it : T) t s s' p :
  GetPurl it = (p, None) -> HasLicense it = true ->
  enricher.items s !! i = Some it ->
  enricher.passed i s -> enricher.clear_except None i s ->
  step t s = Some s' ->
  enricher.phase prov cacheInstance cacheTTL i it s'.
Proof.
  intros Hp Hlic Hi Hpass Hc Hstep.
  step_cases Hstep;
    (eapply enricher.Licensed; cbn; [exact Hp|exact Hlic|..];
     first [ side Hc Hi ]).
Qed.

Lemma finished_step (i : nat) (it : T) t s s' p evs lic licErr :
  GetPurl it = (p, None) -> HasLicense it = false ->
  provider.yields (lookup_of (enricher.job_for i p)) evs (lic, licErr) ->
  sublist evs (provider.calls (enricher.env s)) ->
  enricher.passed i s -> enricher.clear_except None i s ->
  match licErr with
  | Some e =>
      enricher.items s !! i = Some it
      /\ enricher.LogLicenseError p (GetLogID it) e ∈ enricher.logged s
  | None =>
      enricher.items s !! i = Some (if String.eqb lic "" then it else SetLicense it lic)
  end ->
  step t s = Some s' ->
  enricher.phase prov cacheInstance cacheTTL i it s'.
Proof.
  intros Hp Hlic Hy Hsub Hpass Hc Hout Hstep.
  destruct licErr as [e0|]; [destruct Hout as [Hi Hlog]|];
    step_cases Hstep;
    (eapply enricher.Finished; cbn; [exact Hp|exact Hlic|exact Hy|..];
     [ first [ side Hc Hi ] ..
     | cbn; try split;
       first [ side Hc Hi | side Hc Hout ] ]).
Qed.

Lemma queued_step (i : nat) (it : T) t s s' p pre post :
  GetPurl it = (p, None) ->
  enricher.jobs s = (pre ++ enricher.job_for i p :: post)%list ->
  (forall j, j ∈ (pre ++ post)%list -> enricher.job_item j ≠ i) ->
  (forall w x, enricher.workers s !! w = Some x -> ~ enricher.holds i x) ->
  enricher.passed i s -> enricher.items s !! i = Some it ->
  step t s = Some s' ->
  enricher.phase prov cacheInstance cacheTTL i it s'.
Proof.
  intros Hp Hq Hrest Hnone Hpass Hi Hstep.
  assert (Hkeep : forall w x x',
             enricher.workers s !! w = Some x ->
             (enricher.holds i x' -> enricher.holds i x) ->
             forall w1 x1, <[w := x']> (enricher.workers s) !! w1 = Some x1 ->
                           ~ enricher.holds i x1).
  { intros w x x' Hw Himp w1 x1 Hw1 Hh.
    apply list_lookup_insert_Some in Hw1 as [(<- & <- & _)|(_ & Hw1)].
    - eapply Hnone; [exact Hw | apply Himp; exact Hh].
    - eapply Hnone; eassumption. }
  assert (Hother : forall w x j,
             enricher.workers s !! w = Some x -> enricher.holds (enricher.job_item j) x ->
             enricher.job_item j ≠ i).
  { intros w x j Hw Hh Heq. rewrite Heq in Hh. eapply Hnone; eassumption. }
  step_cases Hstep.
  - eapply (enricher.Queued _ _ _ _ _ _ p pre post); cbn; eauto. passed_tac.
  - eapply (enricher.Queued _ _ _ _ _ _ p pre (post ++ [_])); cbn; eauto.
    + rewrite Hq, <- app_assoc. reflexivity.
    + intros j Hj. rewrite app_assoc in Hj.
      apply elem_of_app in Hj as [Hj|Hj]; [apply Hrest; exact Hj|].
      apply list_elem_of_singleton in Hj. subst j. cbn. passed_tac.
    + passed_tac.
  - eapply (enricher.Queued _ _ _ _ _ _ p pre post); cbn; eauto.
  - eapply (enricher.Queued _ _ _ _ _ _ p pre post); cbn; eauto.
  - destruct pre; discriminate Hq.
  - destruct pre as [|j' pre'].
    + injection Hq as -> ->.
      eapply (enricher.AtCheck _ _ _ _ _ _ p w); cbn; eauto.
      * apply list_lookup_insert_eq. eapply lookup_lt_Some. exact Hw.
      * split; cbn.
        -- intros j Hj. apply Hrest. exact Hj.
        -- intros w1 x1 Hw1 Hh.
           apply list_lookup_insert_Some in Hw1 as [(<- & _)|(_ & Hw1)];
             [reflexivity|].
           exfalso. eapply Hnone; eassumption.
    + injection Hq as -> ->.
      eapply (enricher.Queued _ _ _ _ _ _ p pre' post); cbn; eauto.
      * intros j Hj. apply Hrest. right. exact Hj.
      * eapply Hkeep; [exact Hw|]. cbn. intros Heq.
        exfalso. eapply (Hrest j'); [left|exact Heq].
  - eapply (enricher.Queued _ _ _ _ _ _ p pre post); cbn; eauto.
    eapply Hkeep; [exact Hw|]. cbn. tauto.
  - eapply (enricher.Queued _ _ _ _ _ _ p pre post); cbn; eauto.
    eapply Hkeep; [exact Hw|]. cbn. tauto.
  - eapply (enricher.Queued _ _ _ _ _ _ p pre post); cbn; eauto.
    eapply Hkeep; [exact Hw|]. cbn. tauto.
  - eapply (enricher.Queued _ _ _ _ _ _ p pre post); cbn; eauto.
    eapply Hkeep; [exact Hw|]. cbn. tauto.
  - eapply (enricher.Queued _ _ _ _ _ _ p pre post); cbn; eauto.
    + eapply Hkeep; [exact Hw|]. cbn. tauto.
    + rewrite list_lookup_insert_ne; [exact Hi|].
      eapply Hother; [exact Hw|reflexivity].
  - eapply (enricher.Queued _ _ _ _ _ _ p pre post); cbn; eauto.
    eapply Hkeep; [exact Hw|]. cbn. tauto.
  - eapply (enricher.Queued _ _ _ _ _ _ p pre post); cbn; eauto.
    eapply Hkeep; [exact Hw|]. cbn. tauto.
  - eapply (enricher.Queued _ _ _ _ _ _ p pre post); cbn; eauto.
    eapply Hkeep; [exact Hw|]. cbn. tauto.
Qed.

Lemma atcheck_step (i : nat) (it : T) t s s' p w0 :
  GetPurl it = (p, None) ->
  enricher.workers s !! w0 = Some (enricher.Checking (enricher.job_for i p)) ->
  enricher.clear_except (Some w0) i s ->
  enricher.passed i s -> enricher.items s !! i = Some it ->
  step t s = Some s' ->
  enricher.phase prov cacheInstance cacheTTL i it s'.
Proof.
  intros Hp Hw0 Hc Hpass Hi Hstep.
  assert (Hlen : (w0 < length (enricher.workers s))%nat)
    by (eapply lookup_lt_Some; exact Hw0).
  step_cases Hstep.
  7-8: destruct (decide (w = w0)) as [->|Hne];
    [ rewrite Hw0 in Hw; injection Hw as <-; cbn in Hitem;
      assert (item = it) as -> by congruence
    | ].
  7: { eapply (enricher.Licensed _ _ _ _ _ _ p); cbn; eauto.
       destruct Hc as [Hcj Hcw]. split; cbn; [exact Hcj|].
       intros w1 x1 Hw1 Hh.
       apply list_lookup_insert_Some in Hw1 as [(_ & <- & _)|(Hne & Hw1)];
         [elim Hh|].
       specialize (Hcw _ _ Hw1 Hh). congruence. }
  8: { eapply (enricher.InLookup _ _ _ _ _ _ p w0 _ []); cbn; eauto.
       - apply list_lookup_insert_eq. exact Hlen.
       - apply sublist_nil_l.
       - destruct Hc as [Hcj Hcw]. split; cbn; [exact Hcj|].
         intros w1 x1 Hw1 Hh.
         apply list_lookup_insert_Some in Hw1 as [(<- & _)|(Hne & Hw1)];
           [reflexivity|].
         eapply Hcw; eassumption. }
  all: eapply (enricher.AtCheck _ _ _ _ _ _ p w0); cbn; [exact Hp|..];
    first [ side Hc Hi
          | rewrite list_lookup_insert_ne; [exact Hw0 | congruence] ].
Qed.

Lemma inlookup_step (i : nat) (it : T) t s s' p w0 q made :
  GetPurl it = (p, None) -> HasLicense it = false ->
  enricher.workers s !! w0 = Some (enricher.Looking (enricher.job_for i p) q) ->
  (forall evs r, provider.yields q evs r ->
                 provider.yields (lookup_of (enricher.job_for i p)) (made ++ evs)%list r) ->
  sublist made (provider.calls (enricher.env s)) ->
  enricher.clear_except (Some w0) i s ->
  enricher.passed i s -> enricher.items s !! i = Some it ->
  step t s = Some s' ->
  enricher.phase prov cacheInstance cacheTTL i it s'.
Proof.
  intros Hp Hlic Hw0 Hcont Hsub Hc Hpass Hi Hstep.
  assert (Hlen : (w0 < length (enricher.workers s))%nat)
    by (eapply lookup_lt_Some; exact Hw0).
  assert (Hfree : forall x', ~ enricher.holds i x' ->
            (forall j, j ∈ enricher.jobs s -> enricher.job_item j ≠ i)
            /\ (forall w1 x1, <[w0 := x']> (enricher.workers s) !! w1 = Some x1 ->
                              enricher.holds i x1 -> None = Some w1)).
  { intros x' Hx'. destruct Hc as [Hcj Hcw]. split; [exact Hcj|].
    intros w1 x1 Hw1 Hh.
    apply list_lookup_insert_Some in Hw1 as [(_ & <- & _)|(Hne & Hw1)];
      [contradiction|].
    specialize (Hcw _ _ Hw1 Hh). congruence. }
  assert (Hmine : forall q',
            (forall j, j ∈ enricher.jobs s -> enricher.job_item j ≠ i)
            /\ (forall w1 x1,
                  <[w0 := enricher.Looking (enricher.job_for i p) q']>
                    (enricher.workers s) !! w1 = Some x1 ->
                  enricher.holds i x1 -> Some w0 = Some w1)).
  { intros q'. destruct Hc as [Hcj Hcw]. split; [exact Hcj|].
    intros w1 x1 Hw1 Hh.
    apply list_lookup_insert_Some in Hw1 as [(<- & _)|(Hne & Hw1)]; [reflexivity|].
    eapply Hcw; eassumption. }
  step_cases Hstep.
  9-14: destruct (decide (w = w0)) as [->|Hne];
    [ rewrite Hw0 in Hw; injection Hw as <- ->; cbn in *
    | ].
  9: { assert (item = it) as -> by congruence.
       eapply (enricher.Finished _ _ _ _ _ _ p made lic (Some e)); cbn; eauto.
       - rewrite <- (app_nil_r made). apply Hcont. constructor.
       - unfold enricher.clear_except; cbn. apply (Hfree enricher.Receiving). tauto.
       - split; [exact Hi|]. apply elem_of_app. right. left. }
  10: { eapply (enricher.Finished _ _ _ _ _ _ p made lic None); cbn; eauto.
        - rewrite <- (app_nil_r made). apply Hcont. constructor.
        - unfold enricher.clear_except; cbn. apply (Hfree enricher.Receiving). tauto.
        - rewrite Hempty. exact Hi. }
  11: { assert (item = it) as -> by congruence.
        eapply (enricher.Finished _ _ _ _ _ _ p made lic None); cbn; eauto.
        - rewrite <- (app_nil_r made). apply Hcont. constructor.
        - unfold enricher.clear_except; cbn. apply (Hfree enricher.Receiving). tauto.
        - rewrite Hempty. apply list_lookup_insert_eq.
          eapply lookup_lt_Some. exact Hi. }
  12,14,16: eapply (enricher.InLookup _ _ _ _ _ _ p w0 (k res) (made ++ [_])%list);
    cbn; eauto;
    first [ apply list_lookup_insert_eq; exact Hlen
          | intros evs r Hy; rewrite <- app_assoc; apply Hcont;
            constructor; exact Hy
          | apply sublist_app; [exact Hsub | reflexivity]
          | unfold enricher.clear_except; cbn; apply Hmine ].
  all: eapply (enricher.InLookup _ _ _ _ _ _ p w0 q made); cbn;
    first [ exact Hp | exact Hlic | exact Hcont
          | side Hc Hi
          | rewrite list_lookup_insert_ne; [exact Hw0 | congruence] ].
Qed.

(** What the run has done with a slot is kept track of by every step. *)
Lemma phase_step (i : nat) (it : T) t s s' :
  enricher.phase prov cacheInstance cacheTTL i it s ->
  step t s = Some s' ->
  enricher.phase prov cacheInstance cacheTTL i it s'.
Proof.
  intros Hph Hstep. destruct Hph.
  - eapply pending_step; eassumption.
  - eapply nopurl_step; eassumption.
  - eapply queued_step; eassumption.
  - eapply atcheck_step; eassumption.
  - eapply licensed_step; eassumption.
  - eapply inlookup_step; eassumption.
  - eapply finished_step; eassumption.
Qed.

Lemma phase_start (i : nat) (it : T) (its : list T) (parallelism : Z)
    (e : provider.world CS PS) :
  its !! i = Some it ->
  enricher.phase prov cacheInstance cacheTTL i it (enricher.start its parallelism e).
Proof.
  intros Hi. eapply (enricher.Pending _ _ _ _ _ _ 0%nat); cbn; eauto; [lia|].
  split; cbn.
  - intros j Hj. inversion Hj.
  - intros w x Hw Hh. apply lookup_replicate in Hw as [-> _]. elim Hh.
Qed.

(** *** Reachable states *)

Lemma jobs_in_range_start (its : list T) (parallelism : Z) (e : provider.world CS PS) :
  enricher.jobs_in_range (enricher.start its parallelism e).
Proof.
  split; cbn.
  - intros j Hj. inversion Hj.
  - intros w x i Hw Hh. apply lookup_replicate in Hw as [-> _]. elim Hh.
Qed.

Lemma shutdown_ok_start (its : list T) (parallelism : Z) (e : provider.world CS PS) :
  enricher.shutdown_ok (enricher.start its parallelism e).
Proof.
  split; cbn.
  - intros w Hw. apply lookup_replicate in Hw as [Hx _]. discriminate.
  - discriminate.
Qed.

Lemma step_length_workers t s s' :
  step t s = Some s' ->
  length (enricher.workers s') = length (enricher.workers s).
Proof.
  intros Hstep. step_cases Hstep; cbn; try reflexivity; apply length_insert.
Qed.

Lemma exec_length_workers sched (its : list T) (parallelism : Z)
    (e : provider.world CS PS) :
  length (enricher.workers (exec sched (enricher.start its parallelism e)))
  = Z.to_nat parallelism.
Proof.
  apply (exec_invariant
           (fun s => length (enricher.workers s) = Z.to_nat parallelism)).
  - intros t s s' Hs Hstep. rewrite (step_length_workers _ _ _ Hstep). exact Hs.
  - cbn. apply length_replicate.
Qed.

Lemma exec_length_items sched s :
  length (enricher.items (exec sched s)) = length (enricher.items s).
Proof.
  apply (exec_invariant
           (fun s' => length (enricher.items s') = length (enricher.items s)));
    [|reflexivity].
  intros t s1 s2 Hs Hstep. rewrite (step_length_items _ _ _ Hstep). exact Hs.
Qed.

(** The log and the record of calls only grow. *)
Lemma step_logged_calls t s s' :
  step t s = Some s' ->
  (exists more, enricher.logged s' = (enricher.logged s ++ more)%list)
  /\ (exists more, provider.calls (enricher.env s')
                   = (provider.calls (enricher.env s) ++ more)%list).
Proof.
  intros Hstep.
  step_cases Hstep; cbn; split;
    first [ exists []; rewrite app_nil_r; reflexivity | eexists; reflexivity ].
Qed.

(** What the run has done with a slot once the call has returned. *)
Lemma phase_returned (i : nat) (it : T) s :
  enricher.main s = enricher.Returned ->
  enricher.shutdown_ok s ->
  (0 < length (enricher.workers s))%nat ->
  enricher.phase prov cacheInstance cacheTTL i it s ->
  (exists p e,
     GetPurl it = (p, Some e)
     /\ enricher.items s !! i = Some it
     /\ enricher.LogPurlError (GetLogID it) e ∈ enricher.logged s)
  \/ (exists p,
        GetPurl it = (p, None) /\ HasLicense it = true
        /\ enricher.items s !! i = Some it)
  \/ (exists p evs lic licErr,
        GetPurl it = (p, None) /\ HasLicense it = false
        /\ provider.yields (lookup_of (enricher.job_for i p)) evs (lic, licErr)
        /\ sublist evs (provider.calls (enricher.env s))
        /\ match licErr with
           | Some e =>
               enricher.items s !! i = Some it
               /\ enricher.LogLicenseError p (GetLogID it) e ∈ enricher.logged s
           | None =>
               enricher.items s !! i
               = Some (if String.eqb lic "" then it else SetLicense it lic)
           end).
Proof.
  intros Hret [Hex Hall] Hlen Hph. specialize (Hall Hret).
  destruct Hph as [k Hm| | p pre post Hp Hq| p w Hp Hw| |p w q made Hp Hl Hw|].
  - congruence.
  - left. eauto.
  - exfalso. destruct (enricher.workers s) as [|x ws] eqn:Hws; [cbn in Hlen; lia|].
    assert (x = enricher.Exited) as ->.
    { eapply (all_exited_lookup _ 0%nat); [exact Hall|reflexivity]. }
    destruct (Hex 0%nat eq_refl) as [Hj _].
    rewrite Hj in Hq. destruct pre; discriminate.
  - pose proof (all_exited_lookup _ _ _ Hall Hw). discriminate.
  - right. left. eauto.
  - pose proof (all_exited_lookup _ _ _ Hall Hw). discriminate.
  - right. right. eauto 10.
Qed.

(** While the purl of a slot cannot be extracted, no job for the slot is
    queued or in the hands of a worker. *)
Lemma phase_no_purl (i : nat) (it : T) s p e :
  GetPurl it = (p, Some e) ->
  enricher.phase prov cacheInstance cacheTTL i it s ->
  enricher.clear_except None i s /\ enricher.items s !! i = Some it.
Proof.
  intros Hp Hph. destruct Hph; try congruence; auto.
Qed.

End PoolFacts.

(** ** What a lookup can do *)

Section LookupShape.

Context {CS PS : Type}.
Implicit Types (opts : provider.GetOptions CS PS).

Lemma yields_Get_from_provider_inv opts evs r :
  provider.yields (provider.Get_from_provider opts) evs r ->
  exists res rest,
    evs = provider.EvProviderGet (provider.Purl opts) res :: rest
    /\ match res with
       | (_, Some e) =>
           rest = []
           /\ r = ("", Some (WrapError "failed to get license from provider" e))
       | (license, None) =>
           (rest = [] /\ r = (license, None)
            /\ (provider.GetCache opts = None \/ license = ""))
           \/ (exists setErr,
                 is_Some (provider.GetCache opts) /\ license ≠ ""
                 /\ rest = [provider.EvCacheSetWithTTL (provider.Purl opts) license
                              (provider.CacheTTL opts) setErr]
                 /\ r = match setErr with
                        | Some e =>
                            ("", Some (WrapError "failed to set license in cache" e))
                        | None => (license, None)
                        end)
       end.
Proof.
  unfold provider.Get_from_provider. intros Hy.
  inversion Hy as [| |p purl k res rest r' Hk|]; subst.
  exists res, rest. split; [reflexivity|].
  destruct res as [license [e|]]; cbn in Hk.
  - inversion Hk; subst. auto.
  - destruct (provider.GetCache opts) as [c|] eqn:Hc.
    + destruct (String.eqb_spec license "") as [->|Hne]; cbn in Hk.
      * inversion Hk; subst. left. auto.
      * inversion Hk as [| | |c' key val ttl k' setErr rest' r'' Hk']; subst.
        right. exists setErr.
        destruct setErr as [e|]; inversion Hk'; subst; eauto.
    + inversion Hk; subst. left. auto.
Qed.

Lemma yields_Get_inv opts evs r :
  provider.yields (provider.Get opts) evs r ->
  match provider.GetCache opts with
  | Some c =>
      exists res rest,
        evs = provider.EvCacheGet (provider.Purl opts) res :: rest
        /\ match res with
           | (v, None) => rest = [] /\ r = (v, None)
           | (_, Some e) =>
               if errors_Is e CacheMiss
               then provider.yields (provider.Get_from_provider opts) rest r
               else rest = []
                    /\ r = ("", Some (WrapError "failed to get license from cache" e))
           end
  | None => provider.yields (provider.Get_from_provider opts) evs r
  end.
Proof.
  unfold provider.Get. destruct (provider.GetCache opts) as [c|]; [|auto].
  intros Hy. inversion Hy as [|c' key k res rest r' Hk| |]; subst.
  exists res, rest. split; [reflexivity|].
  destruct res as [v [e|]]; cbn in Hk.
  - destruct (errors_Is e CacheMiss); cbn in Hk; [exact Hk|].
    inversion Hk; subst. auto.
  - inversion Hk; subst. auto.
Qed.

(** A lookup that fails returns no license, and its error is the error of
    the cache read, of the provider, or of the cache write. *)
Lemma yields_Get_error opts evs license err :
  provider.yields (provider.Get opts) evs (license, Some err) ->
  license = ""
  /\ exists cause,
       err = WrapError "failed to get license from cache" cause
       \/ err = WrapError "failed to get license from provider" cause
       \/ err = WrapError "failed to set license in cache" cause.
Proof.
  intros Hy. apply yields_Get_inv in Hy.
  assert (Hprov : forall evs',
            provider.yields (provider.Get_from_provider opts) evs' (license, Some err) ->
            license = ""
            /\ exists cause,
                 err = WrapError "failed to get license from cache" cause
                 \/ err = WrapError "failed to get license from provider" cause
                 \/ err = WrapError "failed to set license in cache" cause).
  { intros evs' Hy'. apply yields_Get_from_provider_inv in Hy'
      as ([l [e|]] & rest & _ & Hcase).
    - destruct Hcase as [_ [= -> ->]]. eauto.
    - destruct Hcase as [(_ & [=] & _)|(setErr & _ & _ & _ & Hr)].
      destruct setErr as [e|]; [injection Hr as -> ->; eauto | discriminate Hr]. }
  destruct (provider.GetCache opts) as [c|]; [|eapply Hprov; exact Hy].
  destruct Hy as ([v [e|]] & rest & _ & Hcase).
  - destruct (errors_Is e CacheMiss); [eapply Hprov; exact Hcase|].
    destruct Hcase as [_ [= -> ->]]. eauto.
  - destruct Hcase as [_ [=]].
Qed.

End LookupShape.

(** ** The enrichment run *)

Section Run.

Context {T : Type} `{enrichableItem T} {CS PS : Type}.
Variable prov : provider.Provider PS.
Variable cacheInstance : option (provider.Cache CS).
Variable cacheTTL : Duration.

Local Abbreviation exec := (enricher.exec prov cacheInstance cacheTTL).

Lemma reach_phase (its : list T) (parallelism : Z) (e : provider.world CS PS)
    sched i it :
  its !! i = Some it ->
  enricher.phase prov cacheInstance cacheTTL i it
    (exec sched (enricher.start its parallelism e)).
Proof.
  intros Hi.
  apply (exec_invariant prov cacheInstance cacheTTL
           (enricher.phase prov cacheInstance cacheTTL i it)).
  - intros t s s' Hs Hstep. eapply phase_step; eassumption.
  - apply phase_start. exact Hi.
Qed.

Lemma reach_shutdown_ok (its : list T) (parallelism : Z) (e : provider.world CS PS)
    sched :
  enricher.shutdown_ok (exec sched (enricher.start its parallelism e)).
Proof.
  apply (exec_invariant prov cacheInstance cacheTTL enricher.shutdown_ok).
  - intros t s s' Hs Hstep. eapply shutdown_ok_step; eassumption.
  - apply shutdown_ok_start.
Qed.

Lemma reach_jobs_in_range (its : list T) (parallelism : Z) (e : provider.world CS PS)
    sched :
  enricher.jobs_in_range (exec sched (enricher.start its parallelism e)).
Proof.
  apply (exec_invariant prov cacheInstance cacheTTL enricher.jobs_in_range).
  - intros t s s' Hs Hstep. eapply jobs_in_range_step; eassumption.
  - apply jobs_in_range_start.
Qed.

Lemma reach_licensed (its : list T) (parallelism : Z) (e : provider.world CS PS)
    sched i it :
  its !! i = Some it -> HasLicense it = true ->
  let s := exec sched (enricher.start its parallelism e) in
  enricher.items s !! i = Some it
  /\ (forall w j q, enricher.workers s !! w = Some (enricher.Looking j q) ->
                    enricher.job_item j ≠ i).
Proof.
  intros Hi Hlic.
  apply (exec_invariant prov cacheInstance cacheTTL
           (fun s => enricher.items s !! i = Some it
                     /\ (forall w j q,
                           enricher.workers s !! w = Some (enricher.Looking j q) ->
                           enricher.job_item j ≠ i))).
  - intros t s s' Hs Hstep. eapply licensed_untouched_step; eassumption.
  - split; [exact Hi|]. cbn. intros w j q Hw.
    apply lookup_replicate in Hw as [Hx _]. discriminate.
Qed.

(** Every schedule can be continued to the return of the call. *)
Lemma reach_completion (its : list T) (parallelism : Z) (e : provider.world CS PS)
    sched :
  exists more,
    enricher.main (exec (sched ++ more) (enricher.start its parallelism e))
    = enricher.Returned.
Proof.
  destruct (potential_start its parallelism e) as (ws & Hws & Hn).
  assert (Hpot : exists n, enricher.potential
                             (exec sched (enricher.start its parallelism e)) n).
  { apply (exec_invariant prov cacheInstance cacheTTL
             (fun s => exists n, enricher.potential s n)).
    - intros t s s' [n Hs] Hstep.
      destruct (potential_step prov cacheInstance cacheTTL _ _ _ _ Hs Hstep)
        as (n' & Hs' & _).
      eauto.
    - eexists. apply potential_start. }
  destruct Hpot as [n Hpot].
  destruct (completion prov cacheInstance cacheTTL n _ Hpot
              (reach_jobs_in_range its parallelism e sched)) as [more Hmore].
  exists more. rewrite exec_app. exact Hmore.
Qed.

Lemma processItemsParallel_Some sched (its : list T) (parallelism : Z)
    (e : provider.world CS PS) s err :
  enricher.processItemsParallel prov cacheInstance cacheTTL sched its parallelism e
  = Some (s, err) ->
  s = exec sched (enricher.start its parallelism e)
  /\ enricher.main s = enricher.Returned /\ err = None.
Proof.
  unfold enricher.processItemsParallel.
  destruct (enricher.main (exec sched (enricher.start its parallelism e))) eqn:Hm;
    try discriminate.
  intros [= <- <-]. auto.
Qed.

End Run.

Section EnrichRun.

Context {bytes : Type} {CS PS : Type} {T D : Type} `{enrichableItem T}.

Lemma enrichDocument_Some sched (e : provider.world CS PS)
    (opts : enricher.Options bytes) (doc : D) (its : list T) prov cacheInstance
    cacheTTL (marshalFn : D -> list T -> enricher.result bytes) r e' lg :
  enricher.enrichDocument sched e opts doc its prov cacheInstance cacheTTL marshalFn
  = Some (r, e', lg) ->
  (its = [] /\ r = enricher.Ok (enricher.SBOM opts) /\ e' = e /\ lg = [])
  \/ (its ≠ []
      /\ let s := enricher.exec prov cacheInstance cacheTTL sched
                    (enricher.start its (enricher.clamp (enricher.Parallelism opts)) e) in
         enricher.main s = enricher.Returned
         /\ r = marshalFn doc (enricher.items s)
         /\ e' = enricher.env s /\ lg = enricher.logged s).
Proof.
  unfold enricher.enrichDocument. destruct its as [|it its]; cbn [length Nat.eqb].
  - intros [= <- <- <-]. left. auto.
  - cbn zeta.
    destruct (enricher.processItemsParallel _ _ _ _ _ _ _) as [[s [err|]]|] eqn:Hp;
      try discriminate;
      apply processItemsParallel_Some in Hp as (-> & Hm & Herr); try discriminate.
    intros [= <- <- <-]. right. split; [discriminate|]. cbn zeta. auto.
Qed.

End EnrichRun.

Section Enrichers.

Context {bytes : Type}.
Variable json_read : bytes -> option json.
Variable json_write : json -> bytes.
Context {CS PS : Type}.
Variable prov : provider.Provider PS.
Variable cacheInstance : option (provider.Cache CS).
Variable cacheTTL : Duration.

(** What [SPDXEnricher.Enrich] returns when it returns. *)
Lemma SPDXEnricher_Enrich_Some sched (e : provider.world CS PS)
    (opts : enricher.Options bytes) r e' lg :
  enricher.SPDXEnricher_Enrich json_read json_write prov cacheInstance cacheTTL
    sched e opts = Some (r, e', lg) ->
  match enricher.ParseSBOMFile json_read (enricher.SBOM opts) with
  | enricher.Err err =>
      r = enricher.Err (WrapError "failed to parse SBOM file" err)
      /\ e' = e /\ lg = []
  | enricher.Ok doc =>
      let its := elems (spdx.Packages doc) in
      (its = [] /\ r = enricher.Ok (enricher.SBOM opts) /\ e' = e /\ lg = [])
      \/ (its ≠ []
          /\ let s := enricher.exec prov cacheInstance cacheTTL sched
                        (enricher.start its
                           (enricher.clamp (enricher.Parallelism opts)) e) in
             enricher.main s = enricher.Returned
             /\ r = enricher.Ok
                      (json_write
                         (spdx.encode_Document
                            {| spdx.SPDXVersion := spdx.SPDXVersion doc;
                               spdx.DocSPDXID := spdx.DocSPDXID doc;
                               spdx.Packages := Some (enricher.items s) |}))
             /\ e' = enricher.env s /\ lg = enricher.logged s)
  end.
Proof.
  unfold enricher.SPDXEnricher_Enrich.
  destruct (enricher.ParseSBOMFile json_read (enricher.SBOM opts)) as [doc|err].
  - intros Hrun. apply enrichDocument_Some in Hrun. exact Hrun.
  - intros [= <- <- <-]. auto.
Qed.

(** What [CycloneDXEnricher.Enrich] returns when it returns. *)
Lemma CycloneDXEnricher_Enrich_Some sched (e : provider.world CS PS)
    (opts : enricher.Options bytes) r e' lg :
  enricher.CycloneDXEnricher_Enrich json_read json_write prov cacheInstance cacheTTL
    sched e opts = Some (r, e', lg) ->
  match enricher.ParseCycloneDXFile json_read (enricher.SBOM opts) with
  | enricher.Err err =>
      r = enricher.Err (WrapError "failed to parse SBOM file" err)
      /\ e' = e /\ lg = []
  | enricher.Ok bom =>
      let its := cyclonedx.Components bom in
      (its = [] /\ r = enricher.Ok (enricher.SBOM opts) /\ e' = e /\ lg = [])
      \/ (its ≠ []
          /\ let s := enricher.exec prov cacheInstance cacheTTL sched
                        (enricher.start its
                           (enricher.clamp (enricher.Parallelism opts)) e) in
             enricher.main s = enricher.Returned
             /\ r = enricher.Ok
                      (json_write
                         (cyclonedx.encode_BOM
                            {| cyclonedx.BOMFormat := cyclonedx.BOMFormat bom;
                               cyclonedx.SpecVersion := cyclonedx.SpecVersion bom;
                               cyclonedx.Components := enricher.items s |}))
             /\ e' = enricher.env s /\ lg = enricher.logged s)
  end.
Proof.
  unfold enricher.CycloneDXEnricher_Enrich.
  destruct (enricher.ParseCycloneDXFile json_read (enricher.SBOM opts)) as [bom|err].
  - intros Hrun. apply enrichDocument_Some in Hrun. exact Hrun.
  - intros [= <- <- <-]. auto.
Qed.

End Enrichers.

(** What a pool that has returned has done with one item of its input. *)
Lemma returned_item {T : Type} `{enrichableItem T} {CS PS : Type}
    (prov : provider.Provider PS) (cacheInstance : option (provider.Cache CS))
    (cacheTTL : Duration) (sched : list enricher.thread) (its : list T)
    (parallelism : Z) (e : provider.world CS PS) (i : nat) (it : T) :
  let s := enricher.exec prov cacheInstance cacheTTL sched
             (enricher.start its parallelism e) in
  enricher.main s = enricher.Returned ->
  its !! i = Some it ->
  (forall p purlErr,
     GetPurl it = (p, Some purlErr) ->
     enricher.items s !! i = Some it
     /\ enricher.LogPurlError (GetLogID it) purlErr ∈ enricher.logged s)
  /\ (forall p,
        GetPurl it = (p, None) -> HasLicense it = false ->
        (0 < parallelism)%Z ->
        exists evs lic licErr,
          provider.yields
            (enricher.lookup_of prov cacheInstance cacheTTL
               (enricher.job_for i p)) evs (lic, licErr)
          /\ sublist evs (provider.calls (enricher.env s))
          /\ match licErr with
             | Some licenseErr =>
                 enricher.items s !! i = Some it
                 /\ enricher.LogLicenseError p (GetLogID it) licenseErr
                    ∈ enricher.logged s
             | None =>
                 enricher.items s !! i
                 = Some (if String.eqb lic "" then it else SetLicense it lic)
             end).
Proof.
  intros s Hret Hi. subst s.
  pose proof (reach_phase prov cacheInstance cacheTTL its parallelism e sched i it Hi)
    as Hph.
  split.
  - intros p purlErr Hp.
    pose proof (phase_no_purl prov cacheInstance cacheTTL _ _ _ _ _ Hp Hph)
      as [_ Hitem].
    split; [exact Hitem|].
    destruct Hph as [k Hm| | | | | |]; congruence.
  - intros p Hp Hlic Hpar.
    destruct (phase_returned prov cacheInstance cacheTTL i it _ Hret
                (reach_shutdown_ok prov cacheInstance cacheTTL its parallelism e sched))
      as [(p' & e' & Hp' & _)|[(p' & _ & Hlic' & _)|
          (p' & evs & lic & licErr & Hp' & _ & Hy & Hsub & Hout)]];
      [ rewrite exec_length_workers; lia | exact Hph | congruence | congruence | ].
    assert (p' = p) as -> by congruence.
    exists evs, lic, licErr. auto.
Qed.

(** C9.  (a) processItemsParallel never returns an error.  (b) An error of
    SPDXEnricher.Enrich or CycloneDXEnricher.Enrich is the error of parsing
    the document, and an error of enrichDocument is the error of the
    marshaller.  (c) When the pool returns, an item whose purl could not be
    extracted is as it was and the error is in the log; with at least one
    worker, an unlicensed item with a purl has been through a lookup whose
    calls are among the recorded calls: when that lookup failed the item is as
    it was and the error is in the log with the purl and the item id, when it
    returned no license the item is as it was, otherwise the license has been
    set.  (d) A failing lookup returns the error of the cache read, of the
    provider or of the cache write.  (e) No run of the pool has more than
    7 n + 2 + w steps for n items and w workers, and every schedule can be
    continued until the pool returns.  (f) With at least one item,
    enrichDocument returns what the marshaller makes of the slots the pool
    has left, with the world and the log of the pool.  (g) So a returning
    Enrich of a document that parses returns the input bytes when there are
    no items, and otherwise the document marshalled from the slots of the
    pool, with the log of the pool: for every item, (c) holds of the
    marshalled items and the returned log, the worker count being at least
    one.  (h) Every schedule can be continued until Enrich returns, and
    for a document that parses it returns successfully. *)
Theorem C9_item_failures_are_absorbed :
  forall (T : Type) (HT : enrichableItem T) (CS PS : Type)
         (prov : provider.Provider PS) (cacheInstance : option (provider.Cache CS))
         (cacheTTL : Duration),
    (forall sched (its : list T) parallelism (e : provider.world CS PS) s err,
       enricher.processItemsParallel prov cacheInstance cacheTTL sched its
         parallelism e = Some (s, err) ->
       err = None)
    /\ (forall (bytes D : Type) sched (e : provider.world CS PS)
               (opts : enricher.Options bytes) (doc : D) (its : list T)
               (marshalFn : D -> list T -> enricher.result bytes) x e' lg,
          enricher.enrichDocument sched e opts doc its prov cacheInstance cacheTTL
            marshalFn = Some (enricher.Err x, e', lg) ->
          exists its', marshalFn doc its' = enricher.Err x)
    /\ (forall (bytes : Type) (json_read : bytes -> option json)
               (json_write : json -> bytes) sched (e : provider.world CS PS)
               (opts : enricher.Options bytes) x e' lg,
          (enricher.SPDXEnricher_Enrich json_read json_write prov cacheInstance
             cacheTTL sched e opts = Some (enricher.Err x, e', lg) ->
           exists err,
             enricher.ParseSBOMFile json_read (enricher.SBOM opts) = enricher.Err err
             /\ x = WrapError "failed to parse SBOM file" err)
          /\ (enricher.CycloneDXEnricher_Enrich json_read json_write prov
                cacheInstance cacheTTL sched e opts = Some (enricher.Err x, e', lg) ->
              exists err,
                enricher.ParseCycloneDXFile json_read (enricher.SBOM opts)
                = enricher.Err err
                /\ x = WrapError "failed to parse SBOM file" err))
    /\ (forall sched (its : list T) parallelism (e : provider.world CS PS) s err
               (i : nat) (it : T),
          enricher.processItemsParallel prov cacheInstance cacheTTL sched its
            parallelism e = Some (s, err) ->
          its !! i = Some it ->
          (forall p purlErr,
             GetPurl it = (p, Some purlErr) ->
             enricher.items s !! i = Some it
             /\ enricher.LogPurlError (GetLogID it) purlErr ∈ enricher.logged s)
          /\ (forall p,
                GetPurl it = (p, None) -> HasLicense it = false ->
                (0 < parallelism)%Z ->
                exists evs lic licErr,
                  provider.yields
                    (enricher.lookup_of prov cacheInstance cacheTTL
                       (enricher.job_for i p)) evs (lic, licErr)
                  /\ sublist evs (provider.calls (enricher.env s))
                  /\ match licErr with
                     | Some licenseErr =>
                         enricher.items s !! i = Some it
                         /\ enricher.LogLicenseError p (GetLogID it) licenseErr
                            ∈ enricher.logged s
                     | None =>
                         enricher.items s !! i
                         = Some (if String.eqb lic "" then it else SetLicense it lic)
                     end))
    /\ (forall (opts : provider.GetOptions CS PS) evs lic licenseErr,
          provider.yields (provider.Get opts) evs (lic, Some licenseErr) ->
          lic = ""
          /\ exists cause,
               licenseErr = WrapError "failed to get license from cache" cause
               \/ licenseErr = WrapError "failed to get license from provider" cause
               \/ licenseErr = WrapError "failed to set license in cache" cause)
    /\ (forall sched (its : list T) parallelism (e : provider.world CS PS),
          (enricher.steps_taken prov cacheInstance cacheTTL sched
             (enricher.start its parallelism e)
           <= 7 * length its + 2 + Z.to_nat parallelism)%nat
          /\ exists more s,
               enricher.processItemsParallel prov cacheInstance cacheTTL
                 (sched ++ more) its parallelism e = Some (s, None))
    /\ (forall (bytes D : Type) sched (e : provider.world CS PS)
               (opts : enricher.Options bytes) (doc : D) (its : list T)
               (marshalFn : D -> list T -> enricher.result bytes) r e' lg,
          its ≠ [] ->
          enricher.enrichDocument sched e opts doc its prov cacheInstance cacheTTL
            marshalFn = Some (r, e', lg) ->
          exists s,
            enricher.processItemsParallel prov cacheInstance cacheTTL sched its
              (enricher.clamp (enricher.Parallelism opts)) e = Some (s, None)
            /\ r = marshalFn doc (enricher.items s)
            /\ e' = enricher.env s
            /\ lg = enricher.logged s)
    /\ (forall (bytes : Type) (json_read : bytes -> option json)
               (json_write : json -> bytes) sched (e : provider.world CS PS)
               (opts : enricher.Options bytes) (doc : spdx.Document) r e' lg,
          enricher.ParseSBOMFile json_read (enricher.SBOM opts) = enricher.Ok doc ->
          enricher.SPDXEnricher_Enrich json_read json_write prov cacheInstance
            cacheTTL sched e opts = Some (r, e', lg) ->
          (elems (spdx.Packages doc) = []
           /\ r = enricher.Ok (enricher.SBOM opts) /\ e' = e /\ lg = [])
          \/ exists pkgs,
               r = enricher.Ok
                     (json_write
                        (spdx.encode_Document
                           {| spdx.SPDXVersion := spdx.SPDXVersion doc;
                              spdx.DocSPDXID := spdx.DocSPDXID doc;
                              spdx.Packages := Some pkgs |}))
               /\ length pkgs = length (elems (spdx.Packages doc))
               /\ forall i pkg,
                    elems (spdx.Packages doc) !! i = Some pkg ->
                    (forall p purlErr,
                       GetPurl pkg = (p, Some purlErr) ->
                       pkgs !! i = Some pkg
                       /\ enricher.LogPurlError (GetLogID pkg) purlErr ∈ lg)
                    /\ (forall p,
                          GetPurl pkg = (p, None) -> HasLicense pkg = false ->
                          exists evs lic licErr,
                            provider.yields
                              (enricher.lookup_of prov cacheInstance cacheTTL
                                 (enricher.job_for i p)) evs (lic, licErr)
                            /\ sublist evs (provider.calls e')
                            /\ match licErr with
                               | Some licenseErr =>
                                   pkgs !! i = Some pkg
                                   /\ enricher.LogLicenseError p (GetLogID pkg)
                                        licenseErr ∈ lg
                               | None =>
                                   pkgs !! i
                                   = Some (if String.eqb lic "" then pkg
                                           else SetLicense pkg lic)
                               end))
    /\ (forall (bytes : Type) (json_read : bytes -> option json)
               (json_write : json -> bytes) sched (e : provider.world CS PS)
               (opts : enricher.Options bytes) (bom : cyclonedx.BOM) r e' lg,
          enricher.ParseCycloneDXFile json_read (enricher.SBOM opts) = enricher.Ok bom ->
          enricher.CycloneDXEnricher_Enrich json_read json_write prov cacheInstance
            cacheTTL sched e opts = Some (r, e', lg) ->
          (cyclonedx.Components bom = []
           /\ r = enricher.Ok (enricher.SBOM opts) /\ e' = e /\ lg = [])
          \/ exists components,
               r = enricher.Ok
                     (json_write
                        (cyclonedx.encode_BOM
                           {| cyclonedx.BOMFormat := cyclonedx.BOMFormat bom;
                              cyclonedx.SpecVersion := cyclonedx.SpecVersion bom;
                              cyclonedx.Components := components |}))
               /\ length components = length (cyclonedx.Components bom)
               /\ forall i c,
                    cyclonedx.Components bom !! i = Some c ->
                    HasLicense c = false ->
                    exists evs lic licErr,
                      provider.yields
                        (enricher.lookup_of prov cacheInstance cacheTTL
                           (enricher.job_for i (cyclonedx.Purl c))) evs (lic, licErr)
                      /\ sublist evs (provider.calls e')
                      /\ match licErr with
                         | Some licenseErr =>
                             components !! i = Some c
                             /\ enricher.LogLicenseError (cyclonedx.Purl c)
                                  (GetLogID c) licenseErr ∈ lg
                         | None =>
                             components !! i
                             = Some (if String.eqb lic "" then c
                                     else SetLicense c lic)
                         end)
    /\ (forall (bytes : Type) (json_read : bytes -> option json)
               (json_write : json -> bytes) sched (e : provider.world CS PS)
               (opts : enricher.Options bytes),
          (forall doc,
             enricher.ParseSBOMFile json_read (enricher.SBOM opts) = enricher.Ok doc ->
             exists more out e' lg,
               enricher.SPDXEnricher_Enrich json_read json_write prov cacheInstance
                 cacheTTL (sched ++ more) e opts = Some (enricher.Ok out, e', lg))
          /\ (forall bom,
                enricher.ParseCycloneDXFile json_read (enricher.SBOM opts)
                = enricher.Ok bom ->
                exists more out e' lg,
                  enricher.CycloneDXEnricher_Enrich json_read json_write prov
                    cacheInstance cacheTTL (sched ++ more) e opts
                  = Some (enricher.Ok out, e', lg))).
Proof.
  intros T HT CS PS prov cacheInstance cacheTTL.
  split; [|split; [|split; [|split; [|split; [|split; [|split; [|split; [|split]]]]]]]].
  - intros sched its parallelism e s err Hrun.
    apply processItemsParallel_Some in Hrun. tauto.
  - intros bytes D sched e opts doc its marshalFn x e' lg Hrun.
    apply enrichDocument_Some in Hrun.
    destruct Hrun as [(_ & [=] & _)|(_ & _ & Hr & _)]. eauto.
  - intros bytes json_read json_write sched e opts x e' lg. split.
    + intros Hrun. apply SPDXEnricher_Enrich_Some in Hrun.
      destruct (enricher.ParseSBOMFile json_read (enricher.SBOM opts)) as [doc|err].
      * destruct Hrun as [(_ & [=] & _)|(_ & _ & [=] & _)].
      * destruct Hrun as ([= ->] & _). eauto.
    + intros Hrun. apply CycloneDXEnricher_Enrich_Some in Hrun.
      destruct (enricher.ParseCycloneDXFile json_read (enricher.SBOM opts))
        as [bom|err].
      * destruct Hrun as [(_ & [=] & _)|(_ & _ & [=] & _)].
      * destruct Hrun as ([= ->] & _). eauto.
  - intros sched its parallelism e s err i it Hrun Hi.
    apply processItemsParallel_Some in Hrun as (-> & Hret & _).
    apply returned_item; assumption.
  - intros opts evs lic licenseErr Hy. eapply yields_Get_error. exact Hy.
  - intros sched its parallelism e. split.
    + apply steps_bounded. apply potential_start.
    + destruct (reach_completion prov cacheInstance cacheTTL its parallelism e sched)
        as [more Hmore].
      exists more. eexists. unfold enricher.processItemsParallel.
      rewrite Hmore. reflexivity.
  - intros bytes D sched e opts doc its marshalFn r e' lg Hne Hrun.
    apply enrichDocument_Some in Hrun.
    destruct Hrun as [(Hnil & _)|(_ & Hret & -> & -> & ->)]; [congruence|].
    eexists. split; [|repeat split].
    unfold enricher.processItemsParallel. rewrite Hret. reflexivity.
  - intros bytes json_read json_write sched e opts doc r e' lg Hparse Hrun.
    apply SPDXEnricher_Enrich_Some in Hrun. rewrite Hparse in Hrun.
    destruct Hrun as [Hnil|(_ & Hret & -> & -> & ->)]; [left; exact Hnil|].
    right. eexists. split; [reflexivity|].
    split; [apply exec_length_items|].
    intros i pkg Hi.
    destruct (returned_item prov cacheInstance cacheTTL sched
                (elems (spdx.Packages doc))
                (enricher.clamp (enricher.Parallelism opts)) e i pkg Hret Hi)
      as [Hpurl Hlookup].
    split; [exact Hpurl|].
    intros p Hp Hlic. apply Hlookup; [exact Hp|exact Hlic|].
    unfold enricher.clamp. destruct (enricher.Parallelism opts <=? 0)%Z eqn:E; lia.
  - intros bytes json_read json_write sched e opts bom r e' lg Hparse Hrun.
    apply CycloneDXEnricher_Enrich_Some in Hrun. rewrite Hparse in Hrun.
    destruct Hrun as [Hnil|(_ & Hret & -> & -> & ->)]; [left; exact Hnil|].
    right. eexists. split; [reflexivity|].
    split; [apply exec_length_items|].
    intros i c Hi Hlic.
    destruct (returned_item prov cacheInstance cacheTTL sched
                (cyclonedx.Components bom)
                (enricher.clamp (enricher.Parallelism opts)) e i c Hret Hi)
      as [_ Hlookup].
    apply Hlookup; [reflexivity|exact Hlic|].
    unfold enricher.clamp. destruct (enricher.Parallelism opts <=? 0)%Z eqn:E; lia.
  - intros bytes json_read json_write sched e opts. split.
    + intros doc Hparse.
      unfold enricher.SPDXEnricher_Enrich, enricher.enrichDocument.
      rewrite Hparse.
      destruct (Nat.eqb (length (elems (spdx.Packages doc))) 0).
      * exists []. eexists _, _, _. reflexivity.
      * destruct (reach_completion prov cacheInstance cacheTTL
                    (elems (spdx.Packages doc))
                    (enricher.clamp (enricher.Parallelism opts)) e sched)
          as [more Hmore].
        exists more. unfold enricher.processItemsParallel. rewrite Hmore.
        eexists _, _, _. reflexivity.
    + intros bom Hparse.
      unfold enricher.CycloneDXEnricher_Enrich, enricher.enrichDocument.
      rewrite Hparse.
      destruct (Nat.eqb (length (cyclonedx.Components bom)) 0).
      * exists []. eexists _, _, _. reflexivity.
      * destruct (reach_completion prov cacheInstance cacheTTL
                    (cyclonedx.Components bom)
                    (enricher.clamp (enricher.Parallelism opts)) e sched)
          as [more Hmore].
        exists more. unfold enricher.processItemsParallel. rewrite Hmore.
        eexists _, _, _. reflexivity.
Qed.

(** Scenario 7 with a package that has no purl beside it: the provider
    answers not-found for every purl.  The pool returns no error, both
    packages are as they were, and both failures are in the log.  Enrich
    on a document of these two packages (with a dataLicense member, which
    is not written) returns successfully the document marshalled from the
    two packages as they were, and its log holds both failures. *)
Lemma C9_item_failures_are_absorbed_witness :
  let not_found := WrapError "HTTP 404" ErrLicenseNotFound in
  let its := [fixtures.bare_package; fixtures.no_purl_package] in
  let run :=
    enricher.processItemsParallel (fixtures.answering ("", Some not_found))
      (Some (fixtures.memory_cache 1000)) 3600 (enricher.sequential_schedule 2 2)
      its 2 (fixtures.fresh_world MemoryCache.NewMemoryCache) in
  let enrich :=
    enricher.SPDXEnricher_Enrich fixtures.read_tree fixtures.write_tree
      (fixtures.answering ("", Some not_found))
      (Some (fixtures.memory_cache 1000)) 3600 (enricher.sequential_schedule 2 2)
      (fixtures.fresh_world MemoryCache.NewMemoryCache)
      (fixtures.options
         (fixtures.spdx_tree [("dataLicense", JString "CC0-1.0")] its) 2) in
  (exists s err,
     run = Some (s, err)
     /\ err = None
     /\ enricher.items s !! 1%nat = Some fixtures.no_purl_package
     /\ enricher.LogPurlError "SPDXRef-Package-local"
          (ErrorString "no PURL found for package with SPDX ID SPDXRef-Package-local")
        ∈ enricher.logged s
     /\ enricher.items s !! 0%nat = Some fixtures.bare_package
     /\ enricher.LogLicenseError "pkg:npm/express@4.17.1" "SPDXRef-Package-express"
          (WrapError "failed to get license from provider" not_found)
        ∈ enricher.logged s)
  /\ (exists e' lg,
        enrich
        = Some (enricher.Ok
                  (spdx.encode_Document
                     {| spdx.SPDXVersion := "SPDX-2.3";
                        spdx.DocSPDXID := "SPDXRef-DOCUMENT";
                        spdx.Packages := Some its |}), e', lg)
        /\ enricher.LogPurlError "SPDXRef-Package-local"
             (ErrorString "no PURL found for package with SPDX ID SPDXRef-Package-local")
           ∈ lg
        /\ enricher.LogLicenseError "pkg:npm/express@4.17.1" "SPDXRef-Package-express"
             (WrapError "failed to get license from provider" not_found)
           ∈ lg).
Proof.
  intros not_found its run enrich.
  destruct (C9_item_failures_are_absorbed spdx.Package _ MemoryCache.t nat
              (fixtures.answering ("", Some not_found))
              (Some (fixtures.memory_cache 1000)) 3600%Z)
    as (Hnil & _ & _ & Hitem & _ & _ & _ & Hspdx & _).
  split.
  - destruct run as [[s err]|] eqn:Hrun; [|vm_compute in Hrun; discriminate].
    exists s, err. split; [reflexivity|].
    split; [eapply Hnil; exact Hrun|].
    destruct (Hitem _ _ _ _ _ _ 1%nat fixtures.no_purl_package Hrun eq_refl)
      as [Hpurl _].
    destruct (Hpurl _ _ eq_refl) as [Hkept Hlogged].
    split; [exact Hkept|]. split; [exact Hlogged|].
    vm_compute in Hrun. injection Hrun as <- _.
    split; [reflexivity|]. right. left.
  - destruct enrich as [[[r e'] lg]|] eqn:Hrun; [|vm_compute in Hrun; discriminate].
    destruct (Hspdx json fixtures.read_tree fixtures.write_tree
                (enricher.sequential_schedule 2 2)
                (fixtures.fresh_world MemoryCache.NewMemoryCache)
                (fixtures.options
                   (fixtures.spdx_tree [("dataLicense", JString "CC0-1.0")] its) 2)
                {| spdx.SPDXVersion := "SPDX-2.3";
                   spdx.DocSPDXID := "SPDXRef-DOCUMENT";
                   spdx.Packages := Some its |}
                r e' lg eq_refl Hrun)
      as [(Hempty & _)|(pkgs & Hr & Hlen & Hitems)]; [discriminate Hempty|].
    destruct (Hitems 1%nat fixtures.no_purl_package eq_refl) as [Hpurl _].
    destruct (Hpurl _ _ eq_refl) as [_ Hlogged].
    exists e', lg. split; [|split; [exact Hlogged|]].
    + vm_compute in Hrun. injection Hrun as <- <- <-. reflexivity.
    + vm_compute in Hrun. injection Hrun as _ _ <-. right. left.
Defined.



(** ** Written documents read back *)

Lemma mapM_fmap_Some {A} (enc : A -> json) (dec : json -> option A) (l : list A) :
  (forall x, dec (enc x) = Some x) -> mapM dec (enc <$> l) = Some l.
Proof.
  intros Hrt. induction l as [|x l IH]; cbn; [reflexivity|].
  rewrite Hrt. cbn. rewrite IH. reflexivity.
Qed.

Lemma into_slice_of_slice {A} (enc : A -> json) (dec : json -> option A) (s : slice A) :
  (forall x, dec (enc x) = Some x) -> into_slice dec (of_slice enc s) = Some s.
Proof.
  intros Hrt. destruct s as [l|]; cbn; [|reflexivity].
  rewrite (mapM_fmap_Some enc dec l Hrt). reflexivity.
Qed.

(** The key tests of a decoder, on the keys an encoder writes. *)
Ltac eval_keys :=
  repeat match goal with
         | |- context [key_matches ?a ?b] =>
             let v := eval vm_compute in (key_matches a b) in
             change (key_matches a b) with v
         end;
  cbv iota.

Lemma decode_encode_ExternalRef (r : spdx.ExternalRef) :
  into_struct spdx.ExternalRef_set_field spdx.zero_ExternalRef (spdx.encode_ExternalRef r)
  = Some r.
Proof. destruct r. reflexivity. Qed.

Lemma decode_encode_Package (p : spdx.Package) :
  into_struct spdx.Package_set_field spdx.zero_Package (spdx.encode_Package p) = Some p.
Proof.
  destruct p as [id name ver home conc decl refs].
  unfold spdx.encode_Package, into_struct. cbn [foldl].
  match goal with
  | |- ?X ≫= _ = _ =>
      assert (HX : X = Some {| spdx.SPDXID := id; spdx.Name := name;
                               spdx.VersionInfo := ver; spdx.Homepage := home;
                               spdx.LicenseConcluded := conc;
                               spdx.LicenseDeclared := decl;
                               spdx.ExternalRefs := None |}) by reflexivity;
      rewrite HX
  end.
  cbn [mbind option_bind]. unfold spdx.Package_set_field. eval_keys.
  cbn [spdx.ExternalRefs].
  rewrite (into_slice_of_slice _ _ _ decode_encode_ExternalRef). reflexivity.
Qed.

Lemma decode_encode_Document (d : spdx.Document) :
  spdx.decode_Document (spdx.encode_Document d) = Some d.
Proof.
  destruct d as [ver id pkgs].
  unfold spdx.decode_Document, spdx.encode_Document, into_struct. cbn [foldl].
  match goal with
  | |- ?X ≫= _ = _ =>
      assert (HX : X = Some {| spdx.SPDXVersion := ver; spdx.DocSPDXID := id;
                               spdx.Packages := None |}) by reflexivity;
      rewrite HX
  end.
  cbn [mbind option_bind]. unfold spdx.Document_set_field. eval_keys.
  rewrite (into_slice_of_slice _ _ _ decode_encode_Package). reflexivity.
Qed.

Lemma decode_encode_ExternalReference (r : cyclonedx.ExternalReference) :
  into_struct cyclonedx.ExternalReference_set_field cyclonedx.zero_ExternalReference
    (cyclonedx.encode_ExternalReference r) = Some r.
Proof. destruct r. reflexivity. Qed.

Lemma decode_encode_License (l : cyclonedx.License) :
  into_pointer cyclonedx.License_set_field cyclonedx.zero_License
    (cyclonedx.encode_License l) = Some (Some l).
Proof.
  destruct l as [id name expr text].
  unfold cyclonedx.encode_License, cyclonedx.omitempty; cbn.
  destruct (String.eqb id "") eqn:Eid; [apply String.eqb_eq in Eid; subst id|];
    (destruct (String.eqb name "") eqn:Ename;
     [apply String.eqb_eq in Ename; subst name|]);
    (destruct (String.eqb expr "") eqn:Eexpr;
     [apply String.eqb_eq in Eexpr; subst expr|]);
    destruct text as [[content]|]; reflexivity.
Qed.

Lemma decode_encode_LicenseChoice (c : cyclonedx.LicenseChoice) :
  into_struct cyclonedx.LicenseChoice_set_field cyclonedx.zero_LicenseChoice
    (cyclonedx.encode_LicenseChoice c) = Some c.
Proof.
  destruct c as [license expr].
  unfold cyclonedx.encode_LicenseChoice, cyclonedx.omitempty, into_struct; cbn.
  destruct license as [l|];
    (destruct (String.eqb expr "") eqn:Eexpr;
     [apply String.eqb_eq in Eexpr; subst expr|]);
    cbn [app foldl mbind option_bind];
    unfold cyclonedx.LicenseChoice_set_field; eval_keys;
    rewrite ?decode_encode_License; reflexivity.
Qed.

Lemma decode_encode_Component (c : cyclonedx.Component) :
  into_struct cyclonedx.Component_set_field cyclonedx.zero_Component
    (cyclonedx.encode_Component c) = Some c.
Proof.
  destruct c as [ref name ver purl licenses refs].
  unfold cyclonedx.encode_Component, cyclonedx.omitempty, into_struct; cbn -[foldl].
  assert (Hhead :
    foldl (fun acc '(k, x) => a ← acc; cyclonedx.Component_set_field a k x)
      (Some cyclonedx.zero_Component)
      [("bom-ref", JString ref); ("name", JString name);
       ("version", JString ver); ("purl", JString purl)]
    = Some {| cyclonedx.BOMRef := ref; cyclonedx.Name := name;
              cyclonedx.Version := ver; cyclonedx.Purl := purl;
              cyclonedx.ComponentLicenses := [];
              cyclonedx.ExternalReferences := None |}) by reflexivity.
  destruct licenses as [|choice choices]; cbn [length Nat.eqb app].
  - change (foldl ?f ?a (?m1 :: ?m2 :: ?m3 :: ?m4 :: ?rest))
      with (foldl f (foldl f a [m1; m2; m3; m4]) rest).
    rewrite Hhead. cbn [foldl mbind option_bind].
    unfold cyclonedx.Component_set_field. eval_keys.
    rewrite (into_slice_of_slice _ _ _ decode_encode_ExternalReference).
    reflexivity.
  - change (foldl ?f ?a (?m1 :: ?m2 :: ?m3 :: ?m4 :: ?rest))
      with (foldl f (foldl f a [m1; m2; m3; m4]) rest).
    rewrite Hhead. cbn [foldl mbind option_bind].
    unfold cyclonedx.Component_set_field. eval_keys.
    change (JArray (cyclonedx.encode_LicenseChoice <$> choice :: choices))
      with (of_slice cyclonedx.encode_LicenseChoice (Some (choice :: choices))).
    rewrite (into_slice_of_slice _ _ _ decode_encode_LicenseChoice).
    cbn [mbind option_bind elems default
         cyclonedx.BOMRef cyclonedx.Name cyclonedx.Version cyclonedx.Purl
         cyclonedx.ComponentLicenses cyclonedx.ExternalReferences].
    eval_keys.
    rewrite (into_slice_of_slice _ _ _ decode_encode_ExternalReference).
    reflexivity.
Qed.

Lemma decode_encode_BOM (b : cyclonedx.BOM) :
  cyclonedx.decode_BOM (cyclonedx.encode_BOM b) = Some b.
Proof.
  destruct b as [format ver components].
  unfold cyclonedx.decode_BOM, cyclonedx.encode_BOM, cyclonedx.omitempty, into_struct;
    cbn -[foldl].
  destruct components as [|c cs]; cbn [length Nat.eqb app]; [reflexivity|].
  assert (Hhead :
    foldl (fun acc '(k, x) => a ← acc; cyclonedx.BOM_set_field a k x)
      (Some cyclonedx.zero_BOM)
      [("bomFormat", JString format); ("specVersion", JString ver)]
    = Some {| cyclonedx.BOMFormat := format; cyclonedx.SpecVersion := ver;
              cyclonedx.Components := [] |}) by reflexivity.
  change (foldl ?f ?a (?m1 :: ?m2 :: ?rest))
    with (foldl f (foldl f a [m1; m2]) rest).
  rewrite Hhead. cbn [foldl mbind option_bind].
  unfold cyclonedx.BOM_set_field. eval_keys.
  change (JArray (cyclonedx.encode_Component <$> c :: cs))
    with (of_slice cyclonedx.encode_Component (Some (c :: cs))).
  rewrite (into_slice_of_slice _ _ _ decode_encode_Component).
  reflexivity.
Qed.

Lemma phase_item {T : Type} `{enrichableItem T} {CS PS : Type}
    (prov : provider.Provider PS) (cacheInstance : option (provider.Cache CS))
    (cacheTTL : Duration) (i : nat) (it : T) (s : enricher.state T CS PS) :
  enricher.phase prov cacheInstance cacheTTL i it s ->
  enricher.items s !! i = Some it
  \/ exists lic,
       lic ≠ "" /\ HasLicense it = false
       /\ enricher.items s !! i = Some (SetLicense it lic).
Proof.
  intros Hph.
  destruct Hph as [| | | | | |p evs lic licErr Hp Hlic Hy Hsub Hpass Hc Hout]; auto.
  destruct licErr as [e|]; [left; tauto|].
  destruct (String.eqb_spec lic "") as [->|Hne]; [left; exact Hout|].
  right. exists lic. auto.
Qed.

(** C3.  When the item sequence of the parsed document is empty, Enrich
    returns at once, under any schedule, the bytes it was given: the value of
    opts.SBOM itself, not a text written from the parsed document (so an
    envelope around an SPDX document is still there), with no call to the
    cache or the provider and nothing logged.  This holds for enrichDocument
    with any item type, for SPDX documents without packages and for CycloneDX
    documents without components. *)
Theorem C3_empty_document_is_returned_unchanged :
  forall (bytes : Type) (json_read : bytes -> option json)
         (json_write : json -> bytes) (CS PS : Type)
         (prov : provider.Provider PS) (cacheInstance : option (provider.Cache CS))
         (cacheTTL : Duration) (sched : list enricher.thread)
         (e : provider.world CS PS) (opts : enricher.Options bytes),
    (forall (T D : Type) (HT : enrichableItem T) (doc : D)
            (marshalFn : D -> list T -> enricher.result bytes),
       enricher.enrichDocument sched e opts doc [] prov cacheInstance cacheTTL marshalFn
       = Some (enricher.Ok (enricher.SBOM opts), e, []))
    /\ (forall doc,
          enricher.ParseSBOMFile json_read (enricher.SBOM opts) = enricher.Ok doc ->
          elems (spdx.Packages doc) = [] ->
          enricher.SPDXEnricher_Enrich json_read json_write prov cacheInstance cacheTTL
            sched e opts = Some (enricher.Ok (enricher.SBOM opts), e, []))
    /\ (forall bom,
          enricher.ParseCycloneDXFile json_read (enricher.SBOM opts) = enricher.Ok bom ->
          cyclonedx.Components bom = [] ->
          enricher.CycloneDXEnricher_Enrich json_read json_write prov cacheInstance
            cacheTTL sched e opts = Some (enricher.Ok (enricher.SBOM opts), e, [])).
Proof.
  intros bytes json_read json_write CS PS prov cacheInstance cacheTTL sched e opts.
  split; [|split].
  - intros T D HT doc marshalFn. reflexivity.
  - intros doc Hparse Hnil. unfold enricher.SPDXEnricher_Enrich.
    rewrite Hparse, Hnil. reflexivity.
  - intros bom Hparse Hnil. unfold enricher.CycloneDXEnricher_Enrich.
    rewrite Hparse, Hnil. reflexivity.
Qed.

(** Scenarios 5 and 6: an SPDX document without packages inside the GitHub
    envelope is returned with its envelope; the same envelope around a
    document with one package is gone from the output. *)
Lemma C3_empty_document_is_returned_unchanged_witness :
  let enrich tree sched :=
    enricher.SPDXEnricher_Enrich fixtures.read_tree fixtures.write_tree
      (fixtures.answering ("MIT", None)) (Some (fixtures.memory_cache 1000)) 3600
      sched (fixtures.fresh_world MemoryCache.NewMemoryCache)
      (fixtures.options tree 2) in
  let empty := JObject [("sbom", fixtures.spdx_tree [] [])] in
  let full := JObject [("sbom", fixtures.spdx_tree [] [fixtures.bare_package])] in
  enrich empty []
  = Some (enricher.Ok empty, fixtures.fresh_world MemoryCache.NewMemoryCache, [])
  /\ exists out e' lg,
       enrich full (enricher.sequential_schedule 1 2) = Some (enricher.Ok out, e', lg)
       /\ out = fixtures.spdx_tree []
                  [SetLicense fixtures.bare_package "MIT"].
Proof.
  intros enrich empty full. split.
  - destruct (C3_empty_document_is_returned_unchanged json fixtures.read_tree
                fixtures.write_tree MemoryCache.t nat
                (fixtures.answering ("MIT", None))
                (Some (fixtures.memory_cache 1000)) 3600%Z []
                (fixtures.fresh_world MemoryCache.NewMemoryCache)
                (fixtures.options empty 2)) as (_ & Hspdx & _).
    apply (Hspdx {| spdx.SPDXVersion := "SPDX-2.3";
                    spdx.DocSPDXID := "SPDXRef-DOCUMENT";
                    spdx.Packages := Some [] |}); reflexivity.
  - eexists _, _, _. split; vm_compute; reflexivity.
Defined.

Lemma UnwrapGitHubSBOM_written {bytes : Type} (json_read : bytes -> option json)
    (data : bytes) (d : spdx.Document) :
  json_read data = Some (spdx.encode_Document d) ->
  enricher.UnwrapGitHubSBOM json_read data = enricher.Ok (spdx.encode_Document d).
Proof.
  intros Hread. unfold enricher.UnwrapGitHubSBOM. rewrite Hread. reflexivity.
Qed.

(** C5, as amended.  For an input that parses as SPDX, a returning Enrich
    either returns the input bytes themselves (no packages), or writes the
    three members spdxVersion, SPDXID and packages of the minimal structs and
    nothing else: the written document has the spdxVersion and SPDXID of the
    input, decodes back to itself (so it parses as SPDX with the same
    spdxVersion once the written text is read back), has as many packages as
    the input, and every package has the SPDXID, name, versionInfo, homepage
    and externalRefs it was parsed with and is either untouched or the result
    of SetLicense on a package that had no license.  Likewise for CycloneDX
    with bomFormat, specVersion and components, whose components keep
    bom-ref, name, version, purl and externalReferences.  Members of the
    input outside the minimal structs are not written. *)
Theorem C5_round_trip_of_modelled_fields :
  forall (bytes : Type) (json_read : bytes -> option json)
         (json_write : json -> bytes) (CS PS : Type)
         (prov : provider.Provider PS) (cacheInstance : option (provider.Cache CS))
         (cacheTTL : Duration) (sched : list enricher.thread)
         (e : provider.world CS PS) (opts : enricher.Options bytes) r e' lg,
    (forall doc,
       enricher.ParseSBOMFile json_read (enricher.SBOM opts) = enricher.Ok doc ->
       enricher.SPDXEnricher_Enrich json_read json_write prov cacheInstance cacheTTL
         sched e opts = Some (r, e', lg) ->
       (elems (spdx.Packages doc) = [] /\ r = enricher.Ok (enricher.SBOM opts))
       \/ exists pkgs,
            let doc' := {| spdx.SPDXVersion := spdx.SPDXVersion doc;
                           spdx.DocSPDXID := spdx.DocSPDXID doc;
                           spdx.Packages := Some pkgs |} in
            r = enricher.Ok (json_write (spdx.encode_Document doc'))
            /\ spdx.decode_Document (spdx.encode_Document doc') = Some doc'
            /\ (json_read (json_write (spdx.encode_Document doc'))
                = Some (spdx.encode_Document doc') ->
                enricher.ParseSBOMFile json_read
                  (json_write (spdx.encode_Document doc')) = enricher.Ok doc')
            /\ length pkgs = length (elems (spdx.Packages doc))
            /\ forall i pkg,
                 elems (spdx.Packages doc) !! i = Some pkg ->
                 exists pkg',
                   pkgs !! i = Some pkg'
                   /\ spdx.SPDXID pkg' = spdx.SPDXID pkg
                   /\ spdx.Name pkg' = spdx.Name pkg
                   /\ spdx.VersionInfo pkg' = spdx.VersionInfo pkg
                   /\ spdx.Homepage pkg' = spdx.Homepage pkg
                   /\ spdx.ExternalRefs pkg' = spdx.ExternalRefs pkg
                   /\ (pkg' = pkg
                       \/ exists lic,
                            lic ≠ "" /\ HasLicense pkg = false
                            /\ pkg' = SetLicense pkg lic))
    /\ (forall bom,
          enricher.ParseCycloneDXFile json_read (enricher.SBOM opts) = enricher.Ok bom ->
          enricher.CycloneDXEnricher_Enrich json_read json_write prov cacheInstance
            cacheTTL sched e opts = Some (r, e', lg) ->
          (cyclonedx.Components bom = [] /\ r = enricher.Ok (enricher.SBOM opts))
          \/ exists components,
               let bom' := {| cyclonedx.BOMFormat := cyclonedx.BOMFormat bom;
                              cyclonedx.SpecVersion := cyclonedx.SpecVersion bom;
                              cyclonedx.Components := components |} in
               r = enricher.Ok (json_write (cyclonedx.encode_BOM bom'))
               /\ cyclonedx.decode_BOM (cyclonedx.encode_BOM bom') = Some bom'
               /\ (json_read (json_write (cyclonedx.encode_BOM bom'))
                   = Some (cyclonedx.encode_BOM bom') ->
                   enricher.ParseCycloneDXFile json_read
                     (json_write (cyclonedx.encode_BOM bom')) = enricher.Ok bom')
               /\ length components = length (cyclonedx.Components bom)
               /\ forall i c,
                    cyclonedx.Components bom !! i = Some c ->
                    exists c',
                      components !! i = Some c'
                      /\ cyclonedx.BOMRef c' = cyclonedx.BOMRef c
                      /\ cyclonedx.Name c' = cyclonedx.Name c
                      /\ cyclonedx.Version c' = cyclonedx.Version c
                      /\ cyclonedx.Purl c' = cyclonedx.Purl c
                      /\ cyclonedx.ExternalReferences c'
                         = cyclonedx.ExternalReferences c
                      /\ (c' = c
                          \/ exists lic,
                               lic ≠ "" /\ HasLicense c = false
                               /\ c' = SetLicense c lic)).
Proof.
  intros bytes json_read json_write CS PS prov cacheInstance cacheTTL sched e opts
    r e' lg.
  split.
  - intros doc Hparse Hrun.
    apply SPDXEnricher_Enrich_Some in Hrun. rewrite Hparse in Hrun.
    destruct Hrun as [(Hnil & -> & _)|(_ & _ & -> & _)]; [left; auto|].
    right. eexists. cbn zeta. split; [reflexivity|].
    split; [apply decode_encode_Document|].
    split.
    { intros Hread. unfold enricher.ParseSBOMFile.
      rewrite (UnwrapGitHubSBOM_written _ _ _ Hread).
      rewrite decode_encode_Document. reflexivity. }
    split; [apply exec_length_items|].
    intros i pkg Hi.
    destruct (phase_item _ _ _ _ _ _
                (reach_phase prov cacheInstance cacheTTL _
                   (enricher.clamp (enricher.Parallelism opts)) e sched i pkg Hi))
      as [Hsame|(lic & Hne & Hlic & Hset)].
    + exists pkg. repeat split; auto.
    + exists (SetLicense pkg lic). repeat split; auto.
      right. exists lic. auto.
  - intros bom Hparse Hrun.
    apply CycloneDXEnricher_Enrich_Some in Hrun. rewrite Hparse in Hrun.
    destruct Hrun as [(Hnil & -> & _)|(_ & _ & -> & _)]; [left; auto|].
    right. eexists. cbn zeta. split; [reflexivity|].
    split; [apply decode_encode_BOM|].
    split.
    { intros Hread. unfold enricher.ParseCycloneDXFile.
      rewrite Hread. cbn [mbind option_bind].
      rewrite decode_encode_BOM. reflexivity. }
    split; [apply exec_length_items|].
    intros i c Hi.
    destruct (phase_item _ _ _ _ _ _
                (reach_phase prov cacheInstance cacheTTL _
                   (enricher.clamp (enricher.Parallelism opts)) e sched i c Hi))
      as [Hsame|(lic & Hne & Hlic & Hset)].
    + exists c. repeat split; auto.
    + exists (SetLicense c lic). repeat split; auto.
      right. exists lic. auto.
Qed.

(** Scenario 1 and 4: the document identity and the untouched fields of the
    package and of the component survive, the license is added. *)
Lemma C5_round_trip_of_modelled_fields_witness :
  let spdx_in := fixtures.spdx_tree [] [fixtures.bare_package] in
  let bom_in := fixtures.bom_tree [] [fixtures.lodash] in
  let run_spdx :=
    enricher.SPDXEnricher_Enrich fixtures.read_tree fixtures.write_tree
      (fixtures.answering ("MIT", None)) (@None (provider.Cache unit)) 3600
      (enricher.sequential_schedule 1 1) (fixtures.fresh_world tt)
      (fixtures.options spdx_in 1) in
  let run_bom :=
    enricher.CycloneDXEnricher_Enrich fixtures.read_tree fixtures.write_tree
      (fixtures.answering ("MIT", None)) (@None (provider.Cache unit)) 3600
      (enricher.sequential_schedule 1 1) (fixtures.fresh_world tt)
      (fixtures.options bom_in 1) in
  (exists r e' lg pkgs,
     run_spdx = Some (r, e', lg)
     /\ r = enricher.Ok
              (spdx.encode_Document
                 {| spdx.SPDXVersion := "SPDX-2.3";
                    spdx.DocSPDXID := "SPDXRef-DOCUMENT";
                    spdx.Packages := Some pkgs |})
     /\ length pkgs = 1%nat)
  /\ (exists r e' lg components,
        run_bom = Some (r, e', lg)
        /\ r = enricher.Ok
                 (cyclonedx.encode_BOM
                    {| cyclonedx.BOMFormat := "CycloneDX";
                       cyclonedx.SpecVersion := "1.5";
                       cyclonedx.Components := components |})
        /\ length components = 1%nat).
Proof.
  intros spdx_in bom_in run_spdx run_bom. split.
  - destruct run_spdx as [[[r e'] lg]|] eqn:Hrun; [|vm_compute in Hrun; discriminate].
    destruct (C5_round_trip_of_modelled_fields json fixtures.read_tree
                fixtures.write_tree unit nat (fixtures.answering ("MIT", None)) None
                3600%Z (enricher.sequential_schedule 1 1) (fixtures.fresh_world tt)
                (fixtures.options spdx_in 1)
                r e' lg) as [Hspdx _].
    destruct (Hspdx {| spdx.SPDXVersion := "SPDX-2.3";
                       spdx.DocSPDXID := "SPDXRef-DOCUMENT";
                       spdx.Packages := Some [fixtures.bare_package] |}
                eq_refl Hrun) as [[Hnil _]|(pkgs & Hr & _ & _ & Hlen & _)];
      [discriminate Hnil|].
    exists r, e', lg, pkgs. auto.
  - destruct run_bom as [[[r e'] lg]|] eqn:Hrun; [|vm_compute in Hrun; discriminate].
    destruct (C5_round_trip_of_modelled_fields json fixtures.read_tree
                fixtures.write_tree unit nat (fixtures.answering ("MIT", None)) None
                3600%Z (enricher.sequential_schedule 1 1) (fixtures.fresh_world tt)
                (fixtures.options bom_in 1)
                r e' lg) as [_ Hbom].
    destruct (Hbom {| cyclonedx.BOMFormat := "CycloneDX";
                      cyclonedx.SpecVersion := "1.5";
                      cyclonedx.Components := [fixtures.lodash] |}
                eq_refl Hrun) as [[Hnil _]|(components & Hr & _ & _ & Hlen & _)];
      [discriminate Hnil|].
    exists r, e', lg, components. auto.
Defined.

(** The claim as stated fails for a field outside the minimal structs: the
    input parses as SPDX and carries dataLicense, which the engine never
    touches; the output (one package, already licensed, so that no lookup is
    made) has no dataLicense member.  The same happens to the metadata of a
    CycloneDX document. *)
Lemma C5_counterexample_unmodelled_field_is_dropped :
  let spdx_in :=
    fixtures.spdx_tree [("dataLicense", JString "CC0-1.0")] [fixtures.apache_package] in
  let bom_in :=
    fixtures.bom_tree [("metadata", JObject [("timestamp", JString "2024-01-01")])]
      [fixtures.lodash] in
  let members v := match v with JObject m => m | _ => [] end in
  let written r :=
    match r with
    | Some (enricher.Ok out, _, _) => Some (members out)
    | _ => None
    end in
  (exists doc, enricher.ParseSBOMFile fixtures.read_tree spdx_in = enricher.Ok doc)
  /\ member "dataLicense" (members spdx_in) = Some (JString "CC0-1.0")
  /\ (member "dataLicense" <$>
      written
        (enricher.SPDXEnricher_Enrich fixtures.read_tree fixtures.write_tree
           (fixtures.answering ("MIT", None)) (@None (provider.Cache unit)) 3600
           (enricher.sequential_schedule 1 1) (fixtures.fresh_world tt)
           (fixtures.options spdx_in 1)))
     = Some None
  /\ (exists bom,
        enricher.ParseCycloneDXFile fixtures.read_tree bom_in = enricher.Ok bom)
  /\ member "metadata" (members bom_in)
     = Some (JObject [("timestamp", JString "2024-01-01")])
  /\ (member "metadata" <$>
      written
        (enricher.CycloneDXEnricher_Enrich fixtures.read_tree fixtures.write_tree
           (fixtures.answering ("MIT", None)) (@None (provider.Cache unit)) 3600
           (enricher.sequential_schedule 1 1) (fixtures.fresh_world tt)
           (fixtures.options bom_in 1)))
     = Some None.
Proof.
  cbn zeta. split; [eexists; vm_compute; reflexivity|].
  split; [vm_compute; reflexivity|].
  split; [vm_compute; reflexivity|].
  split; [eexists; vm_compute; reflexivity|].
  split; vm_compute; reflexivity.
Qed.

(** C1, as amended.  An item whose HasLicense() is true when the run starts
    is never modified: in every state of every run of the pool its slot
    holds what it held at the start and no worker is inside a lookup for it
    (the worker that receives its job goes back to the queue after the
    check), whatever the provider and the cache would answer.  The document
    Enrich returns has, at the position of the item, the item as it was
    parsed, written from the minimal structs.  For an SPDX package the
    members licenseConcluded and licenseDeclared of the written package are
    the strings that were parsed, and the written package reads back as the
    parsed one.  For a CycloneDX component the member licenses of the
    written component is the array of the parsed license choices written
    from LicenseChoice, License and LicenseText: it reads back as the parsed
    choices, and a written license object has no member but id, name,
    expression and text. *)
Theorem C1_licensed_items_are_not_modified :
  (forall (T : Type) (HT : enrichableItem T) (CS PS : Type)
          (prov : provider.Provider PS) (cacheInstance : option (provider.Cache CS))
          (cacheTTL : Duration) (its : list T) (parallelism : Z)
          (e : provider.world CS PS) (sched : list enricher.thread)
          (i : nat) (it : T),
     its !! i = Some it -> HasLicense it = true ->
     let s := enricher.exec prov cacheInstance cacheTTL sched
                (enricher.start its parallelism e) in
     enricher.items s !! i = Some it
     /\ (forall w j q, enricher.workers s !! w = Some (enricher.Looking j q) ->
                       enricher.job_item j ≠ i))
  /\ (forall (bytes : Type) (json_read : bytes -> option json)
             (json_write : json -> bytes) (CS PS : Type)
             (prov : provider.Provider PS)
             (cacheInstance : option (provider.Cache CS)) (cacheTTL : Duration)
             (sched : list enricher.thread) (e : provider.world CS PS)
             (opts : enricher.Options bytes) (doc : spdx.Document)
             (i : nat) (pkg : spdx.Package) r e' lg,
        enricher.ParseSBOMFile json_read (enricher.SBOM opts) = enricher.Ok doc ->
        elems (spdx.Packages doc) !! i = Some pkg ->
        HasLicense pkg = true ->
        enricher.SPDXEnricher_Enrich json_read json_write prov cacheInstance cacheTTL
          sched e opts = Some (r, e', lg) ->
        exists pkgs,
          let out := spdx.encode_Document
                       {| spdx.SPDXVersion := spdx.SPDXVersion doc;
                          spdx.DocSPDXID := spdx.DocSPDXID doc;
                          spdx.Packages := Some pkgs |} in
          r = enricher.Ok (json_write out)
          /\ pkgs !! i = Some pkg
          /\ tree.packages out !! i = Some (spdx.encode_Package pkg)
          /\ tree.field "licenseConcluded" (spdx.encode_Package pkg)
             = Some (JString (spdx.LicenseConcluded pkg))
          /\ tree.field "licenseDeclared" (spdx.encode_Package pkg)
             = Some (JString (spdx.LicenseDeclared pkg))
          /\ into_struct spdx.Package_set_field spdx.zero_Package
               (spdx.encode_Package pkg) = Some pkg)
  /\ (forall (bytes : Type) (json_read : bytes -> option json)
             (json_write : json -> bytes) (CS PS : Type)
             (prov : provider.Provider PS)
             (cacheInstance : option (provider.Cache CS)) (cacheTTL : Duration)
             (sched : list enricher.thread) (e : provider.world CS PS)
             (opts : enricher.Options bytes) (bom : cyclonedx.BOM)
             (i : nat) (c : cyclonedx.Component) r e' lg,
        enricher.ParseCycloneDXFile json_read (enricher.SBOM opts) = enricher.Ok bom ->
        cyclonedx.Components bom !! i = Some c ->
        HasLicense c = true ->
        enricher.CycloneDXEnricher_Enrich json_read json_write prov cacheInstance
          cacheTTL sched e opts = Some (r, e', lg) ->
        exists components,
          let out := cyclonedx.encode_BOM
                       {| cyclonedx.BOMFormat := cyclonedx.BOMFormat bom;
                          cyclonedx.SpecVersion := cyclonedx.SpecVersion bom;
                          cyclonedx.Components := components |} in
          let licenses :=
            JArray (cyclonedx.encode_LicenseChoice <$> cyclonedx.ComponentLicenses c) in
          r = enricher.Ok (json_write out)
          /\ components !! i = Some c
          /\ tree.components out !! i = Some (cyclonedx.encode_Component c)
          /\ tree.field "licenses" (cyclonedx.encode_Component c) = Some licenses
          /\ into_slice
               (into_struct cyclonedx.LicenseChoice_set_field
                  cyclonedx.zero_LicenseChoice) licenses
             = Some (Some (cyclonedx.ComponentLicenses c))
          /\ (forall choice l key v,
                choice ∈ cyclonedx.ComponentLicenses c ->
                cyclonedx.ChoiceLicense choice = Some l ->
                (key, v) ∈ tree.members (cyclonedx.encode_License l) ->
                key ∈ ["id"; "name"; "expression"; "text"])).
Proof.
  split; [|split].
  - intros. apply reach_licensed; assumption.
  - intros bytes json_read json_write CS PS prov cacheInstance cacheTTL sched e
      opts doc i pkg r e' lg Hparse Hi Hlic Hrun.
    apply SPDXEnricher_Enrich_Some in Hrun. rewrite Hparse in Hrun.
    destruct Hrun as [(Hnil & _)|(_ & _ & -> & _)].
    + rewrite Hnil in Hi. discriminate.
    + eexists. cbn zeta. split; [reflexivity|].
      assert (Hslot : enricher.items
                        (enricher.exec prov cacheInstance cacheTTL sched
                           (enricher.start (elems (spdx.Packages doc))
                              (enricher.clamp (enricher.Parallelism opts)) e)) !! i
                      = Some pkg)
        by (apply reach_licensed; assumption).
      split; [exact Hslot|].
      split.
      { unfold tree.packages, tree.field. cbn.
        rewrite list_lookup_fmap, Hslot. reflexivity. }
      split; [reflexivity|]. split; [reflexivity|].
      apply decode_encode_Package.
  - intros bytes json_read json_write CS PS prov cacheInstance cacheTTL sched e
      opts bom i c r e' lg Hparse Hi Hlic Hrun.
    apply CycloneDXEnricher_Enrich_Some in Hrun. rewrite Hparse in Hrun.
    destruct Hrun as [(Hnil & _)|(_ & _ & -> & _)].
    + rewrite Hnil in Hi. discriminate.
    + eexists. cbn zeta. split; [reflexivity|].
      assert (Hslot : enricher.items
                        (enricher.exec prov cacheInstance cacheTTL sched
                           (enricher.start (cyclonedx.Components bom)
                              (enricher.clamp (enricher.Parallelism opts)) e)) !! i
                      = Some c)
        by (apply reach_licensed; assumption).
      split; [exact Hslot|].
      split.
      { unfold tree.components, tree.field, cyclonedx.encode_BOM.
        cbn [cyclonedx.BOMFormat cyclonedx.SpecVersion cyclonedx.Components].
        destruct (enricher.items _) as [|c0 cs] eqn:Hitems; [discriminate Hslot|].
        cbn.
        change (cyclonedx.encode_Component c0
                :: (cyclonedx.encode_Component <$> cs))
          with (cyclonedx.encode_Component <$> (c0 :: cs)).
        rewrite list_lookup_fmap, Hslot. reflexivity. }
      assert (Hne : cyclonedx.ComponentLicenses c ≠ []).
      { intros Hnil. cbn in Hlic.
        unfold cyclonedx.Component_HasLicense, cyclonedx.HasComponentLicense in Hlic.
        rewrite Hnil in Hlic. discriminate Hlic. }
      split.
      { unfold tree.field, cyclonedx.encode_Component.
        destruct (cyclonedx.ComponentLicenses c) as [|l0 ls]; [congruence|].
        reflexivity. }
      split.
      { cbn [into_slice].
        rewrite (mapM_fmap_Some _ _ _ decode_encode_LicenseChoice). reflexivity. }
      intros choice l key v _ _ Hin.
      unfold cyclonedx.encode_License, cyclonedx.omitempty in Hin.
      cbn [tree.members] in Hin.
      destruct (String.eqb (cyclonedx.ID l) ""),
               (String.eqb (cyclonedx.LicenseName l) ""),
               (String.eqb (cyclonedx.LicenseExpression l) ""),
               (cyclonedx.Text l);
        cbn in Hin;
        repeat (apply elem_of_cons in Hin as [Hin|Hin];
                [injection Hin as -> _; repeat constructor|]);
        apply elem_of_nil in Hin; destruct Hin.
Qed.

(** Scenario 3: one package with licenseConcluded Apache-2.0, a provider
    that answers MIT for every purl.  The package is written as it was read,
    licenseConcluded is still Apache-2.0, and the provider has not been
    called. *)
Lemma C1_licensed_items_are_not_modified_witness :
  let opts := fixtures.options (fixtures.spdx_tree [] [fixtures.apache_package]) 2 in
  let run :=
    enricher.SPDXEnricher_Enrich fixtures.read_tree fixtures.write_tree
      (fixtures.answering ("MIT", None)) (Some (fixtures.memory_cache 1000)) 3600
      (enricher.sequential_schedule 1 2)
      (fixtures.fresh_world MemoryCache.NewMemoryCache) opts in
  exists out e' lg,
    run = Some (enricher.Ok out, e', lg)
    /\ tree.packages out !! 0%nat = Some (spdx.encode_Package fixtures.apache_package)
    /\ tree.field "licenseConcluded" (spdx.encode_Package fixtures.apache_package)
       = Some (JString "Apache-2.0")
    /\ provider.provider_st e' = 0%nat.
Proof.
  intros opts run.
  destruct run as [[[r e'] lg]|] eqn:Hrun; [|vm_compute in Hrun; discriminate].
  destruct C1_licensed_items_are_not_modified as (_ & Hspdx & _).
  destruct (Hspdx _ fixtures.read_tree fixtures.write_tree _ _ _ _ _ _ _ opts
              {| spdx.SPDXVersion := "SPDX-2.3";
                 spdx.DocSPDXID := "SPDXRef-DOCUMENT";
                 spdx.Packages := Some [fixtures.apache_package] |}
              0%nat fixtures.apache_package r e' lg
              eq_refl eq_refl eq_refl Hrun)
    as (pkgs & Hr & Hp & Hout & Hconcluded & _).
  eexists _, e', lg. split; [rewrite Hr; reflexivity|].
  split; [exact Hout|]. split; [exact Hconcluded|].
  vm_compute in Hrun. injection Hrun as _ <- _. reflexivity.
Defined.

(** The claim as stated fails for a licensed CycloneDX component whose
    license object has a member outside the minimal structs: the component
    has a license (id MIT), so it is skipped, but the licenses array of the
    output is written from the parsed structs and has lost the member url of
    the input. *)
Lemma C1_counterexample_license_member_is_dropped :
  let licenses_in :=
    JArray [JObject [("license",
                      JObject [("id", JString "MIT");
                               ("url", JString "https://opensource.org/licenses/MIT")])]] in
  let licenses_out :=
    JArray [JObject [("license", JObject [("id", JString "MIT")])]] in
  let bom_in :=
    JObject [("bomFormat", JString "CycloneDX");
             ("specVersion", JString "1.5");
             ("components",
              JArray [JObject [("bom-ref", JString "lodash");
                               ("name", JString "lodash");
                               ("version", JString "4.17.21");
                               ("purl", JString "pkg:npm/lodash@4.17.21");
                               ("licenses", licenses_in)]])] in
  let run :=
    enricher.CycloneDXEnricher_Enrich fixtures.read_tree fixtures.write_tree
      (fixtures.answering ("Apache-2.0", None)) (@None (provider.Cache unit)) 3600
      (enricher.sequential_schedule 1 1) (fixtures.fresh_world tt)
      (fixtures.options bom_in 1) in
  (exists bom c,
     enricher.ParseCycloneDXFile fixtures.read_tree bom_in = enricher.Ok bom
     /\ cyclonedx.Components bom !! 0%nat = Some c
     /\ HasLicense c = true)
  /\ (tree.field "licenses" <$> tree.components bom_in !! 0%nat)
     = Some (Some licenses_in)
  /\ (exists out e' lg,
        run = Some (enricher.Ok out, e', lg)
        /\ (tree.field "licenses" <$> tree.components out !! 0%nat)
           = Some (Some licenses_out))
  /\ licenses_out ≠ licenses_in.
Proof.
  cbn zeta. split; [eexists _, _; vm_compute; repeat split; reflexivity|].
  split; [vm_compute; reflexivity|].
  split; [eexists _, _, _; vm_compute; split; reflexivity|].
  discriminate.
Qed.

(** * Further properties *)

(** ** The cache interface *)

Lemma perform_all_closed_memory (c : MemoryCache.t) (xs : list cache.call) :
  MemoryCache.closed c = true ->
  cache.perform_all c xs = (cache.refused <$> xs, c).
Proof.
  intros Hc. induction xs as [|x xs IH]; [reflexivity|].
  cbn [cache.perform_all fmap list_fmap].
  assert (Hx : cache.perform c x = (cache.refused x, c)).
  { destruct x; cbn;
      unfold MemoryCache.Get, MemoryCache.SetWithTTL, MemoryCache.Delete,
        MemoryCache.Close; rewrite Hc; reflexivity. }
  rewrite Hx, IH. reflexivity.
Qed.

Lemma perform_all_closed_bbolt (c : BboltCache.t) (xs : list cache.call) :
  BboltCache.closed c = true ->
  cache.perform_all c xs = (cache.refused <$> xs, c).
Proof.
  intros Hc. induction xs as [|x xs IH]; [reflexivity|].
  cbn [cache.perform_all fmap list_fmap].
  assert (Hx : cache.perform c x = (cache.refused x, c)).
  { destruct x; cbn;
      unfold BboltCache.Get, BboltCache.SetWithTTL, BboltCache.Delete,
        BboltCache.Close; rewrite Hc; reflexivity. }
  rewrite Hx, IH. reflexivity.
Qed.

(** X1.  Once closed, a cache of either backend stays closed: Close returns no
    error, and whatever calls follow, every Get, SetWithTTL and Delete is
    answered with ErrCacheClosed, every further Close with no error, and the
    cache value stays as the first Close left it. *)
Theorem closed_cache_refuses_every_call :
  (forall (c : MemoryCache.t) (xs : list cache.call),
     (MemoryCache.Close c).1 = None
     /\ cache.perform_all (MemoryCache.Close c).2 xs
        = (cache.refused <$> xs, (MemoryCache.Close c).2))
  /\ (forall (c : BboltCache.t) (xs : list cache.call),
        (BboltCache.Close c).1 = None
        /\ cache.perform_all (BboltCache.Close c).2 xs
           = (cache.refused <$> xs, (BboltCache.Close c).2)).
Proof.
  split; intros c xs.
  - split; [unfold MemoryCache.Close; destruct (MemoryCache.closed c); reflexivity|].
    apply perform_all_closed_memory.
    unfold MemoryCache.Close. destruct (MemoryCache.closed c) eqn:E; cbn; auto.
  - split; [unfold BboltCache.Close; destruct (BboltCache.closed c); reflexivity|].
    apply perform_all_closed_bbolt.
    unfold BboltCache.Close. destruct (BboltCache.closed c) eqn:E; cbn; auto.
Qed.

(** X2.  Delete on an open cache returns no error; afterwards the key is a miss
    at every clock reading (on the durable backend when the bucket exists)
    and every other key reads as it did before. *)
Theorem delete_removes_only_the_key :
  (forall (c : MemoryCache.t) (key : string),
     MemoryCache.closed c = false ->
     (MemoryCache.Delete c key).1 = None
     /\ forall (now : Time),
          MemoryCache.Get now (MemoryCache.Delete c key).2 key
          = ("", Some ErrCacheMiss)
          /\ forall k, k ≠ key ->
                MemoryCache.Get now (MemoryCache.Delete c key).2 k
                = MemoryCache.Get now c k)
  /\ (forall (c : BboltCache.t) (key : string),
        BboltCache.closed c = false ->
        (BboltCache.Delete c key).1 = None
        /\ forall (now : Time),
             (is_Some (BboltCache.bucket (BboltCache.db c)) ->
              BboltCache.Get now (BboltCache.Delete c key).2 key
              = ("", Some ErrCacheMiss))
             /\ forall k, k ≠ key ->
                   BboltCache.Get now (BboltCache.Delete c key).2 k
                   = BboltCache.Get now c k).
Proof.
  split; intros c key Hc.
  - unfold MemoryCache.Delete. rewrite Hc. cbn. split; [reflexivity|].
    intros now. unfold MemoryCache.Get. cbn. rewrite Hc. split.
    + rewrite lookup_delete_eq. reflexivity.
    + intros k Hne. rewrite lookup_delete_ne by congruence. reflexivity.
  - unfold BboltCache.Delete. rewrite Hc.
    destruct (BboltCache.bucket (BboltCache.db c)) as [b|] eqn:Hb; cbn.
    + split; [reflexivity|]. intros now.
      unfold BboltCache.Get, BboltCache.Bucket_Get. cbn. rewrite Hc, Hb. split.
      * intros _. rewrite lookup_delete_eq. reflexivity.
      * intros k Hne. rewrite lookup_delete_ne by congruence. reflexivity.
    + split; [reflexivity|]. intros now. split.
      * intros [x Hx]. discriminate.
      * reflexivity.
Qed.

(** A bucket that holds an entry under two keys: after Delete of one the
    other is still read, the deleted one is a miss. *)
Lemma delete_removes_only_the_key_witness :
  let now := 1000%Z in
  let c := (MemoryCache.SetWithTTL now
              (MemoryCache.SetWithTTL now MemoryCache.NewMemoryCache
                 "pkg:npm/a" "MIT" 0).2 "pkg:npm/b" "ISC" 0).2 in
  MemoryCache.Get now (MemoryCache.Delete c "pkg:npm/a").2 "pkg:npm/a"
  = ("", Some ErrCacheMiss)
  /\ MemoryCache.Get now (MemoryCache.Delete c "pkg:npm/a").2 "pkg:npm/b"
     = ("ISC", None).
Proof.
  cbn zeta.
  destruct delete_removes_only_the_key as [Hm _].
  destruct (Hm (MemoryCache.SetWithTTL 1000
              (MemoryCache.SetWithTTL 1000 MemoryCache.NewMemoryCache
                 "pkg:npm/a" "MIT" 0).2 "pkg:npm/b" "ISC" 0).2 "pkg:npm/a" eq_refl)
    as [_ Hg].
  destruct (Hg 1000%Z) as [Hkey Hother].
  split; [exact Hkey|].
  rewrite Hother by discriminate. vm_compute. reflexivity.
Defined.

(** X3.  SetWithTTL touches one key: whatever it returns, every other key reads
    afterwards as it did before; and when it returns an error, every key
    does. *)
Theorem set_leaves_other_keys :
  (forall (now : Time) (c : MemoryCache.t) (key val : string) (ttl : Duration)
          (later : Time) (k : string),
     (k ≠ key \/ (MemoryCache.SetWithTTL now c key val ttl).1 ≠ None) ->
     MemoryCache.Get later (MemoryCache.SetWithTTL now c key val ttl).2 k
     = MemoryCache.Get later c k)
  /\ (forall (now : Time) (c : BboltCache.t) (key val : string) (ttl : Duration)
             (later : Time) (k : string),
        (k ≠ key \/ (BboltCache.SetWithTTL now c key val ttl).1 ≠ None) ->
        BboltCache.Get later (BboltCache.SetWithTTL now c key val ttl).2 k
        = BboltCache.Get later c k).
Proof.
  split; intros now c key val ttl later k Hk.
  - unfold MemoryCache.SetWithTTL in *.
    destruct (MemoryCache.closed c) eqn:Hc; cbn in *; [reflexivity|].
    destruct Hk as [Hk|Hk]; [|congruence].
    unfold MemoryCache.Get. cbn. rewrite Hc.
    rewrite lookup_insert_ne by congruence. reflexivity.
  - unfold BboltCache.SetWithTTL in *.
    destruct (BboltCache.closed c) eqn:Hc; cbn in *; [reflexivity|].
    destruct (BboltCache.bucket (BboltCache.db c)) as [b|] eqn:Hb; cbn in *;
      [|reflexivity].
    unfold BboltCache.Bucket_Put in *.
    destruct (Nat.eqb (String.length key) 0); cbn in *.
    { unfold BboltCache.Get. cbn. rewrite Hc, Hb. reflexivity. }
    destruct (BboltCache.MaxKeySize <? Z.of_nat (String.length key))%Z; cbn in *.
    { unfold BboltCache.Get. cbn. rewrite Hc, Hb. reflexivity. }
    destruct Hk as [Hk|Hk]; [|congruence].
    unfold BboltCache.Get, BboltCache.Bucket_Get. cbn. rewrite Hc, Hb.
    rewrite lookup_insert_ne by congruence. reflexivity.
Qed.

Lemma set_leaves_other_keys_witness :
  let now := 1000%Z in
  let c := (BboltCache.SetWithTTL now
              (BboltCache.NewBboltCache {| BboltCache.bucket := None |})
              "pkg:npm/a" "MIT" 0).2 in
  BboltCache.Get now (BboltCache.SetWithTTL now c "" "ISC" 0).2 "pkg:npm/a"
  = ("MIT", None)
  /\ BboltCache.Get now (BboltCache.SetWithTTL now c "" "ISC" 0).2 ""
     = ("", Some ErrCacheMiss).
Proof.
  cbn zeta. destruct set_leaves_other_keys as [_ Hb]. split.
  - rewrite Hb by (left; discriminate). vm_compute. reflexivity.
  - rewrite Hb by (right; vm_compute; discriminate). vm_compute. reflexivity.
Defined.

Lemma perform_same_entries (c : MemoryCache.t) (b : BboltCache.t) (x : cache.call) :
  cache.same_entries c b ->
  (forall k, cache.written_key x = Some k -> cache.storable k) ->
  (cache.perform c x).1 = (cache.perform b x).1
  /\ cache.same_entries (cache.perform c x).2 (cache.perform b x).2.
Proof.
  intros [Hcl Hent] Hkey.
  destruct (MemoryCache.closed c) eqn:Hc.
  - (* both closed *)
    symmetry in Hcl.
    destruct x; cbn;
      unfold MemoryCache.Get, MemoryCache.SetWithTTL, MemoryCache.Delete,
        MemoryCache.Close, BboltCache.Get, BboltCache.SetWithTTL,
        BboltCache.Delete, BboltCache.Close;
      rewrite Hc, Hcl; cbn; (split; [reflexivity|]).
    all: split; cbn; congruence.
  - symmetry in Hcl. specialize (Hent eq_refl).
    destruct x as [now key|now key val ttl|key|]; cbn.
    + unfold MemoryCache.Get, BboltCache.Get, BboltCache.Bucket_Get.
      rewrite Hc, Hcl, Hent, lookup_fmap.
      split; [|split; [congruence|intros; assumption]].
      destruct (MemoryCache.cache c !! key) as [[v ex]|]; reflexivity.
    + destruct (Hkey key eq_refl) as [Hne Hlen].
      unfold MemoryCache.SetWithTTL, BboltCache.SetWithTTL, BboltCache.Bucket_Put.
      rewrite Hc, Hcl, Hent.
      destruct (Nat.eqb_spec (String.length key) 0) as [E|E].
      { destruct key; [congruence|discriminate]. }
      destruct (Z.ltb_spec BboltCache.MaxKeySize (Z.of_nat (String.length key)));
        [lia|].
      cbn. split; [reflexivity|]. split; [reflexivity|].
      intros _. cbn. rewrite fmap_insert. reflexivity.
    + unfold MemoryCache.Delete, BboltCache.Delete, BboltCache.Bucket_Delete.
      rewrite Hc, Hcl, Hent. cbn. split; [reflexivity|]. split; [reflexivity|].
      intros _. cbn. rewrite fmap_delete. reflexivity.
    + unfold MemoryCache.Close, BboltCache.Close. rewrite Hc, Hcl. cbn.
      split; [reflexivity|]. split; [reflexivity|]. discriminate.
Qed.

Lemma perform_all_same_entries (xs : list cache.call) :
  forall (c : MemoryCache.t) (b : BboltCache.t),
    cache.same_entries c b ->
    Forall (fun x => forall k, cache.written_key x = Some k -> cache.storable k) xs ->
    (cache.perform_all c xs).1 = (cache.perform_all b xs).1
    /\ cache.same_entries (cache.perform_all c xs).2 (cache.perform_all b xs).2.
Proof.
  induction xs as [|x xs IH]; intros c b Hsame Hxs.
  - cbn. auto.
  - inversion Hxs as [|? ? Hx Hrest]; subst.
    destruct (perform_same_entries c b x Hsame Hx) as [Ha Hsame'].
    cbn [cache.perform_all].
    destruct (cache.perform c x) as [a c'], (cache.perform b x) as [a' b'].
    cbn in Ha, Hsame'. subst a'.
    destruct (IH c' b' Hsame' Hrest) as [Has Hsame''].
    destruct (cache.perform_all c' xs) as [as1 c''],
      (cache.perform_all b' xs) as [as2 b''].
    cbn in *. subst. auto.
Qed.

(** X4.  The two backends are interchangeable for keys the embedded store
    accepts: a new volatile cache and a new durable cache over an empty
    database give the same answers to every sequence of calls whose
    SetWithTTL keys are non-empty and at most 32768 bytes long, at whatever
    clock readings the calls are made, and hold the same entries afterwards. *)
Theorem backends_agree_on_storable_keys :
  forall (xs : list cache.call),
    Forall (fun x => forall k, cache.written_key x = Some k -> cache.storable k) xs ->
    let volatile := cache.perform_all MemoryCache.NewMemoryCache xs in
    let durable :=
      cache.perform_all
        (BboltCache.NewBboltCache {| BboltCache.bucket := None |}) xs in
    volatile.1 = durable.1 /\ cache.same_entries volatile.2 durable.2.
Proof.
  intros xs Hxs. cbn zeta. apply perform_all_same_entries; [|exact Hxs].
  split; [reflexivity|]. intros _. cbn. rewrite fmap_empty. reflexivity.
Qed.

(** Write with a ttl, read before and after the expiry, delete, read,
    close, read. *)
Lemma backends_agree_on_storable_keys_witness :
  let xs := [cache.CallSetWithTTL 1000 "pkg:npm/a" "MIT" 50;
             cache.CallGet 1040 "pkg:npm/a";
             cache.CallGet 1060 "pkg:npm/a";
             cache.CallSetWithTTL 1070 "pkg:npm/a" "ISC" 0;
             cache.CallDelete "pkg:npm/b";
             cache.CallGet 2000 "pkg:npm/a";
             cache.CallClose;
             cache.CallGet 2000 "pkg:npm/a"] in
  (cache.perform_all
     (BboltCache.NewBboltCache {| BboltCache.bucket := None |}) xs).1
  = [cache.Done None;
     cache.Got ("MIT", None);
     cache.Got ("", Some ErrCacheMiss);
     cache.Done None;
     cache.Done None;
     cache.Got ("ISC", None);
     cache.Done None;
     cache.Got ("", Some ErrCacheClosed)].
Proof.
  cbn zeta.
  destruct (backends_agree_on_storable_keys
              [cache.CallSetWithTTL 1000 "pkg:npm/a" "MIT" 50;
               cache.CallGet 1040 "pkg:npm/a";
               cache.CallGet 1060 "pkg:npm/a";
               cache.CallSetWithTTL 1070 "pkg:npm/a" "ISC" 0;
               cache.CallDelete "pkg:npm/b";
               cache.CallGet 2000 "pkg:npm/a";
               cache.CallClose;
               cache.CallGet 2000 "pkg:npm/a"]) as [Hans _].
  { repeat (apply Forall_cons_2;
              [intros k Hk; cbn in Hk;
               first [ discriminate Hk
                     | injection Hk as <-; split;
                       [discriminate | vm_compute; discriminate] ]|]).
    apply Forall_nil_2. }
  rewrite <- Hans. vm_compute. reflexivity.
Defined.

Lemma perform_bucket_exists (c : BboltCache.t) (x : cache.call) :
  is_Some (BboltCache.bucket (BboltCache.db c)) ->
  ~ cache.bucket_not_found (cache.perform c x).1
  /\ is_Some (BboltCache.bucket (BboltCache.db (cache.perform c x).2)).
Proof.
  intros [b Hb]. unfold cache.bucket_not_found.
  destruct x as [now key|now key val ttl|key|]; cbn.
  - split; [|eauto]. unfold BboltCache.Get, BboltCache.Bucket_Get. rewrite Hb.
    destruct (BboltCache.closed c); [intros [[=]|[=]]|].
    destruct (b !! key) as [[e|raw]|]; [| |intros [[=]|[=]]].
    + destruct (BboltCache.isExpired now e); intros [H|H]; discriminate H.
    + intros [H|H]; discriminate H.
  - unfold BboltCache.SetWithTTL, BboltCache.Bucket_Put. rewrite Hb.
    destruct (BboltCache.closed c); cbn; [split; [intros [[=]|[=]]|eauto]|].
    destruct (Nat.eqb (String.length key) 0); cbn;
      [split; [intros [[=]|[=]]|eauto]|].
    destruct (BboltCache.MaxKeySize <? Z.of_nat (String.length key))%Z; cbn;
      (split; [intros [[=]|[=]]|eauto]).
  - unfold BboltCache.Delete, BboltCache.Bucket_Delete. rewrite Hb.
    destruct (BboltCache.closed c); cbn; (split; [intros [[=]|[=]]|eauto]).
  - unfold BboltCache.Close.
    destruct (BboltCache.closed c); cbn; (split; [intros [[=]|[=]]|eauto]).
Qed.

(** X5.  A cache made by NewBboltCache never answers bucket not found: the
    constructor creates the bucket when the database lacks it and no call
    removes it, so the checks for a missing bucket in Get, SetWithTTL and
    Delete cannot fire, whatever the database held and whatever calls are
    made. *)
Theorem bucket_is_never_missing :
  forall (d : BboltCache.DB) (xs : list cache.call) (a : cache.answer),
    a ∈ (cache.perform_all (BboltCache.NewBboltCache d) xs).1 ->
    ~ cache.bucket_not_found a.
Proof.
  intros d xs.
  assert (Hgen : forall c : BboltCache.t,
            is_Some (BboltCache.bucket (BboltCache.db c)) ->
            forall a, a ∈ (cache.perform_all c xs).1 -> ~ cache.bucket_not_found a).
  { induction xs as [|x xs IH]; intros c Hc a Hin.
    - cbn in Hin. inversion Hin.
    - cbn [cache.perform_all] in Hin.
      destruct (perform_bucket_exists c x Hc) as [Hx Hc'].
      destruct (cache.perform c x) as [a0 c'].
      specialize (IH c' Hc').
      destruct (cache.perform_all c' xs) as [answers c''].
      cbn in *. apply elem_of_cons in Hin as [->|Hin]; auto. }
  apply Hgen. cbn. eauto.
Qed.

(** A database without the bucket: the cache made over it answers a miss,
    where the same call on the bare database value answers bucket not
    found. *)
Lemma bucket_is_never_missing_witness :
  let d := {| BboltCache.bucket := None |} in
  ~ cache.bucket_not_found
      (cache.Got (BboltCache.Get 1000 (BboltCache.NewBboltCache d) "pkg:npm/a"))
  /\ cache.bucket_not_found
       (cache.Got (BboltCache.Get 1000
                     {| BboltCache.db := d; BboltCache.closed := false |}
                     "pkg:npm/a")).
Proof.
  cbn zeta. split.
  - apply (bucket_is_never_missing {| BboltCache.bucket := None |}
             [cache.CallGet 1000 "pkg:npm/a"]).
    vm_compute. apply list_elem_of_here.
  - left. reflexivity.
Defined.

(** ** The lookup over the two backends *)

(** X6.  The cache-through lookup over the volatile cache, as the command line
    tool runs it.  When the cache misses and the provider answers a
    non-empty license, the lookup returns it; a second lookup of the same
    purl at a clock reading up to the expiry of the entry (at any reading
    when ttl <= 0) returns the license with the cache read as its only call,
    and the provider is not asked; a second lookup past the expiry asks the
    provider again. *)
Theorem second_lookup_is_served_from_cache :
  forall (PS : Type) (prov : provider.Provider PS) (purl license : string)
         (ttl : Duration) (now later : Time)
         (w : provider.world MemoryCache.t PS) (ps : PS),
    let opts t :=
      {| provider.Purl := purl; provider.GetProvider := prov;
         provider.GetCache := Some (fixtures.memory_cache t);
         provider.CacheTTL := ttl |} in
    (0 < now)%Z ->
    MemoryCache.Get now (provider.cache_st w) purl = ("", Some ErrCacheMiss) ->
    provider.Provider_Get prov (provider.provider_st w) purl = ((license, None), ps) ->
    license ≠ "" ->
    let first := provider.run (provider.Get (opts now)) w in
    first.1 = (license, None)
    /\ provider.provider_st first.2 = ps
    /\ (((ttl <= 0)%Z \/ (later <= now + ttl)%Z) ->
        provider.run (provider.Get (opts later)) first.2
        = ((license, None),
           provider.world_after first.2 (provider.cache_st first.2) ps
             [provider.EvCacheGet purl (license, None)]))
    /\ ((0 < ttl)%Z -> (now + ttl < later)%Z ->
        forall res ps',
          provider.Provider_Get prov ps purl = (res, ps') ->
          provider.provider_st (provider.run (provider.Get (opts later)) first.2).2
          = ps').
Proof.
  intros PS prov purl license ttl now later w ps opts Hnow Hmiss Hprov Hne first.
  assert (Hopen : MemoryCache.closed (provider.cache_st w) = false).
  { unfold MemoryCache.Get in Hmiss.
    destruct (MemoryCache.closed (provider.cache_st w)); [discriminate|reflexivity]. }
  assert (Hfirst : first
            = ((license, None),
               provider.world_after w
                 (MemoryCache.SetWithTTL now (provider.cache_st w) purl license ttl).2
                 ps
                 [provider.EvCacheGet purl ("", Some ErrCacheMiss);
                  provider.EvProviderGet purl (license, None);
                  provider.EvCacheSetWithTTL purl license ttl None])).
  { unfold first. rewrite run_Get. cbn [provider.GetCache opts provider.Purl
      provider.Cache_Get fixtures.memory_cache].
    rewrite Hmiss. cbn [errors_Is sentinel_eqb].
    rewrite (run_from_provider (opts now) w (provider.cache_st w)
               [provider.EvCacheGet purl ("", Some ErrCacheMiss)]
               (license, None) ps Hprov).
    cbn [provider.GetCache opts provider.Purl provider.CacheTTL
         provider.Cache_SetWithTTL fixtures.memory_cache].
    apply eqb_false_iff in Hne. rewrite Hne.
    unfold MemoryCache.SetWithTTL. rewrite Hopen. reflexivity. }
  rewrite Hfirst. cbn [fst snd provider.world_after provider.provider_st
                       provider.cache_st].
  split; [reflexivity|]. split; [reflexivity|].
  pose proof (fresh_entry_expiry now later ttl Hnow) as (H1 & H2 & H3).
  cbn zeta in H1, H2, H3.
  assert (Hget : MemoryCache.Get later
                   (MemoryCache.SetWithTTL now (provider.cache_st w) purl license ttl).2
                   purl
                 = if negb (Time_IsZero (if (0 <? ttl)%Z then Time_Add now ttl else 0%Z))
                      && Time_After later (if (0 <? ttl)%Z then Time_Add now ttl else 0%Z)
                   then ("", Some ErrCacheMiss) else (license, None)).
  { unfold MemoryCache.SetWithTTL. rewrite Hopen. unfold MemoryCache.Get. cbn.
    rewrite lookup_insert_eq. reflexivity. }
  split.
  - intros Hfresh. rewrite run_Get.
    cbn [provider.GetCache opts provider.Purl provider.Cache_Get
         fixtures.memory_cache provider.cache_st provider.world_after].
    rewrite Hget.
    assert (Hex : negb (Time_IsZero (if (0 <? ttl)%Z then Time_Add now ttl else 0%Z))
                  && Time_After later (if (0 <? ttl)%Z then Time_Add now ttl else 0%Z)
                  = false).
    { destruct (Z.ltb_spec 0 ttl) as [Hpos|Hnon].
      - destruct Hfresh as [Hf|Hf]; [lia|].
        specialize (H1 Hpos Hf). destruct (0 <? ttl)%Z eqn:E; [exact H1|].
        apply Z.ltb_ge in E. lia.
      - specialize (H3 Hnon). destruct (0 <? ttl)%Z eqn:E; [|exact H3].
        apply Z.ltb_lt in E. lia. }
    rewrite Hex. reflexivity.
  - intros Hpos Hpast res ps' Hp2. rewrite run_Get.
    cbn [provider.GetCache opts provider.Purl provider.Cache_Get
         fixtures.memory_cache provider.cache_st provider.world_after].
    rewrite Hget.
    assert (Hex : negb (Time_IsZero (if (0 <? ttl)%Z then Time_Add now ttl else 0%Z))
                  && Time_After later (if (0 <? ttl)%Z then Time_Add now ttl else 0%Z)
                  = true).
    { specialize (H2 Hpos Hpast). destruct (0 <? ttl)%Z eqn:E; [exact H2|].
      apply Z.ltb_ge in E. lia. }
    rewrite Hex. cbn [errors_Is sentinel_eqb].
    match goal with
    | |- context [provider.run _ (provider.world_after ?w0 ?cs _ ?evs)] =>
        pose proof (run_from_provider (opts later) w0 cs evs res ps') as Hrun
    end.
    cbn zeta in Hrun. cbn [provider.provider_st opts provider.GetProvider
                           provider.Purl] in Hrun.
    specialize (Hrun Hp2). rewrite Hrun.
    destruct res as [l [e|]]; [reflexivity|].
    cbn [provider.GetCache opts].
    destruct (String.eqb l ""); [reflexivity|].
    destruct (provider.Cache_SetWithTTL _ _ _ _ _) as [setErr cs']. reflexivity.
Qed.

(** A new cache, a provider that answers MIT: the second lookup, 10 ns
    later with a ttl of 50 ns, leaves the call count of the provider at 1. *)
Lemma second_lookup_is_served_from_cache_witness :
  let opts t :=
    {| provider.Purl := "pkg:npm/express@4.17.1";
       provider.GetProvider := fixtures.answering ("MIT", None);
       provider.GetCache := Some (fixtures.memory_cache t);
       provider.CacheTTL := 50%Z |} in
  let first :=
    provider.run (provider.Get (opts 1000%Z))
      (fixtures.fresh_world MemoryCache.NewMemoryCache) in
  let second := provider.run (provider.Get (opts 1010%Z)) first.2 in
  second.1 = ("MIT", None) /\ provider.provider_st second.2 = 1%nat.
Proof.
  cbn zeta.
  destruct (second_lookup_is_served_from_cache nat
              (fixtures.answering ("MIT", None)) "pkg:npm/express@4.17.1" "MIT"
              50%Z 1000%Z 1010%Z
              (fixtures.fresh_world MemoryCache.NewMemoryCache) 1%nat
              ltac:(lia) eq_refl eq_refl ltac:(discriminate))
    as (_ & _ & Hhit & _).
  rewrite Hhit by (right; lia). split; reflexivity.
Defined.

(** X7.  The cache-through lookup over the durable cache for the empty purl
    (the purl of a CycloneDX component without one).  On an open cache that
    holds nothing under the empty key, a non-empty license from the
    provider is lost: the write is refused with the error of the store for
    an empty key, the lookup returns that error and no license, and every
    key reads afterwards as before, so the next lookup asks the provider
    again. *)
Theorem durable_cache_fails_lookup_of_empty_purl :
  forall (PS : Type) (prov : provider.Provider PS) (license : string)
         (ttl : Duration) (now : Time)
         (w : provider.world BboltCache.t PS) (ps : PS),
    let opts :=
      {| provider.Purl := ""; provider.GetProvider := prov;
         provider.GetCache := Some (fixtures.bbolt_cache now);
         provider.CacheTTL := ttl |} in
    BboltCache.Get now (provider.cache_st w) "" = ("", Some ErrCacheMiss) ->
    provider.Provider_Get prov (provider.provider_st w) "" = ((license, None), ps) ->
    license ≠ "" ->
    let r := provider.run (provider.Get opts) w in
    r.1 = ("", Some (WrapError "failed to set license in cache" ErrKeyRequired))
    /\ provider.provider_st r.2 = ps
    /\ provider.calls r.2
       = (provider.calls w
          ++ [provider.EvCacheGet "" ("", Some ErrCacheMiss);
              provider.EvProviderGet "" (license, None);
              provider.EvCacheSetWithTTL "" license ttl (Some ErrKeyRequired)])%list
    /\ forall later key,
         BboltCache.Get later (provider.cache_st r.2) key
         = BboltCache.Get later (provider.cache_st w) key.
Proof.
  intros PS prov license ttl now w ps opts Hmiss Hprov Hne r.
  assert (Hopen : BboltCache.closed (provider.cache_st w) = false).
  { unfold BboltCache.Get in Hmiss.
    destruct (BboltCache.closed (provider.cache_st w)); [discriminate|reflexivity]. }
  assert (Hb : exists b, BboltCache.bucket (BboltCache.db (provider.cache_st w)) = Some b).
  { unfold BboltCache.Get in Hmiss. rewrite Hopen in Hmiss.
    destruct (BboltCache.bucket (BboltCache.db (provider.cache_st w))) as [b|];
      [eauto|discriminate]. }
  destruct Hb as [b Hb].
  assert (Hr : r = (("", Some (WrapError "failed to set license in cache" ErrKeyRequired)),
                    provider.world_after w
                      (BboltCache.SetWithTTL now (provider.cache_st w) "" license ttl).2
                      ps
                      [provider.EvCacheGet "" ("", Some ErrCacheMiss);
                       provider.EvProviderGet "" (license, None);
                       provider.EvCacheSetWithTTL "" license ttl (Some ErrKeyRequired)])).
  { unfold r. rewrite run_Get.
    cbn [provider.GetCache opts provider.Purl provider.Cache_Get fixtures.bbolt_cache].
    rewrite Hmiss. cbn [errors_Is sentinel_eqb].
    rewrite (run_from_provider opts w (provider.cache_st w)
               [provider.EvCacheGet "" ("", Some ErrCacheMiss)]
               (license, None) ps Hprov).
    cbn [provider.GetCache opts provider.Purl provider.CacheTTL
         provider.Cache_SetWithTTL fixtures.bbolt_cache].
    apply eqb_false_iff in Hne. rewrite Hne.
    unfold BboltCache.SetWithTTL. rewrite Hopen, Hb. reflexivity. }
  rewrite Hr. cbn [fst snd provider.world_after provider.provider_st
                   provider.cache_st provider.calls].
  split; [reflexivity|]. split; [reflexivity|]. split; [reflexivity|].
  intros later key.
  unfold BboltCache.SetWithTTL. rewrite Hopen, Hb. cbn.
  unfold BboltCache.Get. cbn. rewrite Hopen, Hb. reflexivity.
Qed.

(** A new durable cache and a provider that answers MIT. *)
Lemma durable_cache_fails_lookup_of_empty_purl_witness :
  let opts :=
    {| provider.Purl := ""; 
       provider.GetProvider := fixtures.answering ("MIT", None);
       provider.GetCache := Some (fixtures.bbolt_cache 1000%Z);
       provider.CacheTTL := 0%Z |} in
  let w := fixtures.fresh_world
             (BboltCache.NewBboltCache {| BboltCache.bucket := None |}) in
  (provider.run (provider.Get opts) w).1
  = ("", Some (WrapError "failed to set license in cache" ErrKeyRequired))
  /\ provider.provider_st (provider.run (provider.Get opts) w).2 = 1%nat.
Proof.
  cbn zeta.
  destruct (durable_cache_fails_lookup_of_empty_purl nat
              (fixtures.answering ("MIT", None)) "MIT" 0%Z 1000%Z
              (fixtures.fresh_world
                 (BboltCache.NewBboltCache {| BboltCache.bucket := None |}))
              1%nat eq_refl eq_refl ltac:(discriminate))
    as (Hres & Hps & _).
  split; [exact Hres | exact Hps].
Defined.

(** ** More on the worker pool *)

Section PoolMore.

Context {T : Type} `{enrichableItem T} {CS PS : Type}.
Variable prov : provider.Provider PS.
Variable cacheInstance : option (provider.Cache CS).
Variable cacheTTL : Duration.

Implicit Types (s : enricher.state T CS PS) (t : enricher.thread).

Local Abbreviation step := (enricher.step prov cacheInstance cacheTTL).
Local Abbreviation exec := (enricher.exec prov cacheInstance cacheTTL).
Local Abbreviation lookup_of := (enricher.lookup_of prov cacheInstance cacheTTL).
Local Abbreviation phase := (enricher.phase prov cacheInstance cacheTTL).

(** Case analysis of one step; every case leaves the new state as an
    explicit record. *)
Ltac step_cases Hstep :=
  match type of Hstep with
  | enricher.step _ _ _ ?t ?s = Some ?s' =>
      let w := fresh "w" in
      destruct t as [|w]; cbn [enricher.step] in Hstep;
      [ unfold enricher.main_step in Hstep;
        let Hmain := fresh "Hmain" in
        let n := fresh "n" in
        destruct (enricher.main s) as [n| |] eqn:Hmain;
        [ let Hitem := fresh "Hitem" in
          let item := fresh "item" in
          destruct (enricher.items s !! n) as [item|] eqn:Hitem;
          [ let Hpurl := fresh "Hpurl" in
            let purl := fresh "purl" in
            let e := fresh "e" in
            destruct (GetPurl item) as [purl [e|]] eqn:Hpurl | ]
        | let Hall := fresh "Hall" in
          destruct (enricher.all_exited (enricher.workers s)) eqn:Hall;
          [ | discriminate Hstep ]
        | discriminate Hstep ]
      | unfold enricher.worker_step in Hstep;
        let Hw := fresh "Hw" in
        let j := fresh "j" in
        let q := fresh "q" in
        destruct (enricher.workers s !! w) as [[ |j|j q| ]|] eqn:Hw;
        [ let Hjobs := fresh "Hjobs" in
          destruct (enricher.jobs s) as [|?j ?rest] eqn:Hjobs;
          [ let Hclosed := fresh "Hclosed" in
            destruct (enricher.is_closed s) eqn:Hclosed; [ | discriminate Hstep ]
          | ]
        | let Hitem := fresh "Hitem" in
          let item := fresh "item" in
          destruct (enricher.items s !! enricher.job_item j) as [item|] eqn:Hitem;
          [ let Hlic := fresh "Hlic" in
            destruct (HasLicense item) eqn:Hlic
          | discriminate Hstep ]
        | let lic := fresh "lic" in
          let c := fresh "c" in
          let key := fresh "key" in
          let p := fresh "p" in
          let purl := fresh "purl" in
          let val := fresh "val" in
          let ttl := fresh "ttl" in
          destruct q as [[lic [?e|]]|c key ?k|p purl ?k|c key val ttl ?k];
          [ let Hitem := fresh "Hitem" in
            destruct (enricher.items s !! enricher.job_item j) as [?item|] eqn:Hitem;
            [ | discriminate Hstep ]
          | let Hitem := fresh "Hitem" in
            destruct (enricher.items s !! enricher.job_item j) as [?item|] eqn:Hitem;
            [ let Hempty := fresh "Hempty" in
              destruct (String.eqb lic "") eqn:Hempty
            | discriminate Hstep ]
          | cbn [provider.prog_step] in Hstep;
            let Hcall := fresh "Hcall" in
            destruct (provider.Cache_Get c (provider.cache_st (enricher.env s)) key)
              as [?res ?cs] eqn:Hcall
          | cbn [provider.prog_step] in Hstep;
            let Hcall := fresh "Hcall" in
            destruct (provider.Provider_Get p (provider.provider_st (enricher.env s)) purl)
              as [?res ?ps] eqn:Hcall
          | cbn [provider.prog_step] in Hstep;
            let Hcall := fresh "Hcall" in
            destruct (provider.Cache_SetWithTTL c (provider.cache_st (enricher.env s))
                        key val ttl) as [?res ?cs] eqn:Hcall ]
        | discriminate Hstep
        | discriminate Hstep ] ];
      cbn [negb] in Hstep;
      try (injection Hstep as <-)
  end.


(** *** Accounting for the calls of a run *)

(** The slot the queueing loop is at holds what it held at the start. *)
Lemma slot_before_queue (its : list T) s k :
  (forall i it, its !! i = Some it -> phase i it s) ->
  length (enricher.items s) = length its ->
  enricher.main s = enricher.Queueing k ->
  enricher.items s !! k = its !! k.
Proof.
  intros Hph Hlen Hm.
  destruct (its !! k) as [it|] eqn:Hk.
  - destruct (Hph k it Hk) as [k' Hm' Hle Hi _| ? ? _ _ _ Hp _| ? ? ? _ _ _ _ Hp _
                              | ? ? _ _ _ Hp _| ? _ _ _ Hp _| ? ? ? ? _ _ _ _ _ _ Hp _
                              | ? ? ? ? _ _ _ _ Hp _ _];
      try (exfalso; unfold enricher.passed in Hp; rewrite Hm in Hp; lia).
    exact Hi.
  - apply lookup_ge_None. rewrite Hlen. apply lookup_ge_None. exact Hk.
Qed.

(** The slot of a job that a worker is about to check holds what it held
    at the start. *)
Lemma slot_at_check (its : list T) s w j :
  (forall i it, its !! i = Some it -> phase i it s) ->
  enricher.jobs_in_range s ->
  length (enricher.items s) = length its ->
  enricher.workers s !! w = Some (enricher.Checking j) ->
  enricher.items s !! enricher.job_item j = its !! enricher.job_item j.
Proof.
  intros Hph [_ Hrange] Hlen Hw.
  assert (Hlt : (enricher.job_item j < length its)%nat).
  { rewrite <- Hlen. eapply Hrange; [exact Hw|reflexivity]. }
  destruct (lookup_lt_is_Some_2 its _ Hlt) as [it Hit]. rewrite Hit.
  assert (Hholds : enricher.holds (enricher.job_item j)
                     (enricher.Checking j : enricher.worker CS PS))
    by reflexivity.
  destruct (Hph _ it Hit) as [k' _ _ _ [_ Hc]| ? ? _ _ _ _ [_ Hc]| ? ? ? _ _ _ Hno _ _
                             | ? ? _ _ _ _ Hi| ? _ _ _ _ [_ Hc]
                             | ? w' ? ? _ _ Hw' _ _ [_ Hc] _ _
                             | ? ? ? ? _ _ _ _ _ [_ Hc] _].
  - specialize (Hc _ _ Hw Hholds). discriminate.
  - specialize (Hc _ _ Hw Hholds). discriminate.
  - exfalso. exact (Hno _ _ Hw Hholds).
  - exact Hi.
  - specialize (Hc _ _ Hw Hholds). discriminate.
  - specialize (Hc _ _ Hw Hholds). injection Hc as <-. congruence.
  - specialize (Hc _ _ Hw Hholds). discriminate.
Qed.

Section Kind.

Variable P : provider.event -> bool.
Variable b : nat.
Hypothesis lookup_makes_le : forall j, budget.makes_le P (lookup_of j) b.

Lemma count_snoc (evs : list provider.event) (ev : provider.event) :
  budget.count P (evs ++ [ev]) = (budget.count P evs + if P ev then 1 else 0)%nat.
Proof.
  unfold budget.count. rewrite List.filter_app, length_app. cbn.
  destruct (P ev); reflexivity.
Qed.

Lemma sum_list_append (l l' : list nat) :
  sum_list (l ++ l') = (sum_list l + sum_list l')%nat.
Proof. induction l as [|a l IH]; simpl; lia. Qed.

Lemma candidates_drop (its : list T) k it :
  its !! k = Some it ->
  budget.candidates (drop k its)
  = ((if budget.candidate it then 1 else 0) + budget.candidates (drop (S k) its))%nat.
Proof.
  intros Hk. rewrite (drop_S _ _ _ Hk). unfold budget.candidates. cbn.
  destruct (budget.candidate it); reflexivity.
Qed.

Ltac products :=
  rewrite ?Nat.mul_add_distr_l, ?Nat.mul_1_r, ?Nat.mul_0_r;
  repeat match goal with
         | |- context [(?x * ?y)%nat] =>
             let z := fresh "z" in generalize (x * y)%nat; intros z
         end;
  unfold id; lia.

(** No step raises what is owed. *)
Lemma owed_step (its : list T) t s s' n :
  (forall i it, its !! i = Some it -> phase i it s) ->
  enricher.jobs_in_range s ->
  length (enricher.items s) = length its ->
  budget.owed P b its s n -> step t s = Some s' ->
  exists n', budget.owed P b its s' n' /\ (n' <= n)%nat.
Proof.
  intros Hph Hrange Hlen (ws & Hws & ->) Hstep. unfold budget.owed.
  assert (Hweight : forall w x, enricher.workers s !! w = Some x ->
            exists y, ws !! w = Some y /\ budget.worker_budget P b its x y).
  { intros w x Hw. destruct (Forall2_lookup_l _ _ _ _ _ Hws Hw) as (y & ? & ?). eauto. }
  assert (Hmove : forall w x x' y y',
            enricher.workers s !! w = Some x -> ws !! w = Some y ->
            budget.worker_budget P b its x' y' ->
            Forall2 (budget.worker_budget P b its) (<[w := x']> (enricher.workers s))
              (<[w := y']> ws)
            /\ (sum_list (<[w := y']> ws) + y = sum_list ws + y')%nat).
  { intros w x x' y y' Hw Hy Hx'. split.
    - apply Forall2_insert; assumption.
    - apply sum_list_insert. exact Hy. }
  pose proof (slot_before_queue its s) as Hbefore.
  pose proof (slot_at_check its s) as Hcheck.
  step_cases Hstep; cbn -[Nat.mul Nat.sub Nat.add budget.count].
  all: try (destruct (Hweight _ _ Hw) as (y & Hy & Hxy); cbn in Hxy).
  all: rewrite ?Hjobs; cbn [length fmap list_fmap sum_list sum_list_with].
  - (* the purl of the item cannot be extracted *)
    rewrite (Hbefore n Hph Hlen eq_refl) in Hitem.
    rewrite (candidates_drop _ _ _ Hitem). unfold budget.candidate. rewrite Hpurl.
    eexists. split; [exists ws; split; [exact Hws|reflexivity]|]. products.
  - (* a job is queued *)
    rewrite (Hbefore n Hph Hlen eq_refl) in Hitem.
    rewrite (candidates_drop _ _ _ Hitem). unfold budget.candidate. rewrite Hpurl.
    eexists. split; [exists ws; split; [exact Hws|reflexivity]|].
    change (list_fmap _ _ ?g ?l) with (g <$> l).
    rewrite fmap_app, sum_list_append. cbn [fmap list_fmap sum_list sum_list_with].
    unfold budget.job_budget at 2. cbn [enricher.job_item]. rewrite Hitem.
    destruct (HasLicense item); cbn [negb]; products.
  - eexists. split; [exists ws; split; [exact Hws|reflexivity]|]. products.
  - eexists. split; [exists ws; split; [exact Hws|reflexivity]|]. lia.
  - destruct (Hmove w _ enricher.Exited y 0%nat Hw Hy eq_refl) as [HF Hsum].
    eexists. split; [eexists; split; [exact HF|reflexivity]|]. lia.
  - destruct (Hmove w _ (enricher.Checking j) y (budget.job_budget b its j) Hw Hy eq_refl)
      as [HF Hsum].
    eexists. split; [eexists; split; [exact HF|reflexivity]|].
    cbn. lia.
  - destruct (Hmove w _ enricher.Receiving y 0%nat Hw Hy eq_refl) as [HF Hsum].
    eexists. split; [eexists; split; [exact HF|reflexivity]|]. lia.
  - destruct (Hmove w _ (enricher.Looking j (lookup_of j)) y b Hw Hy) as [HF Hsum].
    { split; [apply lookup_makes_le|lia]. }
    eexists. split; [eexists; split; [exact HF|reflexivity]|].
    rewrite (Hcheck w j Hph Hrange Hlen Hw) in Hitem.
    subst y. unfold budget.job_budget in Hsum. rewrite Hitem, Hlic in Hsum. lia.
  - destruct (Hmove w _ enricher.Receiving y 0%nat Hw Hy eq_refl) as [HF Hsum].
    eexists. split; [eexists; split; [exact HF|reflexivity]|]. lia.
  - destruct (Hmove w _ enricher.Receiving y 0%nat Hw Hy eq_refl) as [HF Hsum].
    eexists. split; [eexists; split; [exact HF|reflexivity]|]. lia.
  - destruct (Hmove w _ enricher.Receiving y 0%nat Hw Hy eq_refl) as [HF Hsum].
    eexists. split; [eexists; split; [exact HF|reflexivity]|]. lia.
  - destruct Hxy as [Hd Hle]. rewrite count_snoc.
    inversion Hd as [|? ? ? d' Hk|? ? ? d' Hfree Hk| | | |]; subst.
    + destruct (Hmove w _ (enricher.Looking j (k res)) _ d' Hw Hy) as [HF Hsum].
      { split; [apply Hk|lia]. }
      eexists. split; [eexists; split; [exact HF|reflexivity]|].
      destruct (P _); lia.
    + destruct (Hmove w _ (enricher.Looking j (k res)) _ y Hw Hy) as [HF Hsum].
      { split; [apply Hk|lia]. }
      eexists. split; [eexists; split; [exact HF|reflexivity]|].
      rewrite Hfree. lia.
  - destruct Hxy as [Hd Hle]. rewrite count_snoc.
    inversion Hd as [| | |? ? ? d' Hk|? ? ? d' Hfree Hk| |]; subst.
    + destruct (Hmove w _ (enricher.Looking j (k res)) _ d' Hw Hy) as [HF Hsum].
      { split; [apply Hk|lia]. }
      eexists. split; [eexists; split; [exact HF|reflexivity]|].
      destruct (P _); lia.
    + destruct (Hmove w _ (enricher.Looking j (k res)) _ y Hw Hy) as [HF Hsum].
      { split; [apply Hk|lia]. }
      eexists. split; [eexists; split; [exact HF|reflexivity]|].
      rewrite Hfree. lia.
  - destruct Hxy as [Hd Hle]. rewrite count_snoc.
    inversion Hd as [| | | | |? ? ? ? ? d' Hk|? ? ? ? ? d' Hfree Hk]; subst.
    + destruct (Hmove w _ (enricher.Looking j (k res)) _ d' Hw Hy) as [HF Hsum].
      { split; [apply Hk|lia]. }
      eexists. split; [eexists; split; [exact HF|reflexivity]|].
      destruct (P _); lia.
    + destruct (Hmove w _ (enricher.Looking j (k res)) _ y Hw Hy) as [HF Hsum].
      { split; [apply Hk|lia]. }
      eexists. split; [eexists; split; [exact HF|reflexivity]|].
      rewrite Hfree. lia.
Qed.

Lemma owed_start (its : list T) (parallelism : Z) (e : provider.world CS PS) :
  budget.owed P b its (enricher.start its parallelism e)
    (budget.count P (provider.calls e) + b * budget.candidates its).
Proof.
  unfold budget.owed, enricher.start; cbn -[Nat.mul Nat.add budget.count].
  exists (replicate (Z.to_nat parallelism) 0%nat). split.
  - induction (Z.to_nat parallelism); cbn; constructor; [reflexivity|assumption].
  - assert (E : forall n, sum_list (replicate n 0%nat) = 0%nat).
    { induction n; cbn; [reflexivity|assumption]. }
    rewrite E, drop_0. products.
Qed.

Lemma owed_reach sched (its : list T) (parallelism : Z) (e : provider.world CS PS) :
  exists n,
    budget.owed P b its (exec sched (enricher.start its parallelism e)) n
    /\ (n <= budget.count P (provider.calls e) + b * budget.candidates its)%nat.
Proof.
  induction sched as [|t sched IH] using rev_ind.
  - eexists. split; [apply owed_start|lia].
  - destruct IH as (n & Hn & Hle). rewrite exec_app. cbn.
    destruct (step t (exec sched (enricher.start its parallelism e))) as [s'|] eqn:E;
      [|eauto].
    destruct (owed_step its t (exec sched (enricher.start its parallelism e)) s' n)
      as (n' & Hn' & Hle'); try assumption.
    + intros i it Hi. apply reach_phase. exact Hi.
    + apply reach_jobs_in_range.
    + rewrite exec_length_items. reflexivity.
    + exists n'. split; [exact Hn'|lia].
Qed.

Lemma count_reach sched (its : list T) (parallelism : Z) (e : provider.world CS PS) :
  (budget.count P (provider.calls
                     (enricher.env (exec sched (enricher.start its parallelism e))))
   <= budget.count P (provider.calls e) + b * budget.candidates its)%nat.
Proof.
  destruct (owed_reach sched its parallelism e) as (n & (ws & _ & ->) & Hle). lia.
Qed.

End Kind.

(** The record of calls of a run starts with the record it was given. *)
Lemma calls_reach sched (its : list T) (parallelism : Z) (e : provider.world CS PS) :
  exists made,
    provider.calls (enricher.env (exec sched (enricher.start its parallelism e)))
    = (provider.calls e ++ made)%list.
Proof.
  apply (exec_invariant prov cacheInstance cacheTTL
           (fun s => exists made,
              provider.calls (enricher.env s) = (provider.calls e ++ made)%list)).
  - intros t s s' [made Hs] Hstep.
    destruct (step_logged_calls prov cacheInstance cacheTTL _ _ _ Hstep)
      as [_ [more Hmore]].
    exists (made ++ more)%list. rewrite Hmore, Hs, app_assoc. reflexivity.
  - exists []. cbn. rewrite app_nil_r. reflexivity.
Qed.

Lemma makes_le_S (P : provider.event -> bool) {R : Type}
    (q : provider.prog CS PS R) (d : nat) :
  budget.makes_le P q d -> budget.makes_le P q (S d).
Proof.
  induction 1; constructor; auto.
Qed.

Lemma makes_le_provider_calls (j : enricher.job) :
  budget.makes_le provider.is_provider_call (lookup_of j) 1.
Proof.
  assert (Hprov : forall opts : provider.GetOptions CS PS,
            budget.makes_le provider.is_provider_call
              (provider.Get_from_provider opts) 1).
  { intros opts. unfold provider.Get_from_provider.
    apply budget.makes_ProviderGet. intros [license [e|]]; [constructor|].
    destruct (provider.GetCache opts); [|constructor].
    destruct (negb (String.eqb license "")); [|constructor].
    apply budget.makes_CacheSetWithTTL_free; [reflexivity|].
    intros [e|]; constructor. }
  unfold enricher.lookup_of, provider.Get. cbn [provider.GetCache].
  destruct cacheInstance as [c|]; [|apply Hprov].
  apply budget.makes_CacheGet_free; [reflexivity|].
  intros [license [e|]]; [|constructor].
  destruct (negb (errors_Is e CacheMiss)); [constructor|]. apply Hprov.
Qed.

Lemma makes_le_cache_writes (j : enricher.job) :
  budget.makes_le provider.is_cache_write (lookup_of j) 1.
Proof.
  assert (Hprov : forall opts : provider.GetOptions CS PS,
            budget.makes_le provider.is_cache_write
              (provider.Get_from_provider opts) 1).
  { intros opts. unfold provider.Get_from_provider.
    apply budget.makes_ProviderGet_free; [reflexivity|].
    intros [license [e|]]; [constructor|].
    destruct (provider.GetCache opts); [|constructor].
    destruct (negb (String.eqb license "")); [|constructor].
    apply budget.makes_CacheSetWithTTL.
    intros [e|]; constructor. }
  unfold enricher.lookup_of, provider.Get. cbn [provider.GetCache].
  destruct cacheInstance as [c|]; [|apply Hprov].
  apply budget.makes_CacheGet_free; [reflexivity|].
  intros [license [e|]]; [|constructor].
  destruct (negb (errors_Is e CacheMiss)); [constructor|]. apply Hprov.
Qed.

Lemma makes_le_any_call (j : enricher.job) :
  budget.makes_le budget.any_call (lookup_of j) 3.
Proof.
  assert (Hprov : forall opts : provider.GetOptions CS PS,
            budget.makes_le budget.any_call (provider.Get_from_provider opts) 2).
  { intros opts. unfold provider.Get_from_provider.
    apply budget.makes_ProviderGet.
    intros [license [e|]]; [constructor|].
    destruct (provider.GetCache opts); [|constructor].
    destruct (negb (String.eqb license "")); [|constructor].
    apply budget.makes_CacheSetWithTTL.
    intros [e|]; constructor. }
  unfold enricher.lookup_of, provider.Get. cbn [provider.GetCache].
  destruct cacheInstance as [c|].
  - apply budget.makes_CacheGet.
    intros [license [e|]]; [|constructor].
    destruct (negb (errors_Is e CacheMiss)); [constructor|]. apply Hprov.
  - apply makes_le_S. apply Hprov.
Qed.

(** *** The log *)




(** *** The purls asked without a cache *)

Section NoCache.

Hypothesis no_cache : cacheInstance = None.

Local Abbreviation due := (asked.due prov cacheInstance cacheTTL).
Local Abbreviation worker_due := (asked.worker_due prov cacheInstance cacheTTL).

Lemma lookup_of_no_cache (j : enricher.job) :
  lookup_of j
  = provider.Get_from_provider
      {| provider.Purl := enricher.job_purl j; provider.GetProvider := prov;
         provider.GetCache := None; provider.CacheTTL := cacheTTL |}.
Proof.
  unfold enricher.lookup_of, provider.Get. cbn [provider.GetCache].
  rewrite no_cache. reflexivity.
Qed.

Lemma disj_union_list_insert (ws : list (gmultiset string)) w y y' :
  ws !! w = Some y ->
  ⋃+ (<[w := y']> ws) ⊎ y = ⋃+ ws ⊎ y'.
Proof.
  revert w. induction ws as [|a ws IH]; intros [|w] Hw; simpl in *; try discriminate.
  - injection Hw as ->. multiset_solver.
  - specialize (IH w Hw). multiset_solver.
Qed.

Lemma disj_union_list_append (a b : list (gmultiset string)) :
  ⋃+ (a ++ b) = ⋃+ a ⊎ ⋃+ b.
Proof.
  induction a as [|x a IH]; simpl; [multiset_solver|]. rewrite IH. multiset_solver.
Qed.

Lemma provider_purls_snoc (evs : list provider.event) (ev : provider.event) :
  asked.provider_purls (evs ++ [ev])
  = (asked.provider_purls evs
     ++ match ev with
        | provider.EvProviderGet purl _ => [purl]
        | _ => []
        end)%list.
Proof.
  unfold asked.provider_purls. rewrite omap_app. cbn. destruct ev; reflexivity.
Qed.

Lemma candidate_purls_drop (its : list T) k it :
  its !! k = Some it ->
  asked.candidate_purls (drop k its)
  = (match GetPurl it with
     | (purl, None) => if HasLicense it then [] else [purl]
     | (_, Some _) => []
     end ++ asked.candidate_purls (drop (S k) its))%list.
Proof.
  intros Hk. rewrite (drop_S _ _ _ Hk). unfold asked.candidate_purls. cbn.
  destruct (GetPurl it) as [purl [e|]]; [reflexivity|].
  destruct (HasLicense it); reflexivity.
Qed.

(** Every step keeps what is due. *)
Lemma due_step (its : list T) t s s' m :
  (forall i it, its !! i = Some it -> phase i it s) ->
  enricher.jobs_in_range s ->
  length (enricher.items s) = length its ->
  due its s m -> step t s = Some s' -> due its s' m.
Proof.
  intros Hph Hrange Hlen (ws & Hws & ->) Hstep. unfold asked.due.
  assert (Hweight : forall w x, enricher.workers s !! w = Some x ->
            exists y, ws !! w = Some y /\ worker_due its x y).
  { intros w x Hw. destruct (Forall2_lookup_l _ _ _ _ _ Hws Hw) as (y & ? & ?). eauto. }
  assert (Hmove : forall w x x' y y',
            enricher.workers s !! w = Some x -> ws !! w = Some y ->
            worker_due its x' y' ->
            Forall2 (worker_due its) (<[w := x']> (enricher.workers s))
              (<[w := y']> ws)
            /\ ⋃+ (<[w := y']> ws) ⊎ y = ⋃+ ws ⊎ y').
  { intros w x x' y y' Hw Hy Hx'. split.
    - apply Forall2_insert; assumption.
    - apply disj_union_list_insert. exact Hy. }
  pose proof (slot_before_queue its s) as Hbefore.
  pose proof (slot_at_check its s) as Hcheck.
  step_cases Hstep; cbn [enricher.workers enricher.jobs enricher.main enricher.env
                         enricher.set_worker asked.caller_due provider.calls].
  all: try (destruct (Hweight _ _ Hw) as (y & Hy & Hxy); cbn in Hxy).
  all: rewrite ?Hjobs.
  - (* the purl of the item cannot be extracted *)
    rewrite (Hbefore n Hph Hlen eq_refl) in Hitem.
    rewrite (candidate_purls_drop _ _ _ Hitem), Hpurl. cbn [app].
    exists ws. split; [exact Hws|reflexivity].
  - (* a job is queued *)
    rewrite (Hbefore n Hph Hlen eq_refl) in Hitem.
    rewrite (candidate_purls_drop _ _ _ Hitem), Hpurl.
    exists ws. split; [exact Hws|].
    assert (Hj : asked.job_due its
                   {| enricher.job_item := n; enricher.job_purl := purl |}
                 = if HasLicense item then ∅ else {[+ purl +]}).
    { unfold asked.job_due. cbn [enricher.job_item enricher.job_purl].
      rewrite Hitem. reflexivity. }
    rewrite fmap_app, disj_union_list_append. cbn [fmap list_fmap disj_union_list foldr].
    rewrite Hj.
    destruct (HasLicense item); cbn [app list_to_set_disj]; clear Hweight Hmove Hbefore Hcheck Hph; multiset_solver.
  - apply lookup_ge_None in Hitem. rewrite Hlen in Hitem.
    rewrite (drop_ge its n Hitem). cbn.
    exists ws. split; [exact Hws|]. clear Hweight Hmove Hbefore Hcheck Hph; multiset_solver.
  - exists ws. split; [exact Hws|reflexivity].
  - destruct (Hmove w _ enricher.Exited y ∅ Hw Hy eq_refl) as [HF Hsum].
    eexists. split; [exact HF|]. subst y. cbn. clear Hweight Hmove Hbefore Hcheck Hph; multiset_solver.
  - destruct (Hmove w _ (enricher.Checking j) y (asked.job_due its j) Hw Hy eq_refl)
      as [HF Hsum].
    eexists. split; [exact HF|]. subst y.
    cbn [fmap list_fmap disj_union_list foldr]. clear Hweight Hmove Hbefore Hcheck Hph; multiset_solver.
  - destruct (Hmove w _ enricher.Receiving y ∅ Hw Hy eq_refl) as [HF Hsum].
    eexists. split; [exact HF|].
    rewrite (Hcheck w j Hph Hrange Hlen Hw) in Hitem.
    subst y. unfold asked.job_due in Hsum. rewrite Hitem, Hlic in Hsum.
    clear Hweight Hmove Hbefore Hcheck Hph; multiset_solver.
  - destruct (Hmove w _ (enricher.Looking j (lookup_of j)) y
                {[+ enricher.job_purl j +]} Hw Hy) as [HF Hsum].
    { right. split; reflexivity. }
    eexists. split; [exact HF|].
    rewrite (Hcheck w j Hph Hrange Hlen Hw) in Hitem.
    subst y. unfold asked.job_due in Hsum. rewrite Hitem, Hlic in Hsum.
    clear Hweight Hmove Hbefore Hcheck Hph; multiset_solver.
  - destruct Hxy as [(r & _ & ->)|(Hq & _)];
      [|rewrite lookup_of_no_cache in Hq; discriminate Hq].
    destruct (Hmove w _ enricher.Receiving _ ∅ Hw Hy eq_refl) as [HF Hsum].
    eexists. split; [exact HF|]. clear Hweight Hmove Hbefore Hcheck Hph; multiset_solver.
  - destruct Hxy as [(r & _ & ->)|(Hq & _)];
      [|rewrite lookup_of_no_cache in Hq; discriminate Hq].
    destruct (Hmove w _ enricher.Receiving _ ∅ Hw Hy eq_refl) as [HF Hsum].
    eexists. split; [exact HF|]. clear Hweight Hmove Hbefore Hcheck Hph; multiset_solver.
  - destruct Hxy as [(r & _ & ->)|(Hq & _)];
      [|rewrite lookup_of_no_cache in Hq; discriminate Hq].
    destruct (Hmove w _ enricher.Receiving _ ∅ Hw Hy eq_refl) as [HF Hsum].
    eexists. split; [exact HF|]. clear Hweight Hmove Hbefore Hcheck Hph; multiset_solver.
  - destruct Hxy as [(r & Hq & _)|(Hq & _)]; [discriminate Hq|].
    rewrite lookup_of_no_cache in Hq. discriminate Hq.
  - destruct Hxy as [(r & Hq & _)|(Hq & ->)]; [discriminate Hq|].
    rewrite lookup_of_no_cache in Hq. unfold provider.Get_from_provider in Hq.
    cbn [provider.GetProvider provider.Purl provider.GetCache] in Hq.
    injection Hq as -> -> ->.
    destruct (Hmove w _ (enricher.Looking j
                           (let '(license, err) := res in
                            match err with
                            | Some e0 =>
                                provider.Ret
                                  ("", Some (WrapError
                                               "failed to get license from provider" e0))
                            | None => provider.Ret (license, None)
                            end)) _ ∅ Hw Hy) as [HF Hsum].
    { left. destruct res as [license [e0|]]; eauto. }
    eexists. split; [exact HF|].
    rewrite provider_purls_snoc, list_to_set_disj_app. cbn [list_to_set_disj].
    clear Hweight Hmove Hbefore Hcheck Hph; multiset_solver.
  - destruct Hxy as [(r & Hq & _)|(Hq & _)]; [discriminate Hq|].
    rewrite lookup_of_no_cache in Hq. discriminate Hq.
Qed.

Lemma disj_union_list_replicate_empty (n : nat) :
  ⋃+ replicate n (∅ : gmultiset string) = ∅.
Proof.
  induction n as [|n IH]; cbn; [reflexivity|]. rewrite IH. multiset_solver.
Qed.

Lemma due_start (its : list T) (parallelism : Z) (e : provider.world CS PS) :
  due its (enricher.start its parallelism e)
    (list_to_set_disj (asked.provider_purls (provider.calls e))
     ⊎ list_to_set_disj (asked.candidate_purls its)).
Proof.
  exists (replicate (Z.to_nat parallelism) ∅). split.
  - cbn. apply Forall2_replicate. reflexivity.
  - cbn. rewrite drop_0, disj_union_list_replicate_empty. multiset_solver.
Qed.

Lemma due_reach sched (its : list T) (parallelism : Z) (e : provider.world CS PS) :
  due its (exec sched (enricher.start its parallelism e))
    (list_to_set_disj (asked.provider_purls (provider.calls e))
     ⊎ list_to_set_disj (asked.candidate_purls its)).
Proof.
  induction sched as [|t sched IH] using rev_ind.
  - apply due_start.
  - rewrite exec_app. cbn.
    destruct (step t (exec sched (enricher.start its parallelism e))) as [s'|] eqn:E;
      [|exact IH].
    eapply due_step; [| | |exact IH|exact E].
    + intros i it Hi. apply reach_phase. exact Hi.
    + apply reach_jobs_in_range.
    + rewrite exec_length_items. reflexivity.
Qed.

Lemma due_exited (ws : list (enricher.worker CS PS)) (ms : list (gmultiset string))
    (its : list T) :
  enricher.all_exited ws = true ->
  Forall2 (worker_due its) ws ms -> ⋃+ ms = ∅.
Proof.
  intros Hall HF. induction HF as [|x m ws ms Hx HF IH]; [reflexivity|].
  assert (Hh : x = enricher.Exited)
    by (apply (all_exited_lookup (x :: ws) 0 x Hall); reflexivity).
  subst x. cbn in Hx. subst m. cbn.
  rewrite IH; [multiset_solver|].
  unfold enricher.all_exited in *. cbn in Hall. exact Hall.
Qed.

Lemma elements_list_to_set_disj (l : list string) :
  elements (list_to_set_disj l : gmultiset string) ≡ₚ l.
Proof.
  induction l as [|x l IH].
  - rewrite list_to_set_disj_nil, gmultiset_elements_empty. reflexivity.
  - rewrite list_to_set_disj_cons, gmultiset_elements_disj_union,
      gmultiset_elements_singleton, IH.
    reflexivity.
Qed.

(** Without a cache, a run that has returned has asked the provider for
    the purls of the candidates, each as often as it occurs. *)
Lemma asked_at_return sched (its : list T) (parallelism : Z)
    (e : provider.world CS PS) :
  (0 < parallelism)%Z ->
  let s := exec sched (enricher.start its parallelism e) in
  enricher.main s = enricher.Returned ->
  exists made,
    provider.calls (enricher.env s) = (provider.calls e ++ made)%list
    /\ asked.provider_purls made ≡ₚ asked.candidate_purls its.
Proof.
  intros Hpar s Hret.
  destruct (calls_reach sched its parallelism e) as [made Hmade].
  exists made. split; [exact Hmade|].
  destruct (due_reach sched its parallelism e) as (ws & HF & Hm).
  destruct (reach_shutdown_ok prov cacheInstance cacheTTL its parallelism e sched)
    as [Hexit Hall].
  fold s in HF, Hm, Hexit, Hall, Hmade. specialize (Hall Hret).
  assert (Hjobs : enricher.jobs s = []).
  { assert (Hlen : (0 < length (enricher.workers s))%nat)
      by (unfold s; rewrite exec_length_workers; lia).
    destruct (lookup_lt_is_Some_2 (enricher.workers s) 0 Hlen) as [x Hx].
    pose proof (all_exited_lookup _ _ _ Hall Hx) as ->.
    apply (Hexit 0%nat Hx). }
  rewrite Hjobs, Hret, (due_exited _ _ _ Hall HF), Hmade in Hm.
  unfold asked.provider_purls in Hm. rewrite omap_app in Hm.
  fold (asked.provider_purls (provider.calls e)) in Hm.
  fold (asked.provider_purls made) in Hm.
  rewrite list_to_set_disj_app in Hm. cbn in Hm.
  assert (Heq : list_to_set_disj (asked.provider_purls made)
                =@{gmultiset string} list_to_set_disj (asked.candidate_purls its))
    by (clear -Hm; multiset_solver).
  rewrite <- (elements_list_to_set_disj (asked.provider_purls made)), Heq.
  apply elements_list_to_set_disj.
Qed.

End NoCache.

(** *** A provider whose answers depend on the purl alone *)

Section Pure.

Variable f : string -> string * option error.
Variable I : CS -> Prop.
Hypothesis prov_answers : pure.answers f prov.
Hypothesis cache_coherent : pure.coherent_cache f I cacheInstance.

Local Abbreviation safe := (pure.safe f prov cacheInstance).
Local Abbreviation kept := (pure.kept f prov cacheInstance I).

Lemma safe_lookup_of (j : enricher.job) : safe (lookup_of j).
Proof.
  assert (Hprov : forall c, cacheInstance = c ->
            safe (provider.Get_from_provider
                    {| provider.Purl := enricher.job_purl j;
                       provider.GetProvider := prov;
                       provider.GetCache := c;
                       provider.CacheTTL := cacheTTL |})).
  { intros c Hc. unfold provider.Get_from_provider. cbn.
    apply pure.safe_ProviderGet.
    destruct (f (enricher.job_purl j)) as [license [e|]] eqn:Hf; [constructor|].
    destruct c as [c|]; [|constructor].
    destruct (String.eqb_spec license "") as [->|Hne]; cbn; [constructor|].
    apply pure.safe_CacheSetWithTTL; try assumption. constructor. }
  unfold enricher.lookup_of, provider.Get. cbn [provider.GetCache provider.Purl].
  destruct cacheInstance as [c|] eqn:Hc; [|apply Hprov; reflexivity].
  apply pure.safe_CacheGet; [reflexivity|].
  intros [v [e|]] Hres; cbn in Hres; [|constructor].
  rewrite Hres. cbn. apply Hprov. reflexivity.
Qed.

(** Every step keeps the pool to such collaborators. *)
Lemma kept_step t s s' : kept s -> step t s = Some s' -> kept s'.
Proof.
  intros (HI & Hev & Hsafe) Hstep. unfold pure.kept.
  step_cases Hstep; cbn.
  all: try (split; [exact HI|]; split; [exact Hev|]).
  all: try exact Hsafe.
  all: try (intros w' j' q' Hw';
            apply list_lookup_insert_Some in Hw' as [(_ & Hx & _)|(_ & Hw')];
            [ first [ discriminate Hx
                    | injection Hx as <- <-; apply safe_lookup_of ]
            | eapply Hsafe; exact Hw' ]).
  - (* a cache read *)
    pose proof (Hsafe _ _ _ Hw) as Hq.
    inversion Hq as [|c' key' k' Hc Hk| |]; subst.
    cbn in cache_coherent.
    destruct (pure.coherent_Get _ _ _ cache_coherent
                (provider.cache_st (enricher.env s)) key HI) as [Hres HI'].
    rewrite Hcall in Hres, HI'. cbn in Hres, HI'.
    split; [exact HI'|]. split.
    + apply Forall_app. split; [exact Hev|]. repeat constructor. exact Hres.
    + intros w' j' q' Hw'.
      apply list_lookup_insert_Some in Hw' as [(_ & Hx & _)|(_ & Hw')];
        [|eapply Hsafe; exact Hw'].
      injection Hx as <- <-. apply Hk. exact Hres.
  - (* a provider call *)
    pose proof (Hsafe _ _ _ Hw) as Hq.
    inversion Hq as [| |purl' k' Hk|]; subst.
    pose proof (prov_answers (provider.provider_st (enricher.env s)) purl) as Hres.
    rewrite Hcall in Hres. cbn in Hres. subst res.
    split; [exact HI|]. split.
    + apply Forall_app. split; [exact Hev|]. repeat constructor.
    + intros w' j' q' Hw'.
      apply list_lookup_insert_Some in Hw' as [(_ & Hx & _)|(_ & Hw')];
        [|eapply Hsafe; exact Hw'].
      injection Hx as <- <-. exact Hk.
  - (* a cache write *)
    pose proof (Hsafe _ _ _ Hw) as Hq.
    inversion Hq as [| | |c' key' val' ttl' k' Hc Hf Hne Hk]; subst.
    cbn in cache_coherent.
    destruct (pure.coherent_SetWithTTL _ _ _ cache_coherent
                (provider.cache_st (enricher.env s)) key val ttl HI Hf Hne)
      as [Hres HI'].
    rewrite Hcall in Hres, HI'. cbn in Hres, HI'. subst res.
    split; [exact HI'|]. split.
    + apply Forall_app. split; [exact Hev|]. repeat constructor.
    + intros w' j' q' Hw'.
      apply list_lookup_insert_Some in Hw' as [(_ & Hx & _)|(_ & Hw')];
        [|eapply Hsafe; exact Hw'].
      injection Hx as <- <-. exact Hk.
Qed.

Lemma kept_start (its : list T) (parallelism : Z) (e : provider.world CS PS) :
  I (provider.cache_st e) -> provider.calls e = [] ->
  kept (enricher.start its parallelism e).
Proof.
  intros HI He. unfold pure.kept. cbn. rewrite He.
  split; [exact HI|]. split; [constructor|].
  intros w j q Hw. apply lookup_replicate in Hw as [Hx _]. discriminate.
Qed.

(** With such collaborators the lookup of a purl has one result. *)
Lemma yields_lookup_result (j : enricher.job) evs r :
  provider.yields (lookup_of j) evs r ->
  Forall (pure.event_ok f) evs ->
  r = pure.lookup_result f (enricher.job_purl j).
Proof.
  intros Hy Hev. unfold pure.lookup_result.
  assert (Hprov : forall (c : option (provider.Cache CS)) evs',
            provider.yields
              (provider.Get_from_provider
                 {| provider.Purl := enricher.job_purl j;
                    provider.GetProvider := prov;
                    provider.GetCache := c;
                    provider.CacheTTL := cacheTTL |}) evs' r ->
            Forall (pure.event_ok f) evs' ->
            r = match f (enricher.job_purl j) with
                | (license, None) => (license, None)
                | (_, Some e) =>
                    ("", Some (WrapError "failed to get license from provider" e))
                end).
  { intros c evs' Hy' Hev'.
    apply yields_Get_from_provider_inv in Hy' as (res & rest & -> & Hcase).
    cbn [provider.Purl provider.GetCache provider.CacheTTL] in Hcase.
    apply Forall_cons in Hev' as [Hres Hrest]. cbn in Hres. subst res.
    destruct (f (enricher.job_purl j)) as [license [e|]].
    - destruct Hcase as [_ ->]. reflexivity.
    - destruct Hcase as [(_ & -> & _)|(setErr & _ & _ & -> & ->)]; [reflexivity|].
      apply Forall_cons in Hrest as [Hset _]. cbn in Hset. subst setErr.
      reflexivity. }
  apply yields_Get_inv in Hy. cbn [provider.GetCache provider.Purl] in Hy.
  destruct cacheInstance as [c|]; [|eapply Hprov; eassumption].
  destruct Hy as (res & rest & -> & Hcase).
  apply Forall_cons in Hev as [Hres Hrest]. cbn in Hres.
  destruct res as [v [e|]]; cbn in Hres.
  - rewrite Hres in Hcase. eapply Hprov; eassumption.
  - destruct Hcase as [_ ->]. rewrite Hres. reflexivity.
Qed.

(** When the call has returned, every slot holds what the run makes of
    the item it held at the start. *)
Lemma enriched_slot (its : list T) (parallelism : Z) (e : provider.world CS PS)
    sched i it :
  I (provider.cache_st e) -> provider.calls e = [] ->
  (0 < parallelism)%Z ->
  its !! i = Some it ->
  let s := exec sched (enricher.start its parallelism e) in
  enricher.main s = enricher.Returned ->
  enricher.items s !! i = Some (pure.enriched f it).
Proof.
  intros HI He Hpar Hi s Hret.
  assert (Hkept : kept s).
  { apply (exec_invariant prov cacheInstance cacheTTL kept).
    - intros t s1 s2 Hs Hstep. eapply kept_step; eassumption.
    - apply kept_start; assumption. }
  destruct Hkept as (_ & Hev & _).
  assert (Hworkers : (0 < length (enricher.workers s))%nat).
  { unfold s. rewrite exec_length_workers. lia. }
  destruct (phase_returned prov cacheInstance cacheTTL i it s Hret
              (reach_shutdown_ok prov cacheInstance cacheTTL its parallelism e sched)
              Hworkers
              (reach_phase prov cacheInstance cacheTTL its parallelism e sched i it Hi))
    as [(p & err & Hp & Hitem & _)|[(p & Hp & Hlic & Hitem)
       |(p & evs & lic & licErr & Hp & Hlic & Hy & Hsub & Hitem)]];
    unfold pure.enriched; rewrite Hp.
  - exact Hitem.
  - rewrite Hlic. exact Hitem.
  - rewrite Hlic.
    assert (Hr : (lic, licErr) = pure.lookup_result f p).
    { apply (yields_lookup_result (enricher.job_for i p) evs); [exact Hy|].
      apply Forall_forall. intros ev Hin.
      eapply Forall_forall; [exact Hev|].
      eapply elem_of_sublist; eassumption. }
    unfold pure.lookup_result in Hr.
    destruct (f p) as [license [e'|]]; injection Hr as -> ->.
    + destruct Hitem as [Hitem _]. exact Hitem.
    + exact Hitem.
Qed.

Lemma enriched_items (its : list T) (parallelism : Z) (e : provider.world CS PS)
    sched :
  I (provider.cache_st e) -> provider.calls e = [] ->
  (0 < parallelism)%Z ->
  let s := exec sched (enricher.start its parallelism e) in
  enricher.main s = enricher.Returned ->
  enricher.items s = pure.enriched f <$> its.
Proof.
  intros HI He Hpar s Hret. apply list_eq. intros i.
  rewrite list_lookup_fmap.
  destruct (its !! i) as [it|] eqn:Hi; cbn.
  - apply enriched_slot; assumption.
  - apply lookup_ge_None. unfold s. rewrite exec_length_items. cbn.
    apply lookup_ge_None. exact Hi.
Qed.

End Pure.

(** *** Items that all have a license *)

(** While every item has a license no worker enters a lookup: the slots
    and the world stay as they are. *)
Lemma all_licensed_step (its : list T) (e : provider.world CS PS) t s s' :
  (forall it, it ∈ its -> HasLicense it = true) ->
  enricher.items s = its /\ enricher.env s = e
  /\ (forall w j q, enricher.workers s !! w ≠ Some (enricher.Looking j q)) ->
  step t s = Some s' ->
  enricher.items s' = its /\ enricher.env s' = e
  /\ (forall w j q, enricher.workers s' !! w ≠ Some (enricher.Looking j q)).
Proof.
  intros Hall (Hits & Henv & Hno) Hstep.
  step_cases Hstep; cbn.
  all: try (exfalso; eapply Hno; exact Hw).
  all: split; [exact Hits|]; split; [exact Henv|]; try exact Hno.
  all: intros w' j' q' Hw';
    apply list_lookup_insert_Some in Hw' as [(_ & Hx & _)|(_ & Hw')];
    [|eapply Hno; exact Hw'].
  all: try discriminate Hx.
  (* the check of an item that has no license *)
  rewrite Hits in Hitem. apply list_elem_of_lookup_2 in Hitem.
  rewrite (Hall _ Hitem) in Hlic. discriminate.
Qed.

Lemma all_licensed_reach (its : list T) (parallelism : Z)
    (e : provider.world CS PS) sched :
  (forall it, it ∈ its -> HasLicense it = true) ->
  let s := exec sched (enricher.start its parallelism e) in
  enricher.items s = its /\ enricher.env s = e.
Proof.
  intros Hall s.
  assert (Hinv : enricher.items s = its /\ enricher.env s = e
                 /\ (forall w j q,
                       enricher.workers s !! w ≠ Some (enricher.Looking j q))).
  { apply (exec_invariant prov cacheInstance cacheTTL
             (fun s => enricher.items s = its /\ enricher.env s = e
                       /\ (forall w j q,
                             enricher.workers s !! w ≠ Some (enricher.Looking j q)))).
    - intros t s1 s2 Hs Hstep. eapply all_licensed_step; eassumption.
    - cbn. split; [reflexivity|]. split; [reflexivity|].
      intros w j q Hw. apply lookup_replicate in Hw as [Hx _]. discriminate. }
  destruct Hinv as (? & ? & _). auto.
Qed.

End PoolMore.


(** X8.  The pool asks at most once for each item it has to look up.  In every
    state of every run, under every schedule and with any provider and
    cache, the calls made since the start are at most one provider call and
    at most one cache write for each item whose purl can be extracted and
    that has no license, and at most three calls of any kind for each. *)
Theorem lookups_are_bounded_by_the_candidates :
  forall (T : Type) (HT : enrichableItem T) (CS PS : Type)
         (prov : provider.Provider PS) (cacheInstance : option (provider.Cache CS))
         (cacheTTL : Duration) (its : list T) (parallelism : Z)
         (e : provider.world CS PS) (sched : list enricher.thread),
    let s := enricher.exec prov cacheInstance cacheTTL sched
               (enricher.start its parallelism e) in
    exists made,
      provider.calls (enricher.env s) = (provider.calls e ++ made)%list
      /\ (length (List.filter provider.is_provider_call made)
          <= budget.candidates its)%nat
      /\ (length (List.filter provider.is_cache_write made)
          <= budget.candidates its)%nat
      /\ (length made <= 3 * budget.candidates its)%nat.
Proof.
  intros T HT CS PS prov cacheInstance cacheTTL its parallelism e sched s.
  destruct (calls_reach prov cacheInstance cacheTTL sched its parallelism e)
    as [made Hmade].
  exists made. split; [exact Hmade|].
  pose proof (count_reach prov cacheInstance cacheTTL provider.is_provider_call 1
                (makes_le_provider_calls prov cacheInstance cacheTTL)
                sched its parallelism e) as H1.
  pose proof (count_reach prov cacheInstance cacheTTL provider.is_cache_write 1
                (makes_le_cache_writes prov cacheInstance cacheTTL)
                sched its parallelism e) as H2.
  pose proof (count_reach prov cacheInstance cacheTTL budget.any_call 3
                (makes_le_any_call prov cacheInstance cacheTTL)
                sched its parallelism e) as H3.
  rewrite Hmade in H1, H2, H3. unfold budget.count in H1, H2, H3.
  rewrite List.filter_app, length_app in H1, H2, H3.
  assert (Hall : forall l : list provider.event,
            List.filter budget.any_call l = l).
  { induction l as [|x l IH]; cbn; [reflexivity|]. rewrite IH. reflexivity. }
  rewrite (Hall made) in H3.
  repeat split; lia.
Qed.


Lemma clamp_positive (parallelism : Z) : (0 < enricher.clamp parallelism)%Z.
Proof.
  unfold enricher.clamp. destruct (Z.leb_spec parallelism 0); lia.
Qed.

Lemma memory_cache_coherent (f : string -> string * option error) (now : Time) :
  pure.coherent f (pure.memory_ok f) (fixtures.memory_cache now).
Proof.
  split.
  - intros cs key [Hopen Hent]. cbn. split; [|split; assumption].
    unfold MemoryCache.Get. rewrite Hopen.
    destruct (MemoryCache.cache cs !! key) as [entry|] eqn:Hk; [|reflexivity].
    destruct (MemoryCache.isExpired now entry); [reflexivity|].
    cbn. apply Hent. exact Hk.
  - intros cs key val ttl [Hopen Hent] Hf Hne. cbn.
    unfold MemoryCache.SetWithTTL. rewrite Hopen. cbn.
    split; [reflexivity|]. split; [reflexivity|].
    intros k entry Hk. cbn in Hk.
    apply lookup_insert_Some in Hk as [[<- <-]|[_ Hk]]; [exact Hf|].
    apply Hent. exact Hk.
Qed.

Lemma bbolt_cache_coherent (f : string -> string * option error) (now : Time) :
  (forall key license, f key = (license, None) -> license ≠ "" -> cache.storable key) ->
  pure.coherent f (pure.bbolt_ok f) (fixtures.bbolt_cache now).
Proof.
  intros Hstorable. split.
  - intros cs key (Hopen & b & Hb & Hent). cbn.
    split; [|split; [assumption|eauto]].
    unfold BboltCache.Get, BboltCache.Bucket_Get. rewrite Hopen, Hb.
    destruct (b !! key) as [[entry|raw]|] eqn:Hk; [| |reflexivity].
    + destruct (BboltCache.isExpired now entry); [reflexivity|].
      cbn. apply (Hent _ _ Hk).
    + cbn. apply (Hent _ _ Hk).
  - intros cs key val ttl (Hopen & b & Hb & Hent) Hf Hne. cbn.
    destruct (Hstorable key val Hf Hne) as [Hkey Hlen].
    unfold BboltCache.SetWithTTL, BboltCache.Bucket_Put. rewrite Hopen, Hb.
    destruct (Nat.eqb_spec (String.length key) 0) as [E|E].
    { destruct key; [congruence|discriminate]. }
    destruct (Z.ltb_spec BboltCache.MaxKeySize (Z.of_nat (String.length key)));
      [lia|].
    cbn. split; [reflexivity|]. split; [reflexivity|].
    eexists. split; [reflexivity|].
    intros k x Hk.
    apply lookup_insert_Some in Hk as [[<- <-]|[_ Hk]]; [exact Hf|].
    apply (Hent _ _ Hk).
Qed.

(** X9.  The result of a run is a function of the items and of the answers of
    the provider.  With a provider whose answer depends on the purl alone
    and a cache that only gives back what the provider answered (no cache,
    the volatile cache, or the durable cache when every purl with a license
    is a key the store accepts), a run that starts with at least one worker
    leaves in every slot, under every schedule on which it returns, the
    item with the license the provider gives for its purl, or the item as
    it was when it has a license, no purl, or the provider has no license
    for it.  So SPDXEnricher.Enrich and CycloneDXEnricher.Enrich write the
    same document, whatever the parallelism and the interleaving of the
    workers. *)
Theorem enrichment_does_not_depend_on_the_schedule :
  (forall (f : string -> string * option error) (now : Time),
     pure.coherent f (pure.memory_ok f) (fixtures.memory_cache now))
  /\ (forall (f : string -> string * option error) (now : Time),
        (forall key license,
           f key = (license, None) -> license ≠ "" -> cache.storable key) ->
        pure.coherent f (pure.bbolt_ok f) (fixtures.bbolt_cache now))
  /\ forall (CS PS : Type) (prov : provider.Provider PS)
         (cacheInstance : option (provider.Cache CS)) (cacheTTL : Duration)
         (f : string -> string * option error) (I : CS -> Prop),
    pure.answers f prov ->
    pure.coherent_cache f I cacheInstance ->
    (forall (T : Type) (HT : enrichableItem T) (its : list T) (parallelism : Z)
            (e : provider.world CS PS) (sched : list enricher.thread),
       I (provider.cache_st e) -> provider.calls e = [] ->
       (0 < parallelism)%Z ->
       let s := enricher.exec prov cacheInstance cacheTTL sched
                  (enricher.start its parallelism e) in
       enricher.main s = enricher.Returned ->
       enricher.items s = pure.enriched f <$> its)
    /\ (forall (bytes : Type) (json_read : bytes -> option json)
               (json_write : json -> bytes) (sched : list enricher.thread)
               (e : provider.world CS PS) (opts : enricher.Options bytes)
               (doc : spdx.Document) r e' lg,
          I (provider.cache_st e) -> provider.calls e = [] ->
          enricher.ParseSBOMFile json_read (enricher.SBOM opts) = enricher.Ok doc ->
          elems (spdx.Packages doc) ≠ [] ->
          enricher.SPDXEnricher_Enrich json_read json_write prov cacheInstance
            cacheTTL sched e opts = Some (r, e', lg) ->
          r = enricher.Ok
                (json_write
                   (spdx.encode_Document
                      {| spdx.SPDXVersion := spdx.SPDXVersion doc;
                         spdx.DocSPDXID := spdx.DocSPDXID doc;
                         spdx.Packages :=
                           Some (pure.enriched f <$> elems (spdx.Packages doc)) |})))
    /\ (forall (bytes : Type) (json_read : bytes -> option json)
               (json_write : json -> bytes) (sched : list enricher.thread)
               (e : provider.world CS PS) (opts : enricher.Options bytes)
               (bom : cyclonedx.BOM) r e' lg,
          I (provider.cache_st e) -> provider.calls e = [] ->
          enricher.ParseCycloneDXFile json_read (enricher.SBOM opts) = enricher.Ok bom ->
          cyclonedx.Components bom ≠ [] ->
          enricher.CycloneDXEnricher_Enrich json_read json_write prov cacheInstance
            cacheTTL sched e opts = Some (r, e', lg) ->
          r = enricher.Ok
                (json_write
                   (cyclonedx.encode_BOM
                      {| cyclonedx.BOMFormat := cyclonedx.BOMFormat bom;
                         cyclonedx.SpecVersion := cyclonedx.SpecVersion bom;
                         cyclonedx.Components :=
                           pure.enriched f <$> cyclonedx.Components bom |}))).
Proof.
  split; [exact memory_cache_coherent|]. split; [exact bbolt_cache_coherent|].
  intros CS PS prov cacheInstance cacheTTL f I Hans Hcoh.
  split; [|split].
  - intros T HT its parallelism e sched HI He Hpar s Hret.
    eapply enriched_items; eassumption.
  - intros bytes json_read json_write sched e opts doc r e' lg HI He Hparse Hne Hrun.
    apply SPDXEnricher_Enrich_Some in Hrun. rewrite Hparse in Hrun.
    destruct Hrun as [(Hnil & _)|(_ & Hret & -> & _)]; [contradiction|].
    rewrite (enriched_items prov cacheInstance cacheTTL f I Hans Hcoh
               _ _ e sched HI He (clamp_positive _) Hret).
    reflexivity.
  - intros bytes json_read json_write sched e opts bom r e' lg HI He Hparse Hne Hrun.
    apply CycloneDXEnricher_Enrich_Some in Hrun. rewrite Hparse in Hrun.
    destruct Hrun as [(Hnil & _)|(_ & Hret & -> & _)]; [contradiction|].
    rewrite (enriched_items prov cacheInstance cacheTTL f I Hans Hcoh
               _ _ e sched HI He (clamp_positive _) Hret).
    reflexivity.
Qed.

(** Three packages, two workers, the volatile cache and a provider that
    answers MIT: the package without a license gets MIT, the package with
    Apache-2.0 and the package without a purl are as they were. *)
Lemma enrichment_does_not_depend_on_the_schedule_witness :
  let f := fun _ : string => ("MIT", None : option error) in
  let its := [fixtures.bare_package; fixtures.apache_package;
              fixtures.no_purl_package] in
  let s := enricher.exec (fixtures.answering ("MIT", None))
             (Some (fixtures.memory_cache 1000%Z)) 0%Z
             (enricher.sequential_schedule 3 2)
             (enricher.start its 2 (fixtures.fresh_world MemoryCache.NewMemoryCache)) in
  enricher.items s
  = [SetLicense fixtures.bare_package "MIT"; fixtures.apache_package;
     fixtures.no_purl_package].
Proof.
  cbn zeta.
  destruct enrichment_does_not_depend_on_the_schedule as (Hmem & _ & Hrun).
  destruct (Hrun MemoryCache.t nat (fixtures.answering ("MIT", None))
              (Some (fixtures.memory_cache 1000%Z)) 0%Z
              (fun _ : string => ("MIT", None : option error))
              (pure.memory_ok (fun _ : string => ("MIT", None : option error))))
    as (Hpool & _).
  - intros ps purl. reflexivity.
  - apply Hmem.
  - rewrite (Hpool spdx.Package _
               [fixtures.bare_package; fixtures.apache_package;
                fixtures.no_purl_package] 2%Z
               (fixtures.fresh_world MemoryCache.NewMemoryCache)
               (enricher.sequential_schedule 3 2)).
    + reflexivity.
    + split; [reflexivity|]. intros key entry Hk. cbn in Hk.
      rewrite lookup_empty in Hk. discriminate.
    + reflexivity.
    + lia.
    + vm_compute. reflexivity.
Defined.


Lemma licensed_SPDX_Enrich {bytes : Type} (json_read : bytes -> option json)
    (json_write : json -> bytes) {CS PS : Type} (prov : provider.Provider PS)
    (cacheInstance : option (provider.Cache CS)) (cacheTTL : Duration)
    (sched : list enricher.thread) (e : provider.world CS PS)
    (opts : enricher.Options bytes) (doc : spdx.Document) r e' lg :
  enricher.ParseSBOMFile json_read (enricher.SBOM opts) = enricher.Ok doc ->
  (forall pkg, pkg ∈ elems (spdx.Packages doc) -> HasLicense pkg = true) ->
  enricher.SPDXEnricher_Enrich json_read json_write prov cacheInstance
    cacheTTL sched e opts = Some (r, e', lg) ->
  e' = e
  /\ r = match elems (spdx.Packages doc) with
         | [] => enricher.Ok (enricher.SBOM opts)
         | pkgs =>
             enricher.Ok
               (json_write
                  (spdx.encode_Document
                     {| spdx.SPDXVersion := spdx.SPDXVersion doc;
                        spdx.DocSPDXID := spdx.DocSPDXID doc;
                        spdx.Packages := Some pkgs |}))
         end.
Proof.
  intros Hparse Hall Hrun.
  apply SPDXEnricher_Enrich_Some in Hrun. rewrite Hparse in Hrun.
  destruct Hrun as [(Hnil & -> & -> & _)|(Hne & Hret & -> & -> & _)].
  - rewrite Hnil. auto.
  - destruct (all_licensed_reach prov cacheInstance cacheTTL
                (elems (spdx.Packages doc))
                (enricher.clamp (enricher.Parallelism opts)) e sched Hall)
      as [Hitems Henv].
    rewrite Hitems, Henv. split; [reflexivity|].
    destruct (elems (spdx.Packages doc)); [congruence|reflexivity].
Qed.

Lemma licensed_CycloneDX_Enrich {bytes : Type} (json_read : bytes -> option json)
    (json_write : json -> bytes) {CS PS : Type} (prov : provider.Provider PS)
    (cacheInstance : option (provider.Cache CS)) (cacheTTL : Duration)
    (sched : list enricher.thread) (e : provider.world CS PS)
    (opts : enricher.Options bytes) (bom : cyclonedx.BOM) r e' lg :
  enricher.ParseCycloneDXFile json_read (enricher.SBOM opts) = enricher.Ok bom ->
  (forall c, c ∈ cyclonedx.Components bom -> HasLicense c = true) ->
  enricher.CycloneDXEnricher_Enrich json_read json_write prov cacheInstance
    cacheTTL sched e opts = Some (r, e', lg) ->
  e' = e
  /\ r = match cyclonedx.Components bom with
         | [] => enricher.Ok (enricher.SBOM opts)
         | _ => enricher.Ok (json_write (cyclonedx.encode_BOM bom))
         end.
Proof.
  intros Hparse Hall Hrun.
  apply CycloneDXEnricher_Enrich_Some in Hrun. rewrite Hparse in Hrun.
  destruct Hrun as [(Hnil & -> & -> & _)|(Hne & Hret & -> & -> & _)].
  - rewrite Hnil. auto.
  - destruct (all_licensed_reach prov cacheInstance cacheTTL
                (cyclonedx.Components bom)
                (enricher.clamp (enricher.Parallelism opts)) e sched Hall)
      as [Hitems Henv].
    rewrite Hitems, Henv. split; [reflexivity|].
    destruct bom as [fmt ver cs]. cbn in *.
    destruct cs; [congruence|reflexivity].
Qed.

(** X10.  A document whose items all have a license costs nothing: under every
    schedule the pool leaves every slot and the world as they were (no
    cache read, no provider call, no cache write), and Enrich returns the
    input bytes when there are no items and otherwise the parsed document
    written out again. *)
Theorem licensed_document_costs_no_lookup :
  forall (CS PS : Type) (prov : provider.Provider PS)
         (cacheInstance : option (provider.Cache CS)) (cacheTTL : Duration),
    (forall (T : Type) (HT : enrichableItem T) (its : list T) (parallelism : Z)
            (e : provider.world CS PS) (sched : list enricher.thread),
       (forall it, it ∈ its -> HasLicense it = true) ->
       let s := enricher.exec prov cacheInstance cacheTTL sched
                  (enricher.start its parallelism e) in
       enricher.items s = its /\ enricher.env s = e)
    /\ (forall (bytes : Type) (json_read : bytes -> option json)
               (json_write : json -> bytes) (sched : list enricher.thread)
               (e : provider.world CS PS) (opts : enricher.Options bytes)
               (doc : spdx.Document) r e' lg,
          enricher.ParseSBOMFile json_read (enricher.SBOM opts) = enricher.Ok doc ->
          (forall pkg, pkg ∈ elems (spdx.Packages doc) -> HasLicense pkg = true) ->
          enricher.SPDXEnricher_Enrich json_read json_write prov cacheInstance
            cacheTTL sched e opts = Some (r, e', lg) ->
          e' = e
          /\ r = match elems (spdx.Packages doc) with
                 | [] => enricher.Ok (enricher.SBOM opts)
                 | pkgs =>
                     enricher.Ok
                       (json_write
                          (spdx.encode_Document
                             {| spdx.SPDXVersion := spdx.SPDXVersion doc;
                                spdx.DocSPDXID := spdx.DocSPDXID doc;
                                spdx.Packages := Some pkgs |}))
                 end)
    /\ (forall (bytes : Type) (json_read : bytes -> option json)
               (json_write : json -> bytes) (sched : list enricher.thread)
               (e : provider.world CS PS) (opts : enricher.Options bytes)
               (bom : cyclonedx.BOM) r e' lg,
          enricher.ParseCycloneDXFile json_read (enricher.SBOM opts) = enricher.Ok bom ->
          (forall c, c ∈ cyclonedx.Components bom -> HasLicense c = true) ->
          enricher.CycloneDXEnricher_Enrich json_read json_write prov cacheInstance
            cacheTTL sched e opts = Some (r, e', lg) ->
          e' = e
          /\ r = match cyclonedx.Components bom with
                 | [] => enricher.Ok (enricher.SBOM opts)
                 | _ => enricher.Ok (json_write (cyclonedx.encode_BOM bom))
                 end).
Proof.
  intros CS PS prov cacheInstance cacheTTL. split; [|split].
  - intros T HT its parallelism e sched Hall s.
    apply all_licensed_reach. exact Hall.
  - intros. eapply licensed_SPDX_Enrich; eassumption.
  - intros. eapply licensed_CycloneDX_Enrich; eassumption.
Qed.

(** One package with licenseConcluded Apache-2.0 and a provider that
    answers MIT: the call count of the provider stays at 0. *)
Lemma licensed_document_costs_no_lookup_witness :
  exists r e' lg,
    enricher.SPDXEnricher_Enrich fixtures.read_tree fixtures.write_tree
      (fixtures.answering ("MIT", None)) (Some (fixtures.memory_cache 1000%Z)) 0%Z
      (enricher.sequential_schedule 1 4)
      (fixtures.fresh_world MemoryCache.NewMemoryCache)
      (fixtures.options (fixtures.spdx_tree [] [fixtures.apache_package]) 4)
    = Some (r, e', lg)
    /\ provider.provider_st e' = 0%nat /\ provider.calls e' = [].
Proof.
  destruct (enricher.SPDXEnricher_Enrich fixtures.read_tree fixtures.write_tree
      (fixtures.answering ("MIT", None)) (Some (fixtures.memory_cache 1000%Z)) 0%Z
      (enricher.sequential_schedule 1 4)
      (fixtures.fresh_world MemoryCache.NewMemoryCache)
      (fixtures.options (fixtures.spdx_tree [] [fixtures.apache_package]) 4))
    as [[[r e'] lg]|] eqn:Hrun; [|vm_compute in Hrun; discriminate].
  exists r, e', lg. split; [reflexivity|].
  destruct (licensed_document_costs_no_lookup MemoryCache.t nat
              (fixtures.answering ("MIT", None))
              (Some (fixtures.memory_cache 1000%Z)) 0%Z) as (_ & Hspdx & _).
  destruct (Hspdx json fixtures.read_tree fixtures.write_tree
              (enricher.sequential_schedule 1 4)
              (fixtures.fresh_world MemoryCache.NewMemoryCache)
              (fixtures.options (fixtures.spdx_tree [] [fixtures.apache_package]) 4)
              {| spdx.SPDXVersion := "SPDX-2.3";
                 spdx.DocSPDXID := "SPDXRef-DOCUMENT";
                 spdx.Packages := Some [fixtures.apache_package] |}
              r e' lg eq_refl) as [-> _].
  - intros pkg Hin. cbn in Hin. apply list_elem_of_singleton in Hin. subst pkg.
    reflexivity.
  - exact Hrun.
  - split; reflexivity.
Defined.

(** X11.  Enriching the output of Enrich again changes nothing once every item
    has a license.  When the text layer reads back what it writes, the
    bytes a run of Enrich returns parse again, and if every item of that
    document has a license, a second run on those bytes, with any provider,
    cache, parallelism and schedule, returns the same bytes and makes no
    call. *)
Theorem enrich_is_idempotent_on_licensed_output :
  forall (bytes : Type) (json_read : bytes -> option json)
         (json_write : json -> bytes),
    (forall v, json_read (json_write v) = Some v) ->
    (forall (CS PS : Type) (prov : provider.Provider PS)
            (cacheInstance : option (provider.Cache CS)) (cacheTTL : Duration)
            (sched : list enricher.thread) (e : provider.world CS PS)
            (opts : enricher.Options bytes) out e' lg,
       enricher.SPDXEnricher_Enrich json_read json_write prov cacheInstance
         cacheTTL sched e opts = Some (enricher.Ok out, e', lg) ->
       exists doc,
         enricher.ParseSBOMFile json_read out = enricher.Ok doc
         /\ ((forall pkg, pkg ∈ elems (spdx.Packages doc) -> HasLicense pkg = true) ->
             forall (CS2 PS2 : Type) (prov2 : provider.Provider PS2)
                    (cache2 : option (provider.Cache CS2)) (ttl2 : Duration)
                    (sched2 : list enricher.thread) (e2 : provider.world CS2 PS2)
                    (parallelism2 : Z) r2 e2' lg2,
               enricher.SPDXEnricher_Enrich json_read json_write prov2 cache2 ttl2
                 sched2 e2
                 {| enricher.SBOM := out; enricher.Parallelism := parallelism2 |}
               = Some (r2, e2', lg2) ->
               r2 = enricher.Ok out /\ e2' = e2))
    /\ (forall (CS PS : Type) (prov : provider.Provider PS)
               (cacheInstance : option (provider.Cache CS)) (cacheTTL : Duration)
               (sched : list enricher.thread) (e : provider.world CS PS)
               (opts : enricher.Options bytes) out e' lg,
          enricher.CycloneDXEnricher_Enrich json_read json_write prov cacheInstance
            cacheTTL sched e opts = Some (enricher.Ok out, e', lg) ->
          exists bom,
            enricher.ParseCycloneDXFile json_read out = enricher.Ok bom
            /\ ((forall c, c ∈ cyclonedx.Components bom -> HasLicense c = true) ->
                forall (CS2 PS2 : Type) (prov2 : provider.Provider PS2)
                       (cache2 : option (provider.Cache CS2)) (ttl2 : Duration)
                       (sched2 : list enricher.thread) (e2 : provider.world CS2 PS2)
                       (parallelism2 : Z) r2 e2' lg2,
                  enricher.CycloneDXEnricher_Enrich json_read json_write prov2
                    cache2 ttl2 sched2 e2
                    {| enricher.SBOM := out; enricher.Parallelism := parallelism2 |}
                  = Some (r2, e2', lg2) ->
                  r2 = enricher.Ok out /\ e2' = e2)).
Proof.
  intros bytes json_read json_write Hrw. split.
  - intros CS PS prov cacheInstance cacheTTL sched e opts out e' lg Hrun.
    apply SPDXEnricher_Enrich_Some in Hrun.
    destruct (enricher.ParseSBOMFile json_read (enricher.SBOM opts))
      as [doc|err] eqn:Hparse; [|destruct Hrun as [[=] _]].
    destruct Hrun as [(Hnil & [= ->] & _)|(Hne & Hret & [= ->] & _)].
    + exists doc. split; [exact Hparse|].
      intros Hall CS2 PS2 prov2 cache2 ttl2 sched2 e2 par2 r2 e2' lg2 Hrun2.
      destruct (licensed_SPDX_Enrich json_read json_write prov2 cache2 ttl2
                  sched2 e2
                  {| enricher.SBOM := enricher.SBOM opts;
                     enricher.Parallelism := par2 |}
                  doc r2 e2' lg2 Hparse Hall Hrun2) as [-> ->].
      rewrite Hnil. auto.
    + match goal with
      | |- context [json_write (spdx.encode_Document ?D)] => set (written := D)
      end.
      assert (Hparse2 : enricher.ParseSBOMFile json_read
                          (json_write (spdx.encode_Document written))
                        = enricher.Ok written).
      { unfold enricher.ParseSBOMFile.
        rewrite (UnwrapGitHubSBOM_written json_read _ written (Hrw _)).
        rewrite decode_encode_Document. reflexivity. }
      exists written. split; [exact Hparse2|].
      intros Hall CS2 PS2 prov2 cache2 ttl2 sched2 e2 par2 r2 e2' lg2 Hrun2.
      destruct (licensed_SPDX_Enrich json_read json_write prov2 cache2 ttl2
                  sched2 e2
                  {| enricher.SBOM := json_write (spdx.encode_Document written);
                     enricher.Parallelism := par2 |}
                  written r2 e2' lg2 Hparse2 Hall Hrun2) as [-> ->].
      split; [|reflexivity].
      unfold written at 1. cbn [spdx.Packages elems default].
      destruct (enricher.items _) as [|x xs] eqn:Hitems; [|reflexivity].
      exfalso. apply Hne. apply length_zero_iff_nil.
      pose proof (exec_length_items prov cacheInstance cacheTTL sched
                    (enricher.start (elems (spdx.Packages doc))
                       (enricher.clamp (enricher.Parallelism opts)) e)) as Hlen.
      rewrite Hitems in Hlen. symmetry. exact Hlen.
  - intros CS PS prov cacheInstance cacheTTL sched e opts out e' lg Hrun.
    apply CycloneDXEnricher_Enrich_Some in Hrun.
    destruct (enricher.ParseCycloneDXFile json_read (enricher.SBOM opts))
      as [bom|err] eqn:Hparse; [|destruct Hrun as [[=] _]].
    destruct Hrun as [(Hnil & [= ->] & _)|(Hne & Hret & [= ->] & _)].
    + exists bom. split; [exact Hparse|].
      intros Hall CS2 PS2 prov2 cache2 ttl2 sched2 e2 par2 r2 e2' lg2 Hrun2.
      destruct (licensed_CycloneDX_Enrich json_read json_write prov2 cache2 ttl2
                  sched2 e2
                  {| enricher.SBOM := enricher.SBOM opts;
                     enricher.Parallelism := par2 |}
                  bom r2 e2' lg2 Hparse Hall Hrun2) as [-> ->].
      rewrite Hnil. auto.
    + match goal with
      | |- context [json_write (cyclonedx.encode_BOM ?D)] => set (written := D)
      end.
      assert (Hparse2 : enricher.ParseCycloneDXFile json_read
                          (json_write (cyclonedx.encode_BOM written))
                        = enricher.Ok written).
      { unfold enricher.ParseCycloneDXFile. rewrite Hrw. cbn [mbind option_bind].
        rewrite decode_encode_BOM. reflexivity. }
      exists written. split; [exact Hparse2|].
      intros Hall CS2 PS2 prov2 cache2 ttl2 sched2 e2 par2 r2 e2' lg2 Hrun2.
      destruct (licensed_CycloneDX_Enrich json_read json_write prov2 cache2 ttl2
                  sched2 e2
                  {| enricher.SBOM := json_write (cyclonedx.encode_BOM written);
                     enricher.Parallelism := par2 |}
                  written r2 e2' lg2 Hparse2 Hall Hrun2) as [-> ->].
      split; [|reflexivity].
      unfold written at 1. cbn [cyclonedx.Components].
      destruct (enricher.items _) as [|x xs] eqn:Hitems; [|reflexivity].
      exfalso. apply Hne. apply length_zero_iff_nil.
      pose proof (exec_length_items prov cacheInstance cacheTTL sched
                    (enricher.start (cyclonedx.Components bom)
                       (enricher.clamp (enricher.Parallelism opts)) e)) as Hlen.
      rewrite Hitems in Hlen. symmetry. exact Hlen.
Qed.

(** A package without a license, enriched with MIT by a first run; the
    second run, with a provider that would answer ISC, returns the bytes of
    the first and the call count of its provider stays at 0. *)
Lemma enrich_is_idempotent_on_licensed_output_witness :
  let out :=
    fixtures.write_tree
      (spdx.encode_Document
         {| spdx.SPDXVersion := "SPDX-2.3";
            spdx.DocSPDXID := "SPDXRef-DOCUMENT";
            spdx.Packages := Some [SetLicense fixtures.bare_package "MIT"] |}) in
  exists e' lg r2 e2' lg2,
    enricher.SPDXEnricher_Enrich fixtures.read_tree fixtures.write_tree
      (fixtures.answering ("MIT", None)) None 0%Z
      (enricher.sequential_schedule 1 2) (fixtures.fresh_world tt)
      (fixtures.options (fixtures.spdx_tree [] [fixtures.bare_package]) 2)
    = Some (enricher.Ok out, e', lg)
    /\ enricher.SPDXEnricher_Enrich fixtures.read_tree fixtures.write_tree
         (fixtures.answering ("ISC", None)) None 0%Z
         (enricher.sequential_schedule 1 1) (fixtures.fresh_world tt)
         {| enricher.SBOM := out; enricher.Parallelism := 1 |}
       = Some (r2, e2', lg2)
    /\ r2 = enricher.Ok out /\ provider.provider_st e2' = 0%nat.
Proof.
  cbn zeta.
  destruct (enricher.SPDXEnricher_Enrich fixtures.read_tree fixtures.write_tree
      (fixtures.answering ("MIT", None)) None 0%Z
      (enricher.sequential_schedule 1 2) (fixtures.fresh_world tt)
      (fixtures.options (fixtures.spdx_tree [] [fixtures.bare_package]) 2))
    as [[[r e'] lg]|] eqn:Hrun; [|vm_compute in Hrun; discriminate].
  assert (Hr : r = enricher.Ok
                 (fixtures.write_tree
                    (spdx.encode_Document
                       {| spdx.SPDXVersion := "SPDX-2.3";
                          spdx.DocSPDXID := "SPDXRef-DOCUMENT";
                          spdx.Packages :=
                            Some [SetLicense fixtures.bare_package "MIT"] |}))).
  { vm_compute in Hrun. injection Hrun as <- _ _. reflexivity. }
  subst r.
  destruct (enricher.SPDXEnricher_Enrich fixtures.read_tree fixtures.write_tree
      (fixtures.answering ("ISC", None)) None 0%Z
      (enricher.sequential_schedule 1 1) (fixtures.fresh_world tt) _)
    as [[[r2 e2'] lg2]|] eqn:Hrun2; [|vm_compute in Hrun2; discriminate].
  exists e', lg, r2, e2', lg2. split; [reflexivity|]. split; [reflexivity|].
  destruct (enrich_is_idempotent_on_licensed_output json fixtures.read_tree
              fixtures.write_tree (fun v => eq_refl)) as [Hspdx _].
  destruct (Hspdx _ _ _ _ _ _ _ _ _ _ _ Hrun) as (doc & Hparse & Hagain).
  assert (Hall : forall pkg, pkg ∈ elems (spdx.Packages doc) ->
                               HasLicense pkg = true).
  { vm_compute in Hparse. injection Hparse as <-.
    intros pkg Hin. apply list_elem_of_singleton in Hin. subst pkg. reflexivity. }
  destruct (Hagain Hall _ _ _ _ _ _ _ _ _ _ _ Hrun2) as [-> ->].
  split; reflexivity.
Defined.

(** ** Format detection and dispatch *)

Section Dispatch.

Context {bytes : Type}.
Variable json_read : bytes -> option json.
Variable json_write : json -> bytes.
Context {CS PS : Type}.

(** A document whose format is detected is a JSON object. *)
Lemma DetectFormat_ok_object (data : bytes) (format : string) :
  sbom.DetectFormat json_read data = (format, None) ->
  exists raw, json_read data = Some (JObject raw).
Proof.
  unfold sbom.DetectFormat.
  destruct (json_read data) as [[| | | | |raw]|]; try discriminate; eauto.
Qed.

(** The format of a document that is detected starts with SPDX or with
    CycloneDX, or it is the string member spdxVersion. *)
Lemma detect_members_ok (raw : list (string * json)) (format : string) :
  sbom.detect_members raw = (format, None) ->
  sbom.as_string (member "spdxVersion" raw) = Some format
  \/ (sbom.as_string (member "spdxVersion" raw) = None
      /\ (format = "SPDX-2.3"
          \/ exists version, format = "CycloneDX-" ++ version)).
Proof.
  unfold sbom.detect_members.
  destruct (sbom.as_string (member "spdxVersion" raw)) as [v|].
  { intros [= <-]. left. reflexivity. }
  intros Hd. right. split; [reflexivity|].
  destruct (sbom.as_string (member "SPDXID" raw)) as [[|c rest]|].
  2:{ injection Hd as <-. left. reflexivity. }
  all: destruct (sbom.as_string (member "bomFormat" raw)) as [bomFormat|];
    try discriminate.
  all: destruct (String.eqb bomFormat "CycloneDX"); try discriminate.
  all: destruct (sbom.as_string (member "specVersion" raw)) as [v|];
    injection Hd as <-; right; eauto.
  all: exists "1.4"; reflexivity.
Qed.

Lemma SPDXEnricher_Enrich_Err (prov : provider.Provider PS)
    (cacheInstance : option (provider.Cache CS)) (cacheTTL : Duration)
    sched (e : provider.world CS PS) (opts : enricher.Options bytes) x e' lg :
  enricher.SPDXEnricher_Enrich json_read json_write prov cacheInstance cacheTTL
    sched e opts = Some (enricher.Err x, e', lg) ->
  exists err,
    enricher.ParseSBOMFile json_read (enricher.SBOM opts) = enricher.Err err
    /\ x = WrapError "failed to parse SBOM file" err /\ e' = e /\ lg = [].
Proof.
  intros Hrun. apply SPDXEnricher_Enrich_Some in Hrun.
  destruct (enricher.ParseSBOMFile json_read (enricher.SBOM opts)) as [doc|err].
  - destruct Hrun as [(_ & [=] & _)|(_ & _ & [=] & _)].
  - destruct Hrun as ([= ->] & -> & ->). eauto.
Qed.

Lemma CycloneDXEnricher_Enrich_Err (prov : provider.Provider PS)
    (cacheInstance : option (provider.Cache CS)) (cacheTTL : Duration)
    sched (e : provider.world CS PS) (opts : enricher.Options bytes) x e' lg :
  enricher.CycloneDXEnricher_Enrich json_read json_write prov cacheInstance cacheTTL
    sched e opts = Some (enricher.Err x, e', lg) ->
  exists err,
    enricher.ParseCycloneDXFile json_read (enricher.SBOM opts) = enricher.Err err
    /\ x = WrapError "failed to parse SBOM file" err /\ e' = e /\ lg = [].
Proof.
  intros Hrun. apply CycloneDXEnricher_Enrich_Some in Hrun.
  destruct (enricher.ParseCycloneDXFile json_read (enricher.SBOM opts)) as [doc|err].
  - destruct Hrun as [(_ & [=] & _)|(_ & _ & [=] & _)].
  - destruct Hrun as ([= ->] & -> & ->). eauto.
Qed.

(** After format detection the only way parsing fails is a member of the
    wrong JSON type. *)
Lemma ParseSBOMFile_Err_detected (data : bytes) (format : string) err :
  sbom.DetectFormat json_read data = (format, None) ->
  enricher.ParseSBOMFile json_read data = enricher.Err err ->
  err = WrapError "failed to parse SBOM JSON" (ErrorString "type error").
Proof.
  intros Hd Hp. destruct (DetectFormat_ok_object _ _ Hd) as [raw Hraw].
  unfold enricher.ParseSBOMFile, enricher.UnwrapGitHubSBOM in Hp.
  rewrite Hraw in Hp.
  destruct (member "sbom" raw) as [v|].
  - destruct (spdx.decode_Document v); [discriminate|].
    injection Hp as <-. reflexivity.
  - destruct (spdx.decode_Document (JObject raw)); [discriminate|].
    injection Hp as <-. reflexivity.
Qed.

Lemma ParseCycloneDXFile_Err (data : bytes) err :
  enricher.ParseCycloneDXFile json_read data = enricher.Err err ->
  err = WrapError "failed to parse CycloneDX JSON"
          (ErrorString "syntax or type error").
Proof.
  unfold enricher.ParseCycloneDXFile.
  destruct (json_read data ≫= cyclonedx.decode_BOM); [discriminate|].
  intros [= <-]. reflexivity.
Qed.

End Dispatch.

(** X12.  processFile fails before any lookup.  An error of processFile is the
    error of reading the file, of format detection, the unsupported-format
    error for a detected format that starts with neither SPDX nor
    CycloneDX, or the error of parsing the document into the structs of
    the detected format, which after detection can only be a member of the
    wrong JSON type; lookup failures never make it fail.  In every one of
    these cases no call to the cache or the provider has been made. *)
Theorem processFile_fails_before_any_lookup :
  forall (bytes : Type) (json_read : bytes -> option json)
         (json_write : json -> bytes) (CS PS : Type)
         (sched : list enricher.thread) (e : provider.world CS PS)
         (file : enricher.result bytes) (prov : provider.Provider PS)
         (cacheInstance : option (provider.Cache CS)) (parallelism : Z) x e' lg,
    main.processFile json_read json_write sched e file prov cacheInstance
      parallelism = Some (enricher.Err x, e', lg) ->
    e' = e
    /\ ((exists err, file = enricher.Err err /\ x = WrapError "read file" err)
        \/ (exists data format err,
              file = enricher.Ok data
              /\ sbom.DetectFormat json_read data = (format, Some err)
              /\ x = WrapError "detect format" err)
        \/ (exists data format,
              file = enricher.Ok data
              /\ sbom.DetectFormat json_read data = (format, None)
              /\ String.prefix "SPDX" format = false
              /\ String.prefix "CycloneDX" format = false
              /\ x = ErrorString ("unsupported SBOM format: " ++ format))
        \/ (exists data format,
              file = enricher.Ok data
              /\ sbom.DetectFormat json_read data = (format, None)
              /\ String.prefix "SPDX" format = true
              /\ enricher.ParseSBOMFile json_read data
                 = enricher.Err (WrapError "failed to parse SBOM JSON"
                                   (ErrorString "type error"))
              /\ x = WrapError "enrich SBOM"
                       (WrapError "failed to parse SBOM file"
                          (WrapError "failed to parse SBOM JSON"
                             (ErrorString "type error"))))
        \/ (exists data format,
              file = enricher.Ok data
              /\ sbom.DetectFormat json_read data = (format, None)
              /\ String.prefix "SPDX" format = false
              /\ String.prefix "CycloneDX" format = true
              /\ enricher.ParseCycloneDXFile json_read data
                 = enricher.Err (WrapError "failed to parse CycloneDX JSON"
                                   (ErrorString "syntax or type error"))
              /\ x = WrapError "enrich SBOM"
                       (WrapError "failed to parse SBOM file"
                          (WrapError "failed to parse CycloneDX JSON"
                             (ErrorString "syntax or type error"))))).
Proof.
  intros bytes json_read json_write CS PS sched e file prov cacheInstance
    parallelism x e' lg Hrun.
  unfold main.processFile in Hrun.
  destruct file as [data|err].
  2:{ injection Hrun as <- <- <-. split; [reflexivity|]. left. eauto. }
  destruct (sbom.DetectFormat json_read data) as [format [err|]] eqn:Hd.
  { injection Hrun as <- <- <-. split; [reflexivity|]. right. left. eauto 10. }
  cbn zeta in Hrun.
  destruct (String.prefix "SPDX" format) eqn:Hs.
  - unfold main.enriched in Hrun.
    destruct (enricher.SPDXEnricher_Enrich _ _ _ _ _ _ _ _)
      as [[[[out|err] e1] lg1]|] eqn:Hen; try discriminate.
    injection Hrun as <- <- <-.
    apply SPDXEnricher_Enrich_Err in Hen as (err' & Hp & -> & -> & ->).
    cbn in Hp.
    pose proof (ParseSBOMFile_Err_detected json_read _ _ _ Hd Hp) as ->.
    split; [reflexivity|]. right. right. right. left. eauto 10.
  - destruct (String.prefix "CycloneDX" format) eqn:Hc.
    + unfold main.enriched in Hrun.
      destruct (enricher.CycloneDXEnricher_Enrich _ _ _ _ _ _ _ _)
        as [[[[out|err] e1] lg1]|] eqn:Hen; try discriminate.
      injection Hrun as <- <- <-.
      apply CycloneDXEnricher_Enrich_Err in Hen as (err' & Hp & -> & -> & ->).
      cbn in Hp.
      pose proof (ParseCycloneDXFile_Err json_read _ _ Hp) as ->.
      split; [reflexivity|]. right. right. right. right. eauto 10.
    + injection Hrun as <- <- <-. split; [reflexivity|].
      right. right. left. eauto 10.
Qed.

(** A document with packages of the wrong JSON type: detected as
    SPDX-2.3, rejected by the parser, and the provider is not called. *)
Lemma processFile_fails_before_any_lookup_witness :
  let tree := JObject [("spdxVersion", JString "SPDX-2.3");
                       ("packages", JObject [])] in
  exists x e' lg,
    main.processFile fixtures.read_tree fixtures.write_tree
      (enricher.sequential_schedule 0 1) (fixtures.fresh_world tt)
      (enricher.Ok tree) (fixtures.answering ("MIT", None)) None 1
    = Some (enricher.Err x, e', lg)
    /\ e' = fixtures.fresh_world tt.
Proof.
  cbn zeta.
  destruct (main.processFile fixtures.read_tree fixtures.write_tree
      (enricher.sequential_schedule 0 1) (fixtures.fresh_world tt)
      (enricher.Ok (JObject [("spdxVersion", JString "SPDX-2.3");
                             ("packages", JObject [])]))
      (fixtures.answering ("MIT", None)) None 1)
    as [[[[out|x] e'] lg]|] eqn:Hrun; try (vm_compute in Hrun; discriminate).
  exists x, e', lg. split; [reflexivity|].
  destruct (processFile_fails_before_any_lookup _ _ _ _ _ _ _ _ _ _ _ _ _ _ Hrun)
    as [He _].
  exact He.
Defined.

(** X13.  The detected format is the string member spdxVersion as it stands, or
    SPDX-2.3, or CycloneDX- followed by a version.  So the dispatch of
    processFile and handleEnrich reaches its unsupported-format branch
    exactly for a document whose spdxVersion is a string that starts with
    neither SPDX nor CycloneDX (the empty string included), and a document
    whose spdxVersion starts with CycloneDX goes to the CycloneDX
    enricher. *)
Theorem unsupported_format_is_a_foreign_spdxVersion :
  forall (raw : list (string * json)) (format : string),
    (forall v, sbom.as_string (member "spdxVersion" raw) = Some v ->
               sbom.detect_members raw = (v, None))
    /\ (sbom.detect_members raw = (format, None) ->
        String.prefix "SPDX" format = true
        \/ String.prefix "CycloneDX" format = true
        \/ sbom.as_string (member "spdxVersion" raw) = Some format)
    /\ (forall (bytes : Type) (json_read : bytes -> option json)
               (json_write : json -> bytes) (CS PS : Type)
               (sched : list enricher.thread) (e : provider.world CS PS)
               (data : bytes) (prov : provider.Provider PS)
               (cacheInstance : option (provider.Cache CS)) (parallelism : Z),
          json_read data = Some (JObject raw) ->
          member "sbom" raw = None ->
          sbom.as_string (member "spdxVersion" raw) = Some format ->
          String.prefix "SPDX" format = false ->
          String.prefix "CycloneDX" format = false ->
          main.processFile json_read json_write sched e (enricher.Ok data) prov
            cacheInstance parallelism
          = Some (enricher.Err
                    (ErrorString ("unsupported SBOM format: " ++ format)),
                  e, [main.LogDetected format])).
Proof.
  intros raw format. split; [|split].
  - intros v Hv. unfold sbom.detect_members. rewrite Hv. reflexivity.
  - intros Hd. destruct (detect_members_ok raw format Hd)
      as [Hv|(_ & [->|(version & ->)])]; auto.
  - intros bytes json_read json_write CS PS sched e data prov cacheInstance
      parallelism Hread Hsbom Hv Hs Hc.
    unfold main.processFile, sbom.DetectFormat. rewrite Hread, Hsbom.
    unfold sbom.detect_members. rewrite Hv. cbn zeta. rewrite Hs, Hc.
    reflexivity.
Qed.

(** A document with an empty spdxVersion. *)
Lemma unsupported_format_is_a_foreign_spdxVersion_witness :
  let raw := [("spdxVersion", JString ""); ("SPDXID", JString "SPDXRef-DOCUMENT")] in
  main.processFile fixtures.read_tree fixtures.write_tree
    (enricher.sequential_schedule 0 1) (fixtures.fresh_world tt)
    (enricher.Ok (JObject raw)) (fixtures.answering ("MIT", None)) None 1
  = Some (enricher.Err (ErrorString "unsupported SBOM format: "),
          fixtures.fresh_world tt, [main.LogDetected ""]).
Proof.
  cbn zeta.
  destruct (unsupported_format_is_a_foreign_spdxVersion
              [("spdxVersion", JString ""); ("SPDXID", JString "SPDXRef-DOCUMENT")]
              "") as (_ & _ & Hrun).
  apply (Hrun json fixtures.read_tree fixtures.write_tree unit nat); reflexivity.
Defined.

(** X14.  A CycloneDX document inside the envelope of the GitHub export is
    detected but not enriched: format detection looks inside the member
    sbom, the CycloneDX parser does not, so it finds no components, and
    processFile and handleEnrich return the input bytes as they are without
    any call to the cache or the provider. *)
Theorem wrapped_cyclonedx_is_returned_unenriched :
  forall (bytes : Type) (json_read : bytes -> option json)
         (json_write : json -> bytes) (CS PS : Type)
         (sched : list enricher.thread) (e : provider.world CS PS)
         (data : bytes) (inner : list (string * json)) (format : string),
    json_read data = Some (JObject [("sbom", JObject inner)]) ->
    sbom.detect_members inner = (format, None) ->
    String.prefix "SPDX" format = false ->
    String.prefix "CycloneDX" format = true ->
    (forall (prov : provider.Provider PS)
            (cacheInstance : option (provider.Cache CS)) (parallelism : Z),
       main.processFile json_read json_write sched e (enricher.Ok data) prov
         cacheInstance parallelism
       = Some (enricher.Ok data, e, [main.LogDetected format]))
    /\ (forall (s : server.Server CS PS) (parallelism : Z),
          server.handleEnrich json_read json_write s sched e server.MethodPost
            (enricher.Ok {| server.SBOM := Some data;
                            server.Parallelism := parallelism |})
          = Some ({| server.StatusCode := server.StatusOK;
                     server.Body := server.enrichResponse data |},
                  e, [server.LogProcessing format])).
Proof.
  intros bytes json_read json_write CS PS sched e data inner format
    Hread Hd Hs Hc.
  assert (Hdetect : sbom.DetectFormat json_read data = (format, None)).
  { unfold sbom.DetectFormat. rewrite Hread. exact Hd. }
  assert (Hparse : enricher.ParseCycloneDXFile json_read data
                   = enricher.Ok cyclonedx.zero_BOM).
  { unfold enricher.ParseCycloneDXFile. rewrite Hread. reflexivity. }
  assert (Henrich : forall prov cacheInstance cacheTTL parallelism,
            enricher.CycloneDXEnricher_Enrich json_read json_write prov
              cacheInstance cacheTTL sched e
              {| enricher.SBOM := data; enricher.Parallelism := parallelism |}
            = Some (enricher.Ok data, e, [])).
  { intros. unfold enricher.CycloneDXEnricher_Enrich.
    cbn [enricher.SBOM]. rewrite Hparse. reflexivity. }
  split.
  - intros prov cacheInstance parallelism.
    unfold main.processFile. rewrite Hdetect. cbn zeta. rewrite Hs, Hc, Henrich.
    reflexivity.
  - intros s parallelism.
    unfold server.handleEnrich. cbn [negb String.eqb server.SBOM].
    change (String.eqb server.MethodPost server.MethodPost) with true.
    cbn [negb]. rewrite Hdetect. cbn zeta. rewrite Hs, Hc, Henrich.
    reflexivity.
Qed.

(** The envelope around a CycloneDX document with one unlicensed
    component: returned as it came, and the provider has not been
    called. *)
Lemma wrapped_cyclonedx_is_returned_unenriched_witness :
  let tree := JObject [("sbom", fixtures.bom_tree [] [fixtures.lodash])] in
  main.processFile fixtures.read_tree fixtures.write_tree
    (enricher.sequential_schedule 1 1) (fixtures.fresh_world tt)
    (enricher.Ok tree) (fixtures.answering ("MIT", None)) None 1
  = Some (enricher.Ok tree, fixtures.fresh_world tt,
          [main.LogDetected "CycloneDX-1.5"]).
Proof.
  cbn zeta.
  destruct (wrapped_cyclonedx_is_returned_unenriched json fixtures.read_tree
              fixtures.write_tree unit nat (enricher.sequential_schedule 1 1)
              (fixtures.fresh_world tt)
              (JObject [("sbom", fixtures.bom_tree [] [fixtures.lodash])])
              [("bomFormat", JString "CycloneDX");
               ("specVersion", JString "1.5");
               ("components", JArray [cyclonedx.encode_Component fixtures.lodash])]
              "CycloneDX-1.5" eq_refl eq_refl eq_refl eq_refl) as [Hcli _].
  apply Hcli.
Defined.




(** ** Items *)

Lemma any_choice_has_value_app (a b : list cyclonedx.LicenseChoice) :
  cyclonedx.any_choice_has_value (a ++ b)
  = cyclonedx.any_choice_has_value a || cyclonedx.any_choice_has_value b.
Proof.
  induction a as [|x a IH]; cbn; [reflexivity|].
  destruct (cyclonedx.choice_has_value x); [reflexivity|exact IH].
Qed.

(** X16.  What SetLicense does to the answers of the other methods.  An SPDX
    package has a license after SetLicense(L) exactly when L is meaningful
    or its declared field was: a license NONE or NOASSERTION from the
    provider leaves it without one.  A CycloneDX component has a license
    after SetLicense(L) exactly when L is not empty or it had one.  On
    both, GetPurl and GetLogID answer after SetLicense as before. *)
Theorem SetLicense_and_the_other_methods :
  (forall (p : spdx.Package) (L : string),
     (HasLicense (SetLicense p L) = true <->
      spec.meaningful L \/ spec.meaningful (spdx.LicenseDeclared p))
     /\ GetPurl (SetLicense p L) = GetPurl p
     /\ GetLogID (SetLicense p L) = GetLogID p)
  /\ (forall (c : cyclonedx.Component) (L : string),
        (HasLicense (SetLicense c L) = true <-> L ≠ "" \/ HasLicense c = true)
        /\ GetPurl (SetLicense c L) = GetPurl c
        /\ GetLogID (SetLicense c L) = GetLogID c).
Proof.
  split.
  - intros p L. split; [|split; reflexivity].
    cbn [HasLicense SetLicense spdx.Package_item].
    unfold spdx.Package_HasLicense, spdx.Package_SetLicense; cbn.
    rewrite orb_true_iff, !meaningful_test.
    pose proof (meaningful_test (spdx.LicenseDeclared p)) as Hd.
    destruct (String.eqb (spdx.LicenseDeclared p) "");
      destruct (String.eqb (spdx.LicenseDeclared p) spdx.spdxLicenseNone);
      destruct (String.eqb (spdx.LicenseDeclared p) spdx.spdxLicenseNoAssertion);
      cbn in *; rewrite ?meaningful_test; try tauto.
    all: assert (~ spec.meaningful (spdx.LicenseDeclared p))
      by (intros Hm; apply Hd in Hm; discriminate); tauto.
  - intros c L. split; [|split; reflexivity].
    cbn [HasLicense SetLicense cyclonedx.Component_item].
    unfold cyclonedx.Component_HasLicense, cyclonedx.HasComponentLicense,
      cyclonedx.Component_SetLicense; cbn.
    rewrite length_app. cbn [length].
    replace (Nat.eqb (length (cyclonedx.ComponentLicenses c) + 1) 0) with false
      by (symmetry; apply Nat.eqb_neq; lia).
    rewrite any_choice_has_value_app. cbn.
    unfold cyclonedx.choice_has_value. cbn.
    assert (Hany : (if Nat.eqb (length (cyclonedx.ComponentLicenses c)) 0
                    then false
                    else cyclonedx.any_choice_has_value
                           (cyclonedx.ComponentLicenses c))
                   = cyclonedx.any_choice_has_value (cyclonedx.ComponentLicenses c)).
    { destruct (cyclonedx.ComponentLicenses c); reflexivity. }
    rewrite Hany.
    destruct (String.eqb_spec L "") as [->|Hne]; cbn;
      destruct (cyclonedx.any_choice_has_value (cyclonedx.ComponentLicenses c));
      cbn; split; auto; try discriminate; intros [|]; congruence.
Qed.

(** X17.  GetSPDXPackagePurl returns the locator of the first external reference
    whose type is exactly purl, be the locator empty or not, and fails
    exactly when no reference has that type. *)
Theorem spdx_purl_is_the_first_purl_reference :
  forall (pkg : spdx.Package),
    (forall locator,
       spdx.GetSPDXPackagePurl pkg = (locator, None) <->
       exists pre ref post,
         elems (spdx.ExternalRefs pkg) = (pre ++ ref :: post)%list
         /\ (forall r, r ∈ pre -> spdx.ReferenceType r ≠ "purl")
         /\ spdx.ReferenceType ref = "purl"
         /\ spdx.ReferenceLocator ref = locator)
    /\ ((exists e, (spdx.GetSPDXPackagePurl pkg).2 = Some e) <->
        forall r, r ∈ elems (spdx.ExternalRefs pkg) -> spdx.ReferenceType r ≠ "purl").
Proof.
  intros pkg. unfold spdx.GetSPDXPackagePurl.
  assert (Hfirst : forall refs locator,
            spdx.first_purl refs = Some locator <->
            exists pre ref post,
              refs = (pre ++ ref :: post)%list
              /\ (forall r, r ∈ pre -> spdx.ReferenceType r ≠ "purl")
              /\ spdx.ReferenceType ref = "purl"
              /\ spdx.ReferenceLocator ref = locator).
  { induction refs as [|x refs IH]; intros locator; cbn.
    - split; [discriminate|]. intros (pre & ref & post & Habs & _).
      destruct pre; discriminate.
    - destruct (String.eqb_spec (spdx.ReferenceType x) "purl") as [E|E].
      + split.
        * intros [= <-]. exists [], x, refs. repeat split; auto.
          intros r Hr. inversion Hr.
        * intros ([|y pre] & ref & post & Heq & Hpre & Ht & Hl).
          -- injection Heq as <- _. congruence.
          -- injection Heq as <- _. exfalso. apply (Hpre x); [left|exact E].
      + rewrite IH. split.
        * intros (pre & ref & post & -> & Hpre & Ht & Hl).
          exists (x :: pre), ref, post. repeat split; auto.
          intros r Hr. apply elem_of_cons in Hr as [->|Hr]; auto.
        * intros ([|y pre] & ref & post & Heq & Hpre & Ht & Hl).
          -- injection Heq as <- _. congruence.
          -- injection Heq as <- ->. exists pre, ref, post. repeat split; auto.
             intros r Hr. apply Hpre. right. exact Hr. }
  assert (Hnone : forall refs,
            spdx.first_purl refs = None <->
            forall r, r ∈ refs -> spdx.ReferenceType r ≠ "purl").
  { induction refs as [|x refs IH]; cbn.
    - split; [|reflexivity]. intros _ r Hr. inversion Hr.
    - destruct (String.eqb_spec (spdx.ReferenceType x) "purl") as [E|E].
      + split; [discriminate|]. intros Hall. exfalso. apply (Hall x); [left|exact E].
      + rewrite IH. split.
        * intros Hall r Hr. apply elem_of_cons in Hr as [->|Hr]; auto.
        * intros Hall r Hr. apply Hall. right. exact Hr. }
  split.
  - intros locator. rewrite <- Hfirst.
    destruct (spdx.first_purl (elems (spdx.ExternalRefs pkg))) as [l|].
    + split; intros [= <-]; reflexivity.
    + split; discriminate.
  - rewrite <- Hnone.
    destruct (spdx.first_purl (elems (spdx.ExternalRefs pkg))) as [l|]; cbn.
    + split; [intros (e & [=])|discriminate].
    + split; eauto.
Qed.

(** X18.  The envelope of the GitHub export is transparent for SPDX.  For a
    document that is an object with a member sbom holding the SPDX
    document (an object without a member sbom of its own), format
    detection and parsing give what they give for the bare document, and
    Enrich returns, byte for byte, what it returns for the bare document
    when the document has packages (the envelope is not written back);
    without packages each input is returned as it came. *)
Theorem github_envelope_is_transparent_for_spdx :
  forall (bytes : Type) (json_read : bytes -> option json)
         (json_write : json -> bytes) (wrapped bare : bytes)
         (top inner : list (string * json)),
    json_read wrapped = Some (JObject top) ->
    member "sbom" top = Some (JObject inner) ->
    json_read bare = Some (JObject inner) ->
    member "sbom" inner = None ->
    sbom.DetectFormat json_read wrapped = sbom.DetectFormat json_read bare
    /\ enricher.ParseSBOMFile json_read wrapped
       = enricher.ParseSBOMFile json_read bare
    /\ forall (CS PS : Type) (prov : provider.Provider PS)
              (cacheInstance : option (provider.Cache CS)) (cacheTTL : Duration)
              (sched : list enricher.thread) (e : provider.world CS PS)
              (parallelism : Z) (doc : spdx.Document),
         enricher.ParseSBOMFile json_read bare = enricher.Ok doc ->
         let run data :=
           enricher.SPDXEnricher_Enrich json_read json_write prov cacheInstance
             cacheTTL sched e
             {| enricher.SBOM := data; enricher.Parallelism := parallelism |} in
         match elems (spdx.Packages doc) with
         | [] => run wrapped = Some (enricher.Ok wrapped, e, [])
                 /\ run bare = Some (enricher.Ok bare, e, [])
         | _ => run wrapped = run bare
         end.
Proof.
  intros bytes json_read json_write wrapped bare top inner Hw Htop Hb Hinner.
  assert (Hparse : enricher.ParseSBOMFile json_read wrapped
                   = enricher.ParseSBOMFile json_read bare).
  { unfold enricher.ParseSBOMFile, enricher.UnwrapGitHubSBOM.
    rewrite Hw, Hb, Htop, Hinner. reflexivity. }
  split; [|split; [exact Hparse|]].
  - unfold sbom.DetectFormat. rewrite Hw, Hb, Htop, Hinner. reflexivity.
  - intros CS PS prov cacheInstance cacheTTL sched e parallelism doc Hdoc run.
    unfold run, enricher.SPDXEnricher_Enrich. cbn [enricher.SBOM].
    rewrite Hparse, Hdoc. unfold enricher.enrichDocument.
    destruct (elems (spdx.Packages doc)) as [|pkg pkgs]; cbn; auto.
Qed.

(** The export of one unlicensed package, with and without the envelope:
    both runs write the bare document with the license set. *)
Lemma github_envelope_is_transparent_for_spdx_witness :
  let bare := fixtures.spdx_tree [] [fixtures.bare_package] in
  let wrapped := JObject [("sbom", bare)] in
  let run data :=
    enricher.SPDXEnricher_Enrich fixtures.read_tree fixtures.write_tree
      (fixtures.answering ("MIT", None)) None 0%Z
      (enricher.sequential_schedule 1 1) (fixtures.fresh_world tt)
      {| enricher.SBOM := data; enricher.Parallelism := 1 |} in
  run wrapped = run bare
  /\ exists e' lg,
       run bare
       = Some (enricher.Ok
                 (spdx.encode_Document
                    {| spdx.SPDXVersion := "SPDX-2.3";
                       spdx.DocSPDXID := "SPDXRef-DOCUMENT";
                       spdx.Packages :=
                         Some [SetLicense fixtures.bare_package "MIT"] |}),
               e', lg).
Proof.
  cbn zeta. split.
  - destruct (github_envelope_is_transparent_for_spdx json fixtures.read_tree
                fixtures.write_tree
                (JObject [("sbom", fixtures.spdx_tree [] [fixtures.bare_package])])
                (fixtures.spdx_tree [] [fixtures.bare_package])
                [("sbom", fixtures.spdx_tree [] [fixtures.bare_package])]
                [("spdxVersion", JString "SPDX-2.3");
                 ("SPDXID", JString "SPDXRef-DOCUMENT");
                 ("packages", JArray [spdx.encode_Package fixtures.bare_package])]
                eq_refl eq_refl eq_refl eq_refl) as (_ & _ & Hrun).
    apply (Hrun unit nat (fixtures.answering ("MIT", None)) None 0%Z
             (enricher.sequential_schedule 1 1) (fixtures.fresh_world tt) 1%Z
             {| spdx.SPDXVersion := "SPDX-2.3";
                spdx.DocSPDXID := "SPDXRef-DOCUMENT";
                spdx.Packages := Some [fixtures.bare_package] |}).
    reflexivity.
  - eexists _, _. vm_compute. reflexivity.
Defined.



(** X20.  Without a cache the provider is asked once for every item that has a
    purl and no license.  When the pool has returned, the purls of the
    provider calls it made are, up to their order, the purls of those
    items: a purl that two items share is asked twice, a lookup that
    failed is not repeated, and nothing else is asked, under every
    schedule and whatever the provider answers.  The calls of Enrich are
    these for the packages or the components of the parsed document. *)
Theorem without_cache_every_candidate_is_asked_once :
  forall (CS PS : Type) (prov : provider.Provider PS) (cacheTTL : Duration),
    (forall (T : Type) (HT : enrichableItem T) (its : list T) (parallelism : Z)
            (e : provider.world CS PS) (sched : list enricher.thread),
       (0 < parallelism)%Z ->
       let s := enricher.exec prov None cacheTTL sched
                  (enricher.start its parallelism e) in
       enricher.main s = enricher.Returned ->
       exists made,
         provider.calls (enricher.env s) = (provider.calls e ++ made)%list
         /\ asked.provider_purls made ≡ₚ asked.candidate_purls its)
    /\ (forall (bytes : Type) (json_read : bytes -> option json)
               (json_write : json -> bytes) (sched : list enricher.thread)
               (e : provider.world CS PS) (opts : enricher.Options bytes)
               (doc : spdx.Document) r e' lg,
          enricher.ParseSBOMFile json_read (enricher.SBOM opts) = enricher.Ok doc ->
          enricher.SPDXEnricher_Enrich json_read json_write prov None
            cacheTTL sched e opts = Some (r, e', lg) ->
          exists made,
            provider.calls e' = (provider.calls e ++ made)%list
            /\ asked.provider_purls made
               ≡ₚ asked.candidate_purls (elems (spdx.Packages doc)))
    /\ (forall (bytes : Type) (json_read : bytes -> option json)
               (json_write : json -> bytes) (sched : list enricher.thread)
               (e : provider.world CS PS) (opts : enricher.Options bytes)
               (bom : cyclonedx.BOM) r e' lg,
          enricher.ParseCycloneDXFile json_read (enricher.SBOM opts) = enricher.Ok bom ->
          enricher.CycloneDXEnricher_Enrich json_read json_write prov None
            cacheTTL sched e opts = Some (r, e', lg) ->
          exists made,
            provider.calls e' = (provider.calls e ++ made)%list
            /\ asked.provider_purls made
               ≡ₚ asked.candidate_purls (cyclonedx.Components bom)).
Proof.
  intros CS PS prov cacheTTL. split; [|split].
  - intros T HT its parallelism e sched Hpar s Hret.
    apply (asked_at_return prov None cacheTTL eq_refl sched its parallelism e Hpar Hret).
  - intros bytes json_read json_write sched e opts doc r e' lg Hparse Hrun.
    apply SPDXEnricher_Enrich_Some in Hrun. rewrite Hparse in Hrun.
    destruct Hrun as [(-> & _ & -> & _)|(_ & Hret & _ & -> & _)].
    + exists []. rewrite app_nil_r. split; reflexivity.
    + apply (asked_at_return prov None cacheTTL eq_refl sched _ _ e
               (clamp_positive _) Hret).
  - intros bytes json_read json_write sched e opts bom r e' lg Hparse Hrun.
    apply CycloneDXEnricher_Enrich_Some in Hrun. rewrite Hparse in Hrun.
    destruct Hrun as [(-> & _ & -> & _)|(_ & Hret & _ & -> & _)].
    + exists []. rewrite app_nil_r. split; reflexivity.
    + apply (asked_at_return prov None cacheTTL eq_refl sched _ _ e
               (clamp_positive _) Hret).
Qed.

(** Four packages, two of them the same express package without a
    license, and a provider that answers 404: the provider is asked
    twice for the purl of express and for nothing else. *)
Lemma without_cache_every_candidate_is_asked_once_witness :
  let not_found := WrapError "HTTP 404" ErrLicenseNotFound in
  let its := [fixtures.bare_package; fixtures.apache_package;
              fixtures.no_purl_package; fixtures.bare_package] in
  let s := enricher.exec (fixtures.answering ("", Some not_found))
             (None : option (provider.Cache unit)) 0%Z
             (enricher.sequential_schedule 4 2)
             (enricher.start its 2 (fixtures.fresh_world tt)) in
  exists made,
    provider.calls (enricher.env s) = made
    /\ asked.provider_purls made
       ≡ₚ ["pkg:npm/express@4.17.1"; "pkg:npm/express@4.17.1"].
Proof.
  intros not_found its s.
  destruct (without_cache_every_candidate_is_asked_once unit nat
              (fixtures.answering ("", Some not_found)) 0%Z) as (Hpool & _).
  destruct (Hpool spdx.Package _ its 2%Z (fixtures.fresh_world tt)
              (enricher.sequential_schedule 4 2)) as (made & Hmade & Hperm).
  - lia.
  - vm_compute. reflexivity.
  - exists made. split; [exact Hmade|exact Hperm].
Defined.
